(** * Extract_Watch_ID: the transcript-to-record extraction core

    A shallow embedding of the pure core of [Extract_Watch_ID.py]
    ([HEADER_RE], [parse_price], [parse_currency], [parse_year],
    [parse_variant], [parse_condition], [split_segments],
    [attach_following], [extract_message_entries], [process_chat_file] and
    the per-file loop of [extraction_thread]) together with the parts of the
    interpreter's library the code calls: [str] methods, [re.search] and
    [re.match], [float] and [int].

    Text is a list of 8-bit characters read as the code points U+0000 to
    U+00FF; the character tables below are the interpreter's tables for
    that range.  On it a pattern compiled with [re.IGNORECASE] and
    [str.lower] fold case alike; beyond it they do not (for instance at
    U+0130, U+0131, U+017F and U+212A), and nothing below speaks of such
    text. *)

From Stdlib Require Import String Ascii List ZArith Lia Bool Arith.
Import ListNotations.

Set Implicit Arguments.

(** The type of Python [str] values. *)
Definition str := list ascii.

(** A literal of the source. *)
Definition txt (x : string) : str := list_ascii_of_string x.

(** ** Character tables *)

Module Char.

Definition code (c : ascii) : N := N_of_ascii c.

Definition in_range (lo hi : N) (c : ascii) : bool :=
  ((lo <=? code c) && (code c <=? hi))%N.

Definition has_code (n : N) (c : ascii) : bool := (code c =? n)%N.

(** [\d]: the decimal digits. *)
Definition is_digit (c : ascii) : bool := in_range 48 57 c.

Definition is_ascii_upper (c : ascii) : bool := in_range 65 90 c.
Definition is_ascii_lower (c : ascii) : bool := in_range 97 122 c.

Definition is_ascii_alnum (c : ascii) : bool :=
  is_digit c || is_ascii_upper c || is_ascii_lower c.

(** [\s], [str.isspace] and the characters removed by [str.strip]. *)
Definition is_space (c : ascii) : bool :=
  in_range 9 13 c || in_range 28 32 c || has_code 133 c || has_code 160 c.

(** [\w]: alphanumeric characters and the underscore. *)
Definition is_word (c : ascii) : bool :=
  is_ascii_alnum c || has_code 95 c
  || has_code 170 c || in_range 178 179 c || has_code 181 c || in_range 185 186 c
  || in_range 188 190 c || in_range 192 214 c || in_range 216 246 c
  || in_range 248 255 c.

(** The line boundaries of [str.splitlines]. *)
Definition is_linebreak (c : ascii) : bool :=
  in_range 10 13 c || in_range 28 30 c || has_code 133 c.

(** [str.lower] on one character; also the case folding of
    [re.IGNORECASE]. *)
Definition lower (c : ascii) : ascii :=
  if is_ascii_upper c || (in_range 192 222 c && negb (has_code 215 c))
  then ascii_of_N (code c + 32) else c.

(** [str.upper] on one character.  U+00DF becomes two characters; the
    upper-case forms of U+00B5 and U+00FF lie outside the 8-bit range
    and these two characters are left as they are. *)
Definition upper (c : ascii) : str :=
  if is_ascii_lower c || (in_range 224 254 c && negb (has_code 247 c))
  then [ascii_of_N (code c - 32)]
  else if has_code 223 c then txt "SS" else [c].

(** Equality of two characters up to case, as [re.IGNORECASE] compares a
    literal of the pattern with a character of the subject. *)
Definition eqb_nocase (a b : ascii) : bool := Ascii.eqb (lower a) (lower b).

End Char.

(** ** String methods *)

Module Str.

Definition lower (s : str) : str := map Char.lower s.

Definition upper (s : str) : str := flat_map Char.upper s.

Definition eqb (a b : str) : bool :=
  if list_eq_dec ascii_dec a b then true else false.

(** [s.replace(c, '')] for a one-character [c]. *)
Definition remove (c : ascii) (s : str) : str :=
  filter (fun x => negb (Ascii.eqb x c)) s.

Fixpoint lstrip (s : str) : str :=
  match s with
  | c :: s' => if Char.is_space c then lstrip s' else s
  | [] => []
  end.

Definition rstrip (s : str) : str := rev (lstrip (rev s)).

(** [s.strip()]. *)
Definition strip (s : str) : str := rstrip (lstrip s).

(** [s.startswith(p)]. *)
Fixpoint startswith (p s : str) : bool :=
  match p, s with
  | [], _ => true
  | a :: p', b :: s' => Ascii.eqb a b && startswith p' s'
  | _ :: _, [] => false
  end.

(** [needle in s]. *)
Fixpoint contains (needle s : str) : bool :=
  startswith needle s ||
  match s with
  | [] => false
  | _ :: s' => contains needle s'
  end.

(** [s.split(sep)] for a non-empty [sep]: [cur] is the piece being read,
    in reverse, and [skip] counts the characters of a separator still to
    be passed over. *)
Fixpoint split_go (sep : str) (skip : nat) (cur s : str) : list str :=
  match s with
  | [] => [rev cur]
  | c :: s' =>
      match skip with
      | S n => split_go sep n cur s'
      | O =>
          if startswith sep s
          then rev cur :: split_go sep (length sep - 1) [] s'
          else split_go sep 0 (c :: cur) s'
      end
  end.

Definition split (sep s : str) : list str := split_go sep 0 [] s.

(** [s.splitlines()]: a carriage return followed by a line feed is one
    boundary, and no empty last line is reported. *)
Fixpoint splitlines_go (cur s : str) : list str :=
  match s with
  | [] => match cur with [] => [] | _ :: _ => [rev cur] end
  | c :: s' =>
      if Char.is_linebreak c then
        rev cur ::
        match s' with
        | d :: s'' =>
            if Char.has_code 13 c && Char.has_code 10 d
            then splitlines_go [] s'' else splitlines_go [] s'
        | [] => []
        end
      else splitlines_go (c :: cur) s'
  end.

Definition splitlines (s : str) : list str := splitlines_go [] s.

(** ['\n'.join(ls)]. *)
Fixpoint join_nl (ls : list str) : str :=
  match ls with
  | [] => []
  | [l] => l
  | l :: ls' => l ++ txt (String "010" EmptyString) ++ join_nl ls'
  end.

(** [int(s)] on a string of decimal digits, read into [acc]. *)
Fixpoint int_go (acc : Z) (s : str) : Z :=
  match s with
  | [] => acc
  | c :: s' => int_go (10 * acc + Z.of_N (Char.code c - 48)) s'
  end.

Definition to_int (s : str) : Z := int_go 0 s.

End Str.

(** ** Exceptions *)

(** The exceptions the extraction core can meet: [int] of an infinite
    [float], and a transcript that cannot be opened or read. *)
Inductive exn : Type :=
| OverflowError
| OSError.

(** A computation that returns a value or raises. *)
Inductive res (A : Type) : Type :=
| Ok (a : A)
| Raise (e : exn).

Arguments Ok {A} a.
Arguments Raise {A} e.

Definition bind {A B : Type} (m : res A) (f : A -> res B) : res B :=
  match m with
  | Ok a => f a
  | Raise e => Raise e
  end.

Declare Scope res_scope.
Delimit Scope res_scope with res.
Notation "x <- m ;; k" := (bind m (fun x => k))
  (at level 61, m at next level, right associativity) : res_scope.

(** ** Regular expressions: [re.search] and [re.match]

    The backtracking matcher of the [re] module, for the constructs the
    source's patterns use.  Every repetition of the source is over a set of
    single characters, so [Rep] repeats a set. *)

Module Re.

Inductive regex : Type :=
| Eps                                   (* the empty pattern *)
| Set_ (p : ascii -> bool)              (* one character of a set *)
| Cat (r1 r2 : regex)                   (* r1 r2 *)
| Alt (r1 r2 : regex)                   (* r1|r2 *)
| Rep (greedy : bool) (lo : nat) (hi : option nat) (p : ascii -> bool)
                                        (* p{lo,hi}, or p{lo,hi}? *)
| Group (n : nat) (r : regex)           (* the n-th capturing group *)
| Bound                                 (* \b *)
| Bos                                   (* ^ *)
| Eos.                                  (* $ *)

(** The groups captured so far, the latest value of a group first. *)
Definition captures := list (nat * str).

(** [m.group(n)]. *)
Fixpoint group (n : nat) (m : captures) : str :=
  match m with
  | [] => []
  | (i, s) :: m' => if Nat.eqb i n then s else group n m'
  end.

Definition is_word_opt (c : option ascii) : bool :=
  match c with
  | Some x => Char.is_word x
  | None => false
  end.

(** [\b] between the character before the position and the one after. *)
Definition boundary (prev : option ascii) (s : str) : bool :=
  xorb (is_word_opt prev) (is_word_opt (hd_error s)).

(** [$]: the end of the subject, or just before a line feed that ends
    it. *)
Definition at_end (s : str) : bool :=
  match s with
  | [] => true
  | [c] => Char.has_code 10 c
  | _ => false
  end.

Definition may_repeat (hi : option nat) : bool :=
  match hi with
  | Some O => false
  | _ => true
  end.

(** [p{lo,hi}] at a position: [prev] is the character before it, [s] the
    rest of the subject, [k] what remains of the pattern.  The greedy form
    takes a further character first and gives it back when the rest
    fails; the lazy form tries the rest first. *)
Fixpoint rep {A : Type} (greedy : bool) (p : ascii -> bool) (lo : nat)
    (hi : option nat) (prev : option ascii) (s : str)
    (k : option ascii -> str -> option A) {struct s} : option A :=
  match s with
  | [] => match lo with O => k prev [] | S _ => None end
  | c :: s' =>
      if p c && may_repeat hi then
        if greedy then
          match rep greedy p (pred lo) (option_map pred hi) (Some c) s' k with
          | Some a => Some a
          | None => match lo with O => k prev s | S _ => None end
          end
        else
          match lo with
          | O =>
              match k prev s with
              | Some a => Some a
              | None => rep greedy p 0 (option_map pred hi) (Some c) s' k
              end
          | S lo' => rep greedy p lo' (option_map pred hi) (Some c) s' k
          end
      else match lo with O => k prev s | S _ => None end
  end.

(** The pattern [r] at a position, then the continuation [k]. *)
Fixpoint run {A : Type} (r : regex) (prev : option ascii) (s : str)
    (m : captures) (k : option ascii -> str -> captures -> option A)
    {struct r} : option A :=
  match r with
  | Eps => k prev s m
  | Set_ p =>
      match s with
      | c :: s' => if p c then k (Some c) s' m else None
      | [] => None
      end
  | Cat r1 r2 => run r1 prev s m (fun prev' s' m' => run r2 prev' s' m' k)
  | Alt r1 r2 =>
      match run r1 prev s m k with
      | Some a => Some a
      | None => run r2 prev s m k
      end
  | Rep greedy lo hi p =>
      rep greedy p lo hi prev s (fun prev' s' => k prev' s' m)
  | Group n r1 =>
      run r1 prev s m (fun prev' s' m' =>
        k prev' s' ((n, firstn (length s - length s') s) :: m'))
  | Bound => if boundary prev s then k prev s m else None
  | Bos => match prev with None => k prev s m | Some _ => None end
  | Eos => if at_end s then k prev s m else None
  end.

(** One attempt at a position; the match object is the captured groups. *)
Definition attempt (r : regex) (prev : option ascii) (s : str)
  : option captures :=
  run r prev s [] (fun _ _ m => Some m).

(** [re.search]: the first position, from the left, where an attempt
    succeeds. *)
Fixpoint search_from (r : regex) (prev : option ascii) (s : str)
  : option captures :=
  match attempt r prev s with
  | Some m => Some m
  | None =>
      match s with
      | [] => None
      | c :: s' => search_from r (Some c) s'
      end
  end.

Definition search (r : regex) (s : str) : option captures :=
  search_from r None s.

(** [pattern.match]: an attempt at the start of the subject only. *)
Definition match_ (r : regex) (s : str) : option captures :=
  attempt r None s.

(** The truth value of a match object. *)
Definition found (m : option captures) : bool :=
  match m with
  | Some _ => true
  | None => false
  end.

(** *** Pattern syntax *)

Definition chr (c : ascii) : regex := Set_ (Ascii.eqb c).

(** A literal character under [re.IGNORECASE]. *)
Definition chr_i (c : ascii) : regex := Set_ (Char.eqb_nocase c).

Fixpoint cat (rs : list regex) : regex :=
  match rs with
  | [] => Eps
  | [r] => r
  | r :: rs' => Cat r (cat rs')
  end.

Fixpoint alt (rs : list regex) : regex :=
  match rs with
  | [] => Eps
  | [r] => r
  | r :: rs' => Alt r (alt rs')
  end.

(** A literal string, and the same under [re.IGNORECASE]. *)
Definition lit (s : string) : regex := cat (map chr (txt s)).
Definition lit_i (s : string) : regex := cat (map chr_i (txt s)).

(** [re.escape(s)], as a pattern compiled under [re.IGNORECASE]: each
    character of [s] stands for itself. *)
Definition escape_i (s : str) : regex := cat (map chr_i s).

Definition plus (p : ascii -> bool) : regex := Rep true 1 None p.
Definition star (p : ascii -> bool) : regex := Rep true 0 None p.
Definition plus_lazy (p : ascii -> bool) : regex := Rep false 1 None p.
Definition times (n : nat) (p : ascii -> bool) : regex :=
  Rep true n (Some n) p.
Definition between (lo hi : nat) (p : ascii -> bool) : regex :=
  Rep true lo (Some hi) p.
Definition at_least (n : nat) (p : ascii -> bool) : regex :=
  Rep true n None p.

(** [(?:r)?] *)
Definition opt (r : regex) : regex := Alt r Eps.

(** The set [[abc]] of the characters of a string; with a leading [^],
    its complement. *)
Definition one_of (s : string) (c : ascii) : bool :=
  existsb (Ascii.eqb c) (txt s).
Definition none_of (s : string) (c : ascii) : bool := negb (one_of s c).

End Re.

(** ** Floating point: [float(s)], [x * n] and [int(x)]

    The non-negative binary64 numbers, with exact integer arithmetic: a
    finite number is [m * 2^e] with [0 <= m < 2^53] and
    [-1074 <= e <= 971].  Conversions and products round to the nearest
    number, ties to the even mantissa, and overflow to infinity. *)

Module Float.

Inductive float : Type :=
| Finite (m e : Z)
| Infinity.

Local Open Scope Z_scope.

(** Whether [d * 2^l <= n]. *)
Definition scaled_le (n d l : Z) : bool :=
  if 0 <=? l then d * 2 ^ l <=? n else d <=? n * 2 ^ (- l).

(** The integer part of the binary logarithm of [n / d], for positive
    [n] and [d]. *)
Definition ilog2 (n d : Z) : Z :=
  let l := Z.log2 n - Z.log2 d in
  if scaled_le n d l then l else l - 1.

(** [n / d] rounded to the nearest integer, ties to even. *)
Definition round_div (n d : Z) : Z :=
  let q := n / d in
  match 2 * (n mod d) ?= d with
  | Lt => q
  | Gt => q + 1
  | Eq => if Z.even q then q else q + 1
  end.

(** The binary64 number nearest to [n / d], for [0 <= n] and [0 < d]. *)
Definition of_ratio (n d : Z) : float :=
  if n =? 0 then Finite 0 0 else
  let e := Z.max (ilog2 n d - 52) (-1074) in
  let m := if 0 <=? e then round_div n (d * 2 ^ e)
           else round_div (n * 2 ^ (- e)) d in
  let e' := if m =? 2 ^ 53 then e + 1 else e in
  let m' := if m =? 2 ^ 53 then 2 ^ 52 else m in
  if 971 <? e' then Infinity else Finite m' e'.

Fixpoint before_dot (s : str) : str :=
  match s with
  | [] => []
  | c :: s' => if Ascii.eqb c "." then [] else c :: before_dot s'
  end.

Fixpoint after_dot (s : str) : str :=
  match s with
  | [] => []
  | c :: s' => if Ascii.eqb c "." then s' else after_dot s'
  end.

(** [float(s)] for [s] of the shape digits, a dot, digits: the only shape
    the price patterns capture for it. *)
Definition of_decimal (s : str) : float :=
  of_ratio (Str.to_int (before_dot s ++ after_dot s))
           (10 ^ Z.of_nat (length (after_dot s))).

(** [x * k] for a non-negative integer [k] that binary64 represents
    exactly. *)
Definition mul_int (x : float) (k : Z) : float :=
  match x with
  | Finite m e =>
      if 0 <=? e then of_ratio (m * k * 2 ^ e) 1
      else of_ratio (m * k) (2 ^ (- e))
  | Infinity => Infinity
  end.

(** [int(x)]: truncation; an infinite [x] raises. *)
Definition to_int (x : float) : res Z :=
  match x with
  | Finite m e => Ok (if 0 <=? e then m * 2 ^ e else m / 2 ^ (- e))
  | Infinity => Raise OverflowError
  end.

End Float.

(** * The extraction core *)

Import Re.

(** ** Patterns *)

Definition digit : ascii -> bool := Char.is_digit.
Definition space : ascii -> bool := Char.is_space.

(** [.]: any character but a line feed. *)
Definition dot (c : ascii) : bool := negb (Char.has_code 10 c).

(** [[\d/]] *)
Definition digit_or_slash (c : ascii) : bool := digit c || one_of "/" c.

(** [[A-Z0-9]] and [[A-Z0-9\-]] under [re.IGNORECASE]: the members of the
    set are folded to lower case, and so is the character compared with
    them. *)
Definition alnum_i (c : ascii) : bool :=
  Char.is_ascii_lower (Char.lower c) || digit (Char.lower c).
Definition alnum_hyphen_i (c : ascii) : bool :=
  alnum_i c || Ascii.eqb (Char.lower c) "-".

Definition HEADER_RE : regex :=
  cat [Bos; chr "["; Group 1 (plus digit_or_slash); chr ","; star space;
       Group 2 (cat [between 1 2 digit; chr ":"; times 2 digit;
                     opt (cat [chr ":"; times 2 digit]); star space;
                     times 2 (one_of "APMapm")]);
       chr "]"; star space;
       Group 3 (plus_lazy (none_of ":")); chr ":"; star space;
       Group 4 (star dot); Eos].

(** [(\d+\.\d+)] *)
Definition decimal : regex := Group 1 (cat [plus digit; chr "."; plus digit]).

(** [(?:hkd|usd|eur|chf|usdt)] *)
Definition currency_code : regex :=
  alt [lit "hkd"; lit "usd"; lit "eur"; lit "chf"; lit "usdt"].

Definition PRICE_DECIMAL_K : regex := cat [decimal; star space; chr "k"].
Definition PRICE_DECIMAL_M : regex := cat [decimal; star space; chr "m"].
Definition PRICE_INT_K : regex :=
  cat [Group 1 (plus digit); star space; chr "k"; Bound].
Definition PRICE_INT_M : regex :=
  cat [Group 1 (plus digit); star space; chr "m"; Bound].
Definition PRICE_DECIMAL_MILL : regex := cat [decimal; star space; lit "mill"].
Definition PRICE_CODE_SEP : regex :=
  cat [currency_code; Set_ (one_of ": "); star space;
       Group 1 (at_least 5 digit)].
Definition PRICE_CODE : regex := cat [currency_code; Group 1 (at_least 5 digit)].
Definition PRICE_BARE : regex := cat [Bound; Group 1 (at_least 6 digit); Bound].

(** [(20\d{2})], and the same under [re.IGNORECASE]. *)
Definition year20 : regex := Group 1 (cat [lit "20"; times 2 digit]).
Definition year20_i : regex := Group 1 (cat [lit_i "20"; times 2 digit]).

Definition YEAR_BARE : regex := cat [Bound; year20; Bound].
Definition YEAR_SLASH : regex := cat [year20; chr "/"; times 2 digit].
Definition YEAR_SHORT : regex :=
  cat [Bound; Group 1 (between 1 2 digit); alt [chr_i "y"; chr_i "Y"]; Bound].
Definition YEAR_WORD : regex := cat [year20_i; alt [lit_i "year"; lit_i "yr"]].

(** [rf'\b{v}\b'] *)
Definition WORD_RE (v : string) : regex := cat [Bound; lit v; Bound].

(** [rf'\b{re.escape(pid)}\b'] under [re.IGNORECASE]. *)
Definition PID_RE (pid : str) : regex := cat [Bound; escape_i pid; Bound].

(** [\b[A-Z0-9]{4,}/[A-Z0-9\-]+\b] under [re.IGNORECASE]. *)
Definition REF_CODE_RE : regex :=
  cat [Bound; at_least 4 alnum_i; chr_i "/"; plus alnum_hyphen_i; Bound].

(** [PHOTO|omitted|attached:] under [re.IGNORECASE]. *)
Definition NOISE_RE : regex :=
  alt [lit_i "PHOTO"; lit_i "omitted"; lit_i "attached:"].

(** ** Attribute extractors *)

(** [int(float(s) * k)] *)
Definition int_float_times (s : str) (k : Z) : res Z :=
  Float.to_int (Float.mul_int (Float.of_decimal s) k).

Definition parse_price (text : str) : res Z :=
  let t := Str.lower (Str.remove "," text) in
  match search PRICE_DECIMAL_K t with
  | Some m => int_float_times (group 1 m) 1000
  | None =>
  match search PRICE_DECIMAL_M t with
  | Some m => int_float_times (group 1 m) 1000000
  | None =>
  match search PRICE_INT_K t with
  | Some m => Ok (Str.to_int (group 1 m) * 1000)%Z
  | None =>
  match search PRICE_INT_M t with
  | Some m => Ok (Str.to_int (group 1 m) * 1000000)%Z
  | None =>
  match search PRICE_DECIMAL_MILL t with
  | Some m => int_float_times (group 1 m) 1000000
  | None =>
  match search PRICE_CODE_SEP t with
  | Some m => Ok (Str.to_int (group 1 m))
  | None =>
  match search PRICE_CODE t with
  | Some m => Ok (Str.to_int (group 1 m))
  | None =>
  match search PRICE_BARE t with
  | Some m => Ok (Str.to_int (group 1 m))
  | None => Ok 0%Z
  end end end end end end end end.

Definition parse_currency (text : str) : str :=
  let t := Str.lower text in
  if Str.contains (txt "usdt") t then txt "USDT"
  else if Str.contains (txt "usd") t || Str.contains (txt "$") t then txt "USD"
  else if Str.contains (txt "eur") t then txt "EUR"   (* the euro sign is no 8-bit character *)
  else if Str.contains (txt "chf") t then txt "CHF"
  else if Str.contains (txt "gbp") t || Str.contains ["163"%char] t
       then txt "GBP"
  else txt "HKD".

Definition digit_char (n : Z) : ascii := ascii_of_N (48 + Z.to_N n).

(** [f"{n:02d}"] for [0 <= n < 100]. *)
Definition format_02d (n : Z) : str := [digit_char (n / 10); digit_char (n mod 10)].

Definition parse_year (text : str) : str :=
  match search YEAR_BARE text with
  | Some m => group 1 m
  | None =>
  match search YEAR_SLASH text with
  | Some m => group 1 m
  | None =>
  match search YEAR_SHORT text with
  | Some m =>
      let year_val := Str.to_int (group 1 m) in
      if (year_val <? 50)%Z then txt "20" ++ format_02d year_val
      else txt "19" ++ format_02d year_val
  | None =>
  match search YEAR_WORD text with
  | Some m => group 1 m
  | None => []
  end end end end.

Definition VARIANTS : list string :=
  ["BLUE"; "BLACK"; "GREEN"; "WHITE"; "RED"; "GREY"; "GRAY"; "JUB"; "OYS";
   "RG"; "TI"; "WG"]%string.

Fixpoint parse_variant_loop (vs : list string) (t : str) : str :=
  match vs with
  | [] => []
  | v :: vs' =>
      if found (search (WORD_RE v) t)
      then (if String.eqb v "GRAY" then txt "GREY" else txt v)
      else parse_variant_loop vs' t
  end.

Definition parse_variant (text : str) : str :=
  parse_variant_loop VARIANTS (Str.upper text).

Definition parse_condition (text : str) : str :=
  let t := Str.lower text in
  if Str.contains (txt "like new") t then txt "Like New"
  else if Str.contains (txt "used") t then txt "Used"
  else if Str.contains (txt "full set") t || Str.contains (txt "fullset") t
       then txt "Full Set"
  else if Str.contains (txt "mint") t then txt "Mint"
  else if Str.contains (txt "new") t then txt "New"
  else if Str.contains (txt "only watch") t then txt "Only Watch"
  else [].

(** ** Candidate segment extractor *)

Local Open Scope res_scope.

(** The truth value of a string. *)
Definition nonempty (s : str) : bool :=
  match s with
  | [] => false
  | _ :: _ => true
  end.

(** [re.search(rf'\b{re.escape(pid)}\b', p, re.IGNORECASE)] as a
    condition. *)
Definition has_pid (pid p : str) : bool := found (search (PID_RE pid) p).

Definition split_segments (body pid : str) : list str :=
  flat_map
    (fun line =>
       let parts := map Str.strip (Str.split (txt "//") line) in
       filter (has_pid pid) parts)
    (Str.splitlines body).

(** [f"{line} // {follow_line}"] *)
Definition combined (line follow_line : str) : str :=
  line ++ txt " // " ++ follow_line.

(** The condition of the [break]. *)
Definition starts_other_item (pid follow_line : str) : bool :=
  found (search REF_CODE_RE follow_line) && negb (has_pid pid follow_line).

(** The inner loop, [for j in range(i+1, min(i+6, len(lines)))]: [j] is the
    index and [n] the number of iterations left. *)
Fixpoint attach_following_inner (pid line : str) (lines : list str)
    (j n : nat) (results : list str) : res (list str) :=
  match n with
  | O => Ok results
  | S n' =>
      if length lines <=? j then Ok results
      else
        let follow_line := nth j lines [] in
        if starts_other_item pid follow_line then Ok results
        else if nonempty (parse_year follow_line) then
          attach_following_inner pid line lines (S j) n'
            (results ++ [combined line follow_line])
        else
          p <- parse_price follow_line ;;
          if (0 <? p)%Z then
            attach_following_inner pid line lines (S j) n'
              (results ++ [combined line follow_line])
          else attach_following_inner pid line lines (S j) n' results
  end.

(** The outer loop, [for i, line in enumerate(lines)]: [rest] is what
    remains of [lines] from index [i] on. *)
Fixpoint attach_following_outer (pid : str) (lines : list str) (i : nat)
    (rest : list str) (results : list str) : res (list str) :=
  match rest with
  | [] => Ok results
  | line :: rest' =>
      if has_pid pid line then
        p <- parse_price line ;;
        if (0 <? p)%Z || nonempty (parse_year line) then
          attach_following_outer pid lines (S i) rest' results
        else
          results' <- attach_following_inner pid line lines (i + 1)
                        (Nat.min (i + 6) (length lines) - (i + 1)) results ;;
          attach_following_outer pid lines (S i) rest' results'
      else attach_following_outer pid lines (S i) rest' results
  end.

(** [[l.strip() for l in body.splitlines() if l.strip()]] *)
Definition stripped_lines (body : str) : list str :=
  map Str.strip
    (filter (fun l => nonempty (Str.strip l)) (Str.splitlines body)).

Definition attach_following (body pid : str) : res (list str) :=
  let lines := stripped_lines body in
  attach_following_outer pid lines 0 lines [].

Definition mem (e : str) (seen : list str) : bool := existsb (Str.eqb e) seen.

(** The loop that drops repeated entries: [seen] is the set of the entries
    met, [final] the list built. *)
Fixpoint dedup_loop (entries seen final : list str) : list str :=
  match entries with
  | [] => final
  | e :: entries' =>
      if mem e seen then dedup_loop entries' seen final
      else dedup_loop entries' (e :: seen) (final ++ [e])
  end.

Definition extract_message_entries (body pid : str) : res (list str) :=
  let entries := split_segments body pid in
  following <- attach_following body pid ;;
  Ok (dedup_loop (entries ++ following) [] []).

(** ** Message tokenizer *)

(** A message: the dictionary with the keys [date], [time], [sender] and
    [body]. *)
Record message : Type := Message {
  date : str;
  time : str;
  sender : str;
  body : str
}.

Definition LF : ascii := "010"%char.

Definition append_msg (msgs : list message) (curr : option message)
  : list message :=
  match curr with
  | Some c => msgs ++ [c]
  | None => msgs
  end.

(** The loop over the lines of the transcript: [curr] is the open message,
    if any.  The message left open after the last line is appended. *)
Fixpoint tokenize_loop (lines : list str) (msgs : list message)
    (curr : option message) : list message :=
  match lines with
  | [] => append_msg msgs curr
  | line :: lines' =>
      match match_ HEADER_RE line with
      | Some h =>
          tokenize_loop lines' (append_msg msgs curr)
            (Some (Message (group 1 h) (group 2 h) (group 3 h) (group 4 h)))
      | None =>
          tokenize_loop lines' msgs
            (match curr with
             | Some c =>
                 Some (Message (date c) (time c) (sender c)
                         (body c ++ LF :: line))
             | None => None
             end)
      end
  end.

Definition tokenize (content : str) : list message :=
  tokenize_loop (Str.splitlines content) [] None.

(** ** Assembly *)

(** A record: the dictionary appended to [rows]. *)
Record row : Type := Row {
  Chat : str;
  Date : str;
  Time : str;
  Sender : str;
  PID : str;
  Year : str;
  Variant : str;
  Condition : str;
  Price : Z;
  Currency : str;
  Raw_Line : str;
  Remark : str
}.

(** What the logger is called with. *)
Inductive log_line : Type :=
| Log_processing (chat_name : str) (messages : nat)
| Log_found (matches_found : nat) (chat_name : str)
| Log_error (e : exn)
| Log_traceback (e : exn)
| Log_file (name : str)
| Log_matches (n : nat).

(** The mutable state of the processing of one file: the list [rows] and
    what the logger has received. *)
Record state : Type := State {
  rows : list row;
  logged : list log_line
}.

(** A statement: it changes the state and returns or raises; the state
    reached when it raises is kept. *)
Definition M (A : Type) : Type := state -> res A * state.

Definition ret {A : Type} (a : A) : M A := fun s => (Ok a, s).

Definition bindM {A B : Type} (m : M A) (f : A -> M B) : M B :=
  fun s =>
    match m s with
    | (Ok a, s') => f a s'
    | (Raise e, s') => (Raise e, s')
    end.

Notation "x <~ m ;; k" := (bindM m (fun x => k))
  (at level 61, m at next level, right associativity).

Definition lift {A : Type} (r : res A) : M A := fun s => (r, s).

(** [rows.append(r)] *)
Definition append_row (r : row) : M unit :=
  fun s => (Ok tt, State (rows s ++ [r]) (logged s)).

(** [if logger: logger(l)] *)
Definition call_logger (logger : bool) (l : log_line) : M unit :=
  fun s =>
    if logger then (Ok tt, State (rows s) (logged s ++ [l])) else (Ok tt, s).

(** [try: body except Exception as e: handler] *)
Definition try_except (body : M unit) (handler : exn -> M unit) : M unit :=
  fun s =>
    match body s with
    | (Ok u, s') => (Ok u, s')
    | (Raise e, s') => handler e s'
    end.

(** [re.search(r'PHOTO|omitted|attached:', raw, re.IGNORECASE)] as a
    condition. *)
Definition is_noise (raw : str) : bool := found (search NOISE_RE raw).

(** The loop [for raw in raws]; it returns [matches_found]. *)
Fixpoint raws_loop (chat_name pid : str) (m : message) (raws : list str)
    (matches_found : nat) : M nat :=
  match raws with
  | [] => ret matches_found
  | raw :: raws' =>
      if is_noise raw then raws_loop chat_name pid m raws' matches_found
      else
        let year := parse_year raw in
        let variant := parse_variant raw in
        let cond := parse_condition raw in
        price <~ lift (parse_price raw) ;;
        let currency := parse_currency raw in
        _ <~ append_row
               (Row chat_name (date m) (time m) (sender m) (Str.upper pid)
                    year variant cond price currency raw []) ;;
        raws_loop chat_name pid m raws' (S matches_found)
  end.

(** The loop [for m in msgs]. *)
Fixpoint msgs_loop (chat_name pid : str) (msgs : list message)
    (matches_found : nat) : M nat :=
  match msgs with
  | [] => ret matches_found
  | m :: msgs' =>
      if negb (Str.contains (Str.lower pid) (Str.lower (body m)))
      then msgs_loop chat_name pid msgs' matches_found
      else
        raws <~ lift (extract_message_entries (body m) pid) ;;
        n <~ raws_loop chat_name pid m raws matches_found ;;
        msgs_loop chat_name pid msgs' n
  end.

(** The body of [process_chat_file]: [chat_name] is [path.stem], [file] is
    what opening and reading [path] gives, [logger] tells whether a logger
    was passed. *)
Definition process_chat_file_body (chat_name : str) (file : res str)
    (pid : str) (logger : bool) : M unit :=
  try_except
    (content <~ lift file ;;
     let msgs := tokenize content in
     _ <~ call_logger logger (Log_processing chat_name (length msgs)) ;;
     n <~ msgs_loop chat_name pid msgs 0 ;;
     call_logger logger (Log_found n chat_name))
    (fun e =>
       _ <~ call_logger logger (Log_error e) ;;
       call_logger logger (Log_traceback e)).

(** [process_chat_file(path, pid, logger)], called when the logger has
    received [log]: the outcome of the call, which is the list [rows] when
    it returns, and what the logger has received at the end. *)
Definition process_chat_file (chat_name : str) (file : res str)
    (pid : str) (logger : bool) (log : list log_line)
  : res (list row) * list log_line :=
  match process_chat_file_body chat_name file pid logger (State [] log) with
  | (Ok _, s) => (Ok (rows s), logged s)
  | (Raise e, s) => (Raise e, logged s)
  end.

(** A transcript of the chats folder: [txt_file.name], [txt_file.stem] and
    what opening and reading it gives. *)
Record chat_file : Type := ChatFile {
  name : str;
  stem : str;
  contents : res str
}.

(** The loop of [extraction_thread] over the transcripts, with [self.log]
    as the logger. *)
Fixpoint extraction_loop (txt_files : list chat_file) (pid : str)
    (all_entries : list row) (log : list log_line)
  : res (list row) * list log_line :=
  match txt_files with
  | [] => (Ok all_entries, log)
  | txt_file :: txt_files' =>
      match process_chat_file (stem txt_file) (contents txt_file) pid
              true (log ++ [Log_file (name txt_file)]) with
      | (Ok entries, log') =>
          extraction_loop txt_files' pid (all_entries ++ entries)
            (log' ++ [Log_matches (length entries)])
      | (Raise e, log') => (Raise e, log')
      end
  end.

(** * Vocabulary of the statements *)

(** The character before the position reached after reading [s], when
    [prev] is the character before [s]. *)
Definition prev_after (prev : option ascii) (s : str) : option ascii :=
  fold_left (fun _ c => Some c) s prev.

(** [Matches r prev s1 s2 m m']: the pattern [r] matches the text [s1],
    which comes after the character [prev] and before the text [s2]; the
    groups captured go from [m] to [m']. *)
Inductive Matches : regex -> option ascii -> str -> str ->
                    captures -> captures -> Prop :=
| M_Eps prev s2 m : Matches Eps prev [] s2 m m
| M_Set p prev c s2 m : p c = true -> Matches (Set_ p) prev [c] s2 m m
| M_Cat r1 r2 prev s1 s1' s2 m m1 m2 :
    Matches r1 prev s1 (s1' ++ s2) m m1 ->
    Matches r2 (prev_after prev s1) s1' s2 m1 m2 ->
    Matches (Cat r1 r2) prev (s1 ++ s1') s2 m m2
| M_AltL r1 r2 prev s1 s2 m m' :
    Matches r1 prev s1 s2 m m' -> Matches (Alt r1 r2) prev s1 s2 m m'
| M_AltR r1 r2 prev s1 s2 m m' :
    Matches r2 prev s1 s2 m m' -> Matches (Alt r1 r2) prev s1 s2 m m'
| M_Rep greedy lo hi p prev s1 s2 m :
    forallb p s1 = true -> lo <= length s1 ->
    (forall h, hi = Some h -> length s1 <= h) ->
    Matches (Rep greedy lo hi p) prev s1 s2 m m
| M_Group n r prev s1 s2 m m' :
    Matches r prev s1 s2 m m' ->
    Matches (Group n r) prev s1 s2 m ((n, s1) :: m')
| M_Bound prev s2 m : boundary prev s2 = true -> Matches Bound prev [] s2 m m
| M_Bos s2 m : Matches Bos None [] s2 m m
| M_Eos prev s2 m : at_end s2 = true -> Matches Eos prev [] s2 m m.

(** The pattern [r] matches somewhere in [s]. *)
Definition Occurs (r : regex) (s : str) : Prop :=
  exists pre s1 s2 m,
    s = pre ++ s1 ++ s2 /\ Matches r (prev_after None pre) s1 s2 [] m.

(** [w] is a part of [s]. *)
Definition Substring (w s : str) : Prop :=
  exists pre post, s = pre ++ w ++ post.

(** [w] is a part of [s] up to case. *)
Definition Substring_i (w s : str) : Prop :=
  exists pre mid post, s = pre ++ mid ++ post /\ Str.lower mid = Str.lower w.

(** [w] is, up to case, a part of [s] with a word boundary on each side. *)
Definition Word_i (w s : str) : Prop :=
  exists pre mid post,
    s = pre ++ mid ++ post /\ Str.lower mid = Str.lower w /\
    boundary (prev_after None pre) (mid ++ post) = true /\
    boundary (prev_after None (pre ++ mid)) post = true.

(** The length [n] is allowed by the upper bound [hi] of a repetition. *)
Definition within (hi : option nat) (n : nat) : Prop :=
  forall h, hi = Some h -> n <= h.

(** A body after the lines [ls] have been appended to it. *)
Definition add_lines (b : str) (ls : list str) : str :=
  fold_left (fun acc l => acc ++ LF :: l) ls b.

(** An entry either contains the identifier as a whole word, or joins a
    line that does to a following line. *)
Definition Entry_of (pid e : str) : Prop :=
  Word_i pid e \/
  exists line follow_line, Word_i pid line /\ e = combined line follow_line.

(** The row comes from the entry [Raw_Line r] of the message [m]. *)
Definition Row_of (pid : str) (m : message) (r : row) : Prop :=
  exists es,
    extract_message_entries (body m) pid = Ok es /\
    In (Raw_Line r) es /\ is_noise (Raw_Line r) = false.

(** The continuation that ends an attempt. *)
Definition accept : option ascii -> str -> captures -> option captures :=
  fun _ _ m => Some m.

(** The end of the header pattern: the fourth group and the end of the
    line. *)
Definition HEADER_BODY : regex := Cat (Group 4 (star dot)) Eos.

(** The sender and what follows it in the header pattern. *)
Definition HEADER_SENDER : regex :=
  Cat (Group 3 (plus_lazy (none_of ":")))
      (Cat (chr ":") (Cat (star space) HEADER_BODY)).

(** ** Vocabulary of the tokenizer *)

(** The line is a header line. *)
Definition is_header (line : str) : bool := found (match_ HEADER_RE line).

(** The [n]-th field the header pattern captures in a header line. *)
Definition header_field (n : nat) (line : str) : str :=
  match match_ HEADER_RE line with
  | Some h => group n h
  | None => []
  end.

(** A header line with the lines that follow it up to the next header
    line. *)
Definition block : Type := (str * list str)%type.

Definition block_lines (b : block) : list str := fst b :: snd b.

Definition Block (b : block) : Prop :=
  is_header (fst b) = true /\ Forall (fun l => is_header l = false) (snd b).

(** The message of a block: the body is the text after the header, then
    the continuation lines, joined by line feeds. *)
Definition block_message (b : block) : message :=
  Message (header_field 1 (fst b)) (header_field 2 (fst b))
          (header_field 3 (fst b))
          (Str.join_nl (header_field 4 (fst b) :: snd b)).

(** ** Forward attachment, as the specification words it *)

(** The line alone yields a non-zero price or a non-empty year. *)
Definition self_sufficient (line : str) : res bool :=
  p <- parse_price line ;;
  Ok ((0 <? p)%Z || nonempty (parse_year line)).

(** The scanned line yields a non-empty year or a non-zero price. *)
Definition yields (follow_line : str) : res bool :=
  if nonempty (parse_year follow_line) then Ok true
  else p <- parse_price follow_line ;; Ok (0 <? p)%Z.

(** The lines scanned: those before the first line that starts another
    item. *)
Fixpoint scanned (pid : str) (window : list str) : list str :=
  match window with
  | [] => []
  | l :: window' =>
      if starts_other_item pid l then [] else l :: scanned pid window'
  end.

(** The scanned lines that yield a year or a price, in order. *)
Fixpoint yielding (ls : list str) : res (list str) :=
  match ls with
  | [] => Ok []
  | l :: ls' =>
      b <- yields l ;;
      kept <- yielding ls' ;;
      Ok (if b then l :: kept else kept)
  end.

(** The entries of one line that contains the identifier, given the
    non-empty lines that follow it. *)
Definition attach_line (pid line : str) (following : list str)
  : res (list str) :=
  b <- self_sufficient line ;;
  if b then Ok []
  else
    kept <- yielding (scanned pid (firstn 5 following)) ;;
    Ok (map (combined line) kept).

(** Forward attachment over the non-empty trimmed lines of a body. *)
Fixpoint attach_spec (pid : str) (lines : list str) : res (list str) :=
  match lines with
  | [] => Ok []
  | line :: following =>
      here <- (if has_pid pid line then attach_line pid line following
               else Ok []) ;;
      later <- attach_spec pid following ;;
      Ok (here ++ later)
  end.

(** ** Forward attachment, by the lines of the body *)

(** The line has the shape of a reference code and does not contain the
    identifier: another item starts there. *)
Definition Starts_other_item (pid l : str) : Prop :=
  Occurs REF_CODE_RE l /\ ~ Word_i pid l.

(** The line yields a non-empty year or a non-zero price. *)
Definition Yields (l : str) : Prop :=
  parse_year l <> [] \/ exists p, parse_price l = Ok p /\ p <> 0%Z.

(** ** Ordered rules, as the specification words them *)

(** The first element of a list, in order, for which [f] gives a result;
    [d] when there is none. *)
Fixpoint first_some {X A : Type} (f : X -> option A) (xs : list X) (d : A) : A :=
  match xs with
  | [] => d
  | x :: xs' =>
      match f x with
      | Some a => a
      | None => first_some f xs' d
      end
  end.

(** A rule of an extractor: a pattern, and the value computed from the
    first group of its match. *)
Record rule (A : Type) : Type := Rule {
  rule_re : regex;
  rule_value : str -> A
}.

(** The value of a rule on a text, when its pattern matches. *)
Definition apply_rule {A : Type} (t : str) (r : rule A) : option A :=
  match search (rule_re r) t with
  | Some m => Some (rule_value r (group 1 m))
  | None => None
  end.

(** The text the price rules read: commas removed, lower case. *)
Definition price_text (text : str) : str := Str.lower (Str.remove "," text).

Definition PRICE_RULES : list (rule (res Z)) :=
  [ Rule PRICE_DECIMAL_K (fun g => int_float_times g 1000);
    Rule PRICE_DECIMAL_M (fun g => int_float_times g 1000000);
    Rule PRICE_INT_K (fun g => Ok (Str.to_int g * 1000)%Z);
    Rule PRICE_INT_M (fun g => Ok (Str.to_int g * 1000000)%Z);
    Rule PRICE_DECIMAL_MILL (fun g => int_float_times g 1000000);
    Rule PRICE_CODE_SEP (fun g => Ok (Str.to_int g));
    Rule PRICE_CODE (fun g => Ok (Str.to_int g));
    Rule PRICE_BARE (fun g => Ok (Str.to_int g)) ].

(** A two-digit year: the twenty-first century below 50, the twentieth
    from 50 on. *)
Definition century (g : str) : str :=
  if (Str.to_int g <? 50)%Z then txt "20" ++ format_02d (Str.to_int g)
  else txt "19" ++ format_02d (Str.to_int g).


(** The condition phrases, in priority order, each with its label. *)
Definition CONDITIONS : list (list string * string) :=
  [ (["like new"], "Like New");
    (["used"], "Used");
    (["full set"; "fullset"], "Full Set");
    (["mint"], "Mint");
    (["new"], "New");
    (["only watch"], "Only Watch") ]%string.

(** One of the phrases is a part of the text. *)
Definition Has_phrase (ws : list string) (t : str) : Prop :=
  exists w, In w ws /\ Substring (txt w) t.

Definition has_phrase (ws : list string) (t : str) : bool :=
  existsb (fun w => Str.contains (txt w) t) ws.

(** The label of a condition entry on a text, when one of its phrases is
    in the text. *)
Definition apply_condition (t : str) (c : list string * string) : option str :=
  if has_phrase (fst c) t then Some (txt (snd c)) else None.

(** The rule at position [i] of [xs] applies, and none before it does. *)
Definition First_at {X A : Type} (f : X -> option A) (xs : list X)
    (i : nat) (a : A) : Prop :=
  (exists x, nth_error xs i = Some x /\ f x = Some a) /\
  forall j x, j < i -> nth_error xs j = Some x -> f x = None.

(** The text contains one of the noise markers, up to case. *)
Definition Noise (raw : str) : Prop :=
  Substring_i (txt "PHOTO") raw \/ Substring_i (txt "omitted") raw \/
  Substring_i (txt "attached:") raw.

(** ** Vocabulary of the header line *)

(** The text after the first [c] of [s], and the text before it. *)
Fixpoint after_first (c : ascii) (s : str) : str :=
  match s with
  | [] => []
  | x :: s' => if Ascii.eqb x c then s' else after_first c s'
  end.

Fixpoint before_first (c : ascii) (s : str) : str :=
  match s with
  | [] => []
  | x :: s' => if Ascii.eqb x c then [] else x :: before_first c s'
  end.

(** The text strictly between the bracketed timestamp and the first colon
    after it, and the rest of the line after that colon. *)
Definition between_bracket_colon (line : str) : str :=
  before_first ":" (after_first "]" line).

Definition after_sender_colon (line : str) : str :=
  after_first ":" (after_first "]" line).

(** The last [n] characters. *)
Definition lastn (n : nat) (s : str) : str := skipn (length s - n) s.

(** The time ends with AM or PM, in either case. *)
Definition ends_am_pm (t : str) : bool :=
  Str.eqb (Str.lower (lastn 2 t)) (txt "am") ||
  Str.eqb (Str.lower (lastn 2 t)) (txt "pm").

(** The sender the pattern captures in the text between the bracket and
    the colon: the text without the whitespace that leads it, and its last
    character when it is all whitespace. *)
Definition trim_sender (between : str) : str :=
  match Str.lstrip between with
  | [] => lastn 1 between
  | c :: s => c :: s
  end.

(** A non-empty run of digits and slashes. *)
Definition Date_shape (d : str) : Prop :=
  d <> [] /\ forallb digit_or_slash d = true.

(** One or two digits, a colon, two digits, optionally a colon and two
    digits, optional whitespace, and two letters among A, P and M in
    either case. *)
Definition Time_shape (t : str) : Prop :=
  exists hh mm ss ws ap,
    t = hh ++ ":"%char :: mm ++ ss ++ ws ++ ap /\
    forallb digit hh = true /\ 1 <= length hh <= 2 /\
    forallb digit mm = true /\ length mm = 2 /\
    (ss = [] \/ exists d, ss = ":"%char :: d /\ forallb digit d = true /\ length d = 2) /\
    forallb space ws = true /\
    forallb (one_of "APMapm") ap = true /\ length ap = 2.

(** The pattern has no capturing group. *)
Fixpoint groupless (r : regex) : bool :=
  match r with
  | Cat r1 r2 | Alt r1 r2 => groupless r1 && groupless r2
  | Group _ _ => false
  | _ => true
  end.

(** A decimal numeral: digits, a dot, digits. *)
Definition Decimal (g : str) : Prop :=
  exists ip fp,
    g = ip ++ "."%char :: fp /\ ip <> [] /\ fp <> [] /\
    forallb digit ip = true /\ forallb digit fp = true.

(** ** Vocabulary of the further properties *)

(** A list without its repeated elements, each kept where it first
    occurs. *)
Fixpoint first_occurrences (l : list str) : list str :=
  match l with
  | [] => []
  | x :: l' => x :: filter (fun y => negb (Str.eqb y x)) (first_occurrences l')
  end.

(** The fields of the row [r] are those the loop over the entries gives to
    the entry [Raw_Line r] of the message [m] of the chat [chat_name]. *)
Definition Row_fields (chat_name pid : str) (m : message) (r : row) : Prop :=
  Chat r = chat_name /\ Date r = date m /\ Time r = time m /\
  Sender r = sender m /\ PID r = Str.upper pid /\
  Year r = parse_year (Raw_Line r) /\
  Variant r = parse_variant (Raw_Line r) /\
  Condition r = parse_condition (Raw_Line r) /\
  parse_price (Raw_Line r) = Ok (Price r) /\
  Currency r = parse_currency (Raw_Line r) /\
  Remark r = [].

(** The rows one transcript contributes. *)
Definition file_rows (pid : str) (f : chat_file) : list row :=
  match fst (process_chat_file (stem f) (contents f) pid true []) with
  | Ok rs => rs
  | Raise _ => []
  end.

(** The message was opened by a header line among [lines] and then
    received the lines [conts]. *)
Definition Opened_by (lines : list str) (m : message) : Prop :=
  exists line h conts,
    In line lines /\ incl conts lines /\ match_ HEADER_RE line = Some h /\
    m = Message (group 1 h) (group 2 h) (group 3 h)
          (add_lines (group 4 h) conts).

(** A year as a row holds it: empty, or four digits of which the first two
    are 20 or 19. *)
Definition Year_shape (y : str) : Prop :=
  y = [] \/
  exists a b,
    digit a = true /\ digit b = true /\
    (y = ["2"; "0"; a; b]%char \/ y = ["1"; "9"; a; b]%char).

(** A non-empty run of digits. *)
Definition Digits (g : str) : Prop := g <> [] /\ forallb digit g = true.

(** The variants [parse_variant] can return. *)
Definition VARIANT_LABELS : list string :=
  ["BLUE"; "BLACK"; "GREEN"; "WHITE"; "RED"; "GREY"; "JUB"; "OYS"; "RG";
   "TI"; "WG"]%string.

(** The currencies [parse_currency] can return. *)
Definition CURRENCY_CODES : list string :=
  ["USDT"; "USD"; "EUR"; "CHF"; "GBP"; "HKD"]%string.

(** The text has no line boundary in it. *)
Definition one_line (l : str) : bool :=
  forallb (fun c => negb (Char.is_linebreak c)) l.

(** The non-blank lines among [ls], trimmed. *)
Definition nonblank (ls : list str) : list str :=
  map Str.strip (filter (fun l => nonempty (Str.strip l)) ls).

(** [s.replace(old, new)] for one-character [old] and [new]. *)
Definition replace_char (old new : ascii) (s : str) : str :=
  map (fun c => if Ascii.eqb c old then new else c) s.

(** [safe_pid] of [extraction_thread]: the identifier with slashes and
    backslashes replaced by underscores. *)
Definition safe_pid (pid : str) : str :=
  replace_char "092" "_" (replace_char "/" "_" pid).

(** The character is a slash or a backslash. *)
Definition is_separator (c : ascii) : bool :=
  Ascii.eqb c "/" || Ascii.eqb c "092".

(** The pattern has no anchor: neither a word boundary nor the start or
    the end of the text. *)
Fixpoint anchor_free (r : regex) : bool :=
  match r with
  | Cat r1 r2 | Alt r1 r2 => anchor_free r1 && anchor_free r2
  | Group _ r1 => anchor_free r1
  | Bound | Bos | Eos => false
  | _ => true
  end.

(** The rows of one entry of a message: none for a noise entry, one
    otherwise. *)
Definition entry_rows (chat_name pid : str) (m : message) (raw : str)
  : list row :=
  if is_noise raw then []
  else
    match parse_price raw with
    | Ok price =>
        [Row chat_name (date m) (time m) (sender m) (Str.upper pid)
             (parse_year raw) (parse_variant raw) (parse_condition raw)
             price (parse_currency raw) raw []]
    | Raise _ => []
    end.

(** The rows of one message: none when its body does not contain the
    identifier up to case, else those of its entries, in order. *)
Definition message_rows (chat_name pid : str) (m : message) : list row :=
  if Str.contains (Str.lower pid) (Str.lower (body m)) then
    match extract_message_entries (body m) pid with
    | Ok es => flat_map (entry_rows chat_name pid m) es
    | Raise _ => []
    end
  else [].

(** * The matcher and the patterns' languages *)

Lemma prev_after_app prev s t :
  prev_after prev (s ++ t) = prev_after (prev_after prev s) t.
Proof. unfold prev_after. apply fold_left_app. Qed.

Lemma prev_after_cons prev c s :
  prev_after prev (c :: s) = prev_after (Some c) s.
Proof. reflexivity. Qed.

Lemma firstn_length_diff (s1 s2 : str) :
  firstn (length (s1 ++ s2) - length s2) (s1 ++ s2) = s1.
Proof.
  rewrite length_app.
  replace (length s1 + length s2 - length s2) with (length s1 + 0) by lia.
  rewrite firstn_app_2. simpl. apply app_nil_r.
Qed.


Lemma within_pred hi n :
  may_repeat hi = true -> within (option_map pred hi) n -> within hi (S n).
Proof.
  intros Hm Hw h ->. destruct h as [|h]; [discriminate|].
  specialize (Hw h eq_refl). lia.
Qed.

Lemma within_S hi n :
  within hi (S n) -> may_repeat hi = true /\ within (option_map pred hi) n.
Proof.
  intros Hw. destruct hi as [[|h]|]; simpl.
  - specialize (Hw 0 eq_refl). lia.
  - split; [reflexivity|]. intros h' [= <-]. specialize (Hw (S h) eq_refl). simpl. lia.
  - split; [reflexivity|]. intros h' [=].
Qed.

(** Whatever [rep] returns, the continuation returned it after a run of
    characters of the set, of an allowed length. *)
Lemma rep_sound {A} greedy p s :
  forall lo hi prev (k : option ascii -> str -> option A) a,
    rep greedy p lo hi prev s k = Some a ->
    exists s1 s2,
      s = s1 ++ s2 /\ forallb p s1 = true /\ lo <= length s1 /\
      within hi (length s1) /\ k (prev_after prev s1) s2 = Some a.
Proof.
  induction s as [|c s' IH]; intros lo hi prev k a H; simpl in H.
  - destruct lo; [|discriminate].
    exists [], []. repeat split; auto. intros h _. simpl. lia.
  - assert (Hstop : forall x, match lo with O => k prev (c :: s') | S _ => None end = Some x ->
              exists s1 s2, c :: s' = s1 ++ s2 /\ forallb p s1 = true /\ lo <= length s1 /\
                within hi (length s1) /\ k (prev_after prev s1) s2 = Some x).
    { intros x Hx. destruct lo; [|discriminate].
      exists [], (c :: s'). repeat split; auto. intros h _. simpl. lia. }
    assert (Hmore : forall lo' x, p c = true -> may_repeat hi = true -> lo' = pred lo ->
              rep greedy p lo' (option_map pred hi) (Some c) s' k = Some x ->
              exists s1 s2, c :: s' = s1 ++ s2 /\ forallb p s1 = true /\ lo <= length s1 /\
                within hi (length s1) /\ k (prev_after prev s1) s2 = Some x).
    { intros lo' x Hp Hm -> Hx. apply IH in Hx.
      destruct Hx as (s1 & s2 & -> & Hall & Hlo & Hhi & Hk).
      exists (c :: s1), s2. simpl. rewrite Hp. repeat split; auto.
      - lia.
      - apply within_pred; assumption. }
    destruct (p c) eqn:Hp; simpl in H; [|apply Hstop; exact H].
    destruct (may_repeat hi) eqn:Hm; simpl in H; [|apply Hstop; exact H].
    destruct greedy.
    + destruct (rep true p (pred lo) (option_map pred hi) (Some c) s' k) eqn:Hr.
      * injection H as <-. eapply Hmore; eauto.
      * apply Hstop; exact H.
    + destruct lo as [|lo'].
      * destruct (k prev (c :: s')) eqn:Hk.
        -- apply Hstop. exact H.
        -- eapply Hmore; eauto.
      * eapply Hmore; eauto.
Qed.

(** If the continuation accepts after some run of characters of the set,
    of an allowed length, [rep] returns. *)
Lemma rep_complete {A} greedy p s1 :
  forall s2 lo hi prev (k : option ascii -> str -> option A) a,
    forallb p s1 = true -> lo <= length s1 -> within hi (length s1) ->
    k (prev_after prev s1) s2 = Some a ->
    exists a', rep greedy p lo hi prev (s1 ++ s2) k = Some a'.
Proof.
  induction s1 as [|c s1 IH]; intros s2 lo hi prev k a Hall Hlo Hhi Hk; simpl in *.
  - assert (lo = 0) by lia. subst lo.
    destruct s2 as [|d s2]; simpl; [eauto|].
    destruct (p d && may_repeat hi).
    + destruct greedy.
      * destruct (rep true p 0 (option_map pred hi) (Some d) s2 k); eauto.
      * rewrite Hk. eauto.
    + eauto.
  - apply andb_prop in Hall. destruct Hall as [Hp Hall].
    apply within_S in Hhi. destruct Hhi as [Hm Hhi].
    rewrite Hp, Hm. simpl.
    destruct (IH s2 (pred lo) (option_map pred hi) (Some c) k a Hall ltac:(lia) Hhi Hk)
      as [a' Ha'].
    destruct greedy.
    + rewrite Ha'. eauto.
    + destruct lo as [|lo'].
      * destruct (k prev (c :: s1 ++ s2)); eauto.
      * simpl in Ha'. eauto.
Qed.

(** Soundness of the matcher: what [run] returns, the continuation returned
    after a text the pattern matches. *)
Lemma run_sound {A} r :
  forall prev s m (k : option ascii -> str -> captures -> option A) a,
    run r prev s m k = Some a ->
    exists s1 s2 m',
      s = s1 ++ s2 /\ Matches r prev s1 s2 m m' /\
      k (prev_after prev s1) s2 m' = Some a.
Proof.
  induction r; intros prev s m k a H; simpl in H.
  - exists [], s, m. repeat split; auto. constructor.
  - destruct s as [|c s']; [discriminate|].
    destruct (p c) eqn:Hp; [|discriminate].
    exists [c], s', m. repeat split; auto. constructor; assumption.
  - apply IHr1 in H. destruct H as (s1 & s2 & m1 & -> & HM1 & H).
    apply IHr2 in H. destruct H as (s1' & s2' & m2 & -> & HM2 & H).
    exists (s1 ++ s1'), s2', m2. rewrite app_assoc. repeat split; auto.
    + econstructor; eauto.
    + rewrite prev_after_app. exact H.
  - destruct (run r1 prev s m k) eqn:H1.
    + injection H as <-. apply IHr1 in H1.
      destruct H1 as (s1 & s2 & m' & -> & HM & Hk).
      exists s1, s2, m'. repeat split; auto. apply M_AltL; assumption.
    + apply IHr2 in H. destruct H as (s1 & s2 & m' & -> & HM & Hk).
      exists s1, s2, m'. repeat split; auto. apply M_AltR; assumption.
  - apply rep_sound in H. destruct H as (s1 & s2 & -> & Hall & Hlo & Hhi & Hk).
    exists s1, s2, m. repeat split; auto. constructor; assumption.
  - apply IHr in H. destruct H as (s1 & s2 & m' & -> & HM & Hk).
    rewrite firstn_length_diff in Hk.
    exists s1, s2, ((n, s1) :: m'). repeat split; auto. constructor; assumption.
  - destruct (boundary prev s) eqn:Hb; [|discriminate].
    exists [], s, m. repeat split; auto. constructor; assumption.
  - destruct prev; [discriminate|].
    exists [], s, m. repeat split; auto. constructor.
  - destruct (at_end s) eqn:He; [|discriminate].
    exists [], s, m. repeat split; auto. constructor; assumption.
Qed.

(** Completeness of the matcher: when the pattern matches a text after
    which the continuation accepts, [run] returns. *)
Lemma run_complete {A} r prev s1 s2 m m' :
  Matches r prev s1 s2 m m' ->
  forall (k : option ascii -> str -> captures -> option A) a,
    k (prev_after prev s1) s2 m' = Some a ->
    exists a', run r prev (s1 ++ s2) m k = Some a'.
Proof.
  induction 1; intros k a Hk; simpl in *.
  - eauto.
  - rewrite H. eauto.
  - rewrite prev_after_app in Hk.
    destruct (IHMatches2 k a Hk) as [a2 Ha2].
    rewrite <- app_assoc.
    eapply IHMatches1. exact Ha2.
  - destruct (IHMatches k a Hk) as [a' ->]. eauto.
  - destruct (run r1 prev (s1 ++ s2) m k); eauto.
  - eapply rep_complete; eauto.
  - eapply IHMatches. rewrite firstn_length_diff. exact Hk.
  - rewrite H. eauto.
  - eauto.
  - rewrite H. eauto.
Qed.

Lemma attempt_sound r prev s m :
  attempt r prev s = Some m ->
  exists s1 s2, s = s1 ++ s2 /\ Matches r prev s1 s2 [] m.
Proof.
  unfold attempt. intros H. apply run_sound in H.
  destruct H as (s1 & s2 & m' & -> & HM & [= <-]). eauto.
Qed.

Lemma attempt_complete r prev s1 s2 m :
  Matches r prev s1 s2 [] m -> exists m', attempt r prev (s1 ++ s2) = Some m'.
Proof.
  intros H. unfold attempt. eapply run_complete; eauto.
Qed.

Lemma search_from_sound r s :
  forall prev m,
    search_from r prev s = Some m ->
    exists pre s1 s2,
      s = pre ++ s1 ++ s2 /\ Matches r (prev_after prev pre) s1 s2 [] m.
Proof.
  induction s as [|c s IH]; intros prev m H; simpl in H.
  - destruct (attempt r prev []) eqn:Ha; [|discriminate].
    injection H as <-. apply attempt_sound in Ha.
    destruct Ha as (s1 & s2 & E & HM). exists [], s1, s2. auto.
  - destruct (attempt r prev (c :: s)) eqn:Ha.
    + injection H as <-. apply attempt_sound in Ha.
      destruct Ha as (s1 & s2 & E & HM). exists [], s1, s2. auto.
    + apply IH in H. destruct H as (pre & s1 & s2 & -> & HM).
      exists (c :: pre), s1, s2. auto.
Qed.

Lemma search_from_complete r pre :
  forall prev s1 s2 m,
    Matches r (prev_after prev pre) s1 s2 [] m ->
    exists m', search_from r prev (pre ++ s1 ++ s2) = Some m'.
Proof.
  induction pre as [|c pre IH]; intros prev s1 s2 m HM.
  - simpl in *. apply attempt_complete in HM. destruct HM as [m' Hm'].
    remember (s1 ++ s2) as t. destruct t; simpl; rewrite Hm'; eauto.
  - simpl. destruct (attempt r prev (c :: pre ++ s1 ++ s2)); [eauto|].
    eapply IH. exact HM.
Qed.

(** [re.search] finds a match exactly when the pattern matches
    somewhere. *)
Lemma found_search_iff r s : found (search r s) = true <-> Occurs r s.
Proof.
  unfold search, Occurs. split.
  - destruct (search_from r None s) as [m|] eqn:H; [|discriminate].
    intros _. apply search_from_sound in H.
    destruct H as (pre & s1 & s2 & E & HM). eauto 6.
  - intros (pre & s1 & s2 & m & -> & HM).
    destruct (@search_from_complete r pre None s1 s2 m HM) as [m' ->]. reflexivity.
Qed.

Lemma search_none_iff r s : search r s = None <-> ~ Occurs r s.
Proof.
  rewrite <- found_search_iff. destruct (search r s); simpl; split; intros; congruence.
Qed.

Lemma search_some_sound r s m :
  search r s = Some m ->
  exists pre s1 s2,
    s = pre ++ s1 ++ s2 /\ Matches r (prev_after None pre) s1 s2 [] m.
Proof. apply search_from_sound. Qed.

(** ** Inversion of [Matches] *)

Lemma Matches_Cat_inv r1 r2 prev s s2 m m' :
  Matches (Cat r1 r2) prev s s2 m m' ->
  exists a b m1,
    s = a ++ b /\ Matches r1 prev a (b ++ s2) m m1 /\
    Matches r2 (prev_after prev a) b s2 m1 m'.
Proof. inversion 1; subst. eauto 7. Qed.

Lemma Matches_Alt_inv r1 r2 prev s s2 m m' :
  Matches (Alt r1 r2) prev s s2 m m' ->
  Matches r1 prev s s2 m m' \/ Matches r2 prev s s2 m m'.
Proof. inversion 1; subst; auto. Qed.

Lemma Matches_Set_inv p prev s s2 m m' :
  Matches (Set_ p) prev s s2 m m' ->
  exists c, s = [c] /\ p c = true /\ m' = m.
Proof. inversion 1; subst. eauto. Qed.

Lemma Matches_Rep_inv g lo hi p prev s s2 m m' :
  Matches (Rep g lo hi p) prev s s2 m m' ->
  forallb p s = true /\ lo <= length s /\
  (forall h, hi = Some h -> length s <= h) /\ m' = m.
Proof. inversion 1; subst. auto. Qed.

Lemma Matches_Group_inv n r prev s s2 m m' :
  Matches (Group n r) prev s s2 m m' ->
  exists m1, Matches r prev s s2 m m1 /\ m' = (n, s) :: m1.
Proof. inversion 1; subst. eauto. Qed.

Lemma Matches_Bound_inv prev s s2 m m' :
  Matches Bound prev s s2 m m' ->
  s = [] /\ boundary prev s2 = true /\ m' = m.
Proof. inversion 1; subst. auto. Qed.

Lemma Matches_Bos_inv prev s s2 m m' :
  Matches Bos prev s s2 m m' -> s = [] /\ prev = None /\ m' = m.
Proof. inversion 1; subst. auto. Qed.

Lemma Matches_Eos_inv prev s s2 m m' :
  Matches Eos prev s s2 m m' -> s = [] /\ at_end s2 = true /\ m' = m.
Proof. inversion 1; subst. auto. Qed.

Lemma Matches_Eps_inv prev s s2 m m' :
  Matches Eps prev s s2 m m' -> s = [] /\ m' = m.
Proof. inversion 1; subst. auto. Qed.

(** ** Literal text *)

Lemma eqb_nocase_iff a b :
  Char.eqb_nocase a b = true <-> Char.lower a = Char.lower b.
Proof. unfold Char.eqb_nocase. apply Ascii.eqb_eq. Qed.

(** The escaped text matches, up to case, itself and nothing else. *)
Lemma Matches_escape_i w :
  forall prev s s2 m m',
    Matches (escape_i w) prev s s2 m m' <->
    Str.lower s = Str.lower w /\ m' = m.
Proof.
  unfold escape_i.
  induction w as [|c w IH]; intros prev s s2 m m'; simpl.
  - split.
    + intros H. apply Matches_Eps_inv in H. destruct H as [-> ->]. auto.
    + intros [H ->]. destruct s; [constructor|discriminate].
  - destruct w as [|d w].
    + simpl. split.
      * intros H. apply Matches_Set_inv in H. destruct H as (x & -> & Hx & ->).
        apply eqb_nocase_iff in Hx. simpl. rewrite Hx. auto.
      * intros [H ->]. destruct s as [|x [|y s]]; try discriminate.
        simpl in H. injection H as H. constructor. apply eqb_nocase_iff. auto.
    + remember (d :: w) as w'. replace (map chr_i w') with (chr_i d :: map chr_i w) by (subst; reflexivity).
      replace (chr_i d :: map chr_i w) with (map chr_i w') by (subst; reflexivity).
      split.
      * intros H. apply Matches_Cat_inv in H.
        destruct H as (a & b & m1 & -> & Ha & Hb).
        apply Matches_Set_inv in Ha. destruct Ha as (x & -> & Hx & ->).
        apply IH in Hb. destruct Hb as [Hb ->].
        apply eqb_nocase_iff in Hx. simpl. rewrite Hx, Hb. auto.
      * intros [H ->]. destruct s as [|x s]; [discriminate|].
        simpl in H. injection H as Hx Hs.
        change (x :: s) with ([x] ++ s). econstructor.
        -- constructor. apply eqb_nocase_iff. auto.
        -- apply IH. auto.
Qed.

Lemma Matches_lit_i w prev s s2 m m' :
  Matches (lit_i w) prev s s2 m m' <->
  Str.lower s = Str.lower (txt w) /\ m' = m.
Proof. apply Matches_escape_i. Qed.

(** ** The identifier as a whole word *)

Lemma Occurs_PID_RE pid p : Occurs (PID_RE pid) p <-> Word_i pid p.
Proof.
  unfold Occurs, Word_i, PID_RE. simpl cat. split.
  - intros (pre & s1 & s2 & m & -> & H).
    apply Matches_Cat_inv in H. destruct H as (a & b & m1 & -> & Ha & Hb).
    apply Matches_Bound_inv in Ha. destruct Ha as (-> & Hb1 & ->).
    apply Matches_Cat_inv in Hb. destruct Hb as (mid & c & m2 & -> & Hmid & Hc).
    apply Matches_Bound_inv in Hc. destruct Hc as (-> & Hb2 & ->).
    apply Matches_escape_i in Hmid. destruct Hmid as [Hmid ->].
    simpl in *. rewrite app_nil_r in *.
    exists pre, mid, s2. repeat split; auto.
    rewrite prev_after_app. exact Hb2.
  - intros (pre & mid & post & -> & Hmid & Hb1 & Hb2).
    exists pre, mid, post, [].
    split; [reflexivity|].
    change mid with ([] ++ mid). econstructor.
    + constructor. simpl. exact Hb1.
    + simpl. rewrite <- (app_nil_r mid). econstructor.
      * apply Matches_escape_i. split; [exact Hmid|reflexivity].
      * constructor. rewrite <- prev_after_app. exact Hb2.
Qed.

(** [has_pid] holds exactly of the texts that contain the identifier as a
    whole word, up to case. *)
Lemma has_pid_iff pid p : has_pid pid p = true <-> Word_i pid p.
Proof. unfold has_pid. rewrite found_search_iff. apply Occurs_PID_RE. Qed.

Lemma Word_i_Substring_i w s : Word_i w s -> Substring_i w s.
Proof. intros (pre & mid & post & E & H & _). exists pre, mid, post. auto. Qed.

Lemma Substring_i_app_l w s t : Substring_i w s -> Substring_i w (s ++ t).
Proof.
  intros (pre & mid & post & -> & H). exists pre, mid, (post ++ t).
  rewrite <- !app_assoc. auto.
Qed.

(** ** Noise *)

Lemma Occurs_lit_i w s : Occurs (lit_i w) s <-> Substring_i (txt w) s.
Proof.
  unfold Occurs, Substring_i. split.
  - intros (pre & s1 & s2 & m & -> & H). apply Matches_lit_i in H.
    destruct H as [H _]. eauto.
  - intros (pre & mid & post & -> & H). exists pre, mid, post, [].
    split; [reflexivity|]. apply Matches_lit_i. auto.
Qed.

Lemma Occurs_Alt r1 r2 s : Occurs (Alt r1 r2) s <-> Occurs r1 s \/ Occurs r2 s.
Proof.
  unfold Occurs. split.
  - intros (pre & s1 & s2 & m & -> & H). apply Matches_Alt_inv in H.
    destruct H; [left|right]; eauto 7.
  - intros [(pre & s1 & s2 & m & -> & H)|(pre & s1 & s2 & m & -> & H)];
      exists pre, s1, s2, m; split; auto; [apply M_AltL|apply M_AltR]; auto.
Qed.

(** [is_noise] holds exactly of the texts that contain one of the three
    markers, up to case. *)
Lemma is_noise_iff raw :
  is_noise raw = true <->
  Substring_i (txt "PHOTO") raw \/ Substring_i (txt "omitted") raw \/
  Substring_i (txt "attached:") raw.
Proof.
  unfold is_noise, NOISE_RE. rewrite found_search_iff. simpl alt.
  rewrite !Occurs_Alt, !Occurs_lit_i. reflexivity.
Qed.

(** ** [in] on strings *)

Lemma startswith_iff p : forall s,
  Str.startswith p s = true <-> exists post, s = p ++ post.
Proof.
  induction p as [|a p IH]; intros s; simpl.
  - split; eauto.
  - destruct s as [|b s].
    + split; [discriminate|]. intros [post H]. discriminate.
    + rewrite andb_true_iff, Ascii.eqb_eq, IH. split.
      * intros [-> [post ->]]. eauto.
      * intros [post H]. injection H as -> ->. eauto.
Qed.

Lemma contains_iff w : forall s, Str.contains w s = true <-> Substring w s.
Proof.
  unfold Substring. induction s as [|c s IH]; simpl.
  - rewrite orb_false_r, startswith_iff. split.
    + intros [post H]. exists [], post. exact H.
    + intros (pre & post & H). destruct pre; [eauto|discriminate].
  - rewrite orb_true_iff, startswith_iff, IH. split.
    + intros [[post H]|(pre & post & H)].
      * exists [], post. exact H.
      * exists (c :: pre), post. simpl. congruence.
    + intros (pre & post & H). destruct pre as [|x pre].
      * left. eauto.
      * right. injection H as -> ->. eauto.
Qed.

(** ** Where the entries come from *)

Lemma dedup_loop_In e : forall entries seen final,
  In e (dedup_loop entries seen final) -> In e final \/ In e entries.
Proof.
  induction entries as [|x entries IH]; intros seen final H; simpl in *.
  - auto.
  - destruct (mem x seen).
    + apply IH in H. tauto.
    + apply IH in H. rewrite in_app_iff in H. simpl in H. tauto.
Qed.

Lemma split_segments_In body pid e :
  In e (split_segments body pid) -> has_pid pid e = true.
Proof.
  unfold split_segments. rewrite in_flat_map.
  intros (line & _ & H). apply filter_In in H. tauto.
Qed.

Lemma attach_following_inner_In pid line lines e : forall n j results rs,
  attach_following_inner pid line lines j n results = Ok rs ->
  In e rs -> In e results \/ exists follow_line, e = combined line follow_line.
Proof.
  induction n as [|n IH]; intros j results rs H Hin; simpl in H.
  - injection H as <-. auto.
  - destruct (length lines <=? j); [injection H as <-; auto|].
    destruct (starts_other_item pid (nth j lines [])); [injection H as <-; auto|].
    destruct (nonempty (parse_year (nth j lines []))).
    + destruct (IH _ _ _ H Hin) as [H1|H1]; [|auto].
      apply in_app_iff in H1. destruct H1 as [H1|[<-|[]]]; eauto.
    + destruct (parse_price (nth j lines [])) as [p|]; simpl in H; [|discriminate].
      destruct (0 <? p)%Z.
      * destruct (IH _ _ _ H Hin) as [H1|H1]; [|auto].
        apply in_app_iff in H1. destruct H1 as [H1|[<-|[]]]; eauto.
      * eapply IH; eauto.
Qed.

Lemma attach_following_outer_In pid lines e : forall rest i results rs,
  attach_following_outer pid lines i rest results = Ok rs ->
  In e rs ->
  In e results \/
  exists line follow_line,
    has_pid pid line = true /\ e = combined line follow_line.
Proof.
  induction rest as [|line rest IH]; intros i results rs H Hin; simpl in H.
  - injection H as <-. auto.
  - destruct (has_pid pid line) eqn:Hpid; [|eapply IH; eauto].
    destruct (parse_price line) as [p|]; simpl in H; [|discriminate].
    destruct ((0 <? p)%Z || nonempty (parse_year line)); [eapply IH; eauto|].
    destruct (attach_following_inner pid line lines (i + 1)
                (Nat.min (i + 6) (length lines) - (i + 1)) results)
      as [results'|] eqn:Hinner; simpl in H; [|discriminate].
    destruct (IH _ _ _ H Hin) as [H1|H1]; [|auto].
    destruct (attach_following_inner_In _ _ _ _ _ _ _ Hinner H1) as [H2|[f ->]]; eauto.
Qed.


Lemma extract_message_entries_In body pid es e :
  extract_message_entries body pid = Ok es -> In e es -> Entry_of pid e.
Proof.
  unfold extract_message_entries, attach_following. intros H Hin.
  destruct (attach_following_outer pid (stripped_lines body) 0
              (stripped_lines body) []) as [following|] eqn:Ha;
    simpl in H; [|discriminate].
  injection H as <-.
  apply dedup_loop_In in Hin. destruct Hin as [[]|Hin].
  apply in_app_iff in Hin. destruct Hin as [Hin|Hin].
  - left. apply has_pid_iff. eapply split_segments_In; eauto.
  - destruct (attach_following_outer_In _ _ _ _ _ _ Ha Hin)
      as [[]|(line & f & Hp & ->)].
    right. exists line, f. split; [apply has_pid_iff; assumption|reflexivity].
Qed.

Lemma Entry_of_Substring_i pid e : Entry_of pid e -> Substring_i pid e.
Proof.
  intros [H|(line & f & H & ->)].
  - apply Word_i_Substring_i; assumption.
  - unfold combined. apply Substring_i_app_l, Word_i_Substring_i; assumption.
Qed.

(** ** Where the rows come from *)


Lemma raws_loop_rows chat_name pid m : forall raws n s,
  exists new,
    rows (snd (raws_loop chat_name pid m raws n s)) = rows s ++ new /\
    logged (snd (raws_loop chat_name pid m raws n s)) = logged s /\
    forall r, In r new -> In (Raw_Line r) raws /\ is_noise (Raw_Line r) = false.
Proof.
  induction raws as [|raw raws IH]; intros n s; simpl.
  - exists []. rewrite app_nil_r.
    split; [reflexivity|]. split; [reflexivity|]. intros r [].
  - destruct (is_noise raw) eqn:Hn.
    + destruct (IH n s) as (new & E & L & H). exists new.
      split; [exact E|]. split; [exact L|].
      intros r Hr. destruct (H r Hr). split; [right|]; assumption.
    + unfold bindM, lift. destruct (parse_price raw) as [p|]; simpl.
      * match goal with |- context [raws_loop _ _ _ _ ?n' ?s'] =>
          destruct (IH n' s') as (new & E & L & H) end.
        simpl in E, L. eexists (_ :: new). rewrite E, L, <- app_assoc.
        split; [reflexivity|]. split; [reflexivity|].
        intros r [<-|Hr]; simpl; [auto|].
        destruct (H r Hr). split; [right|]; assumption.
      * exists []. rewrite app_nil_r.
    split; [reflexivity|]. split; [reflexivity|]. intros r [].
Qed.

Lemma msgs_loop_rows chat_name pid : forall msgs n s,
  exists new,
    rows (snd (msgs_loop chat_name pid msgs n s)) = rows s ++ new /\
    logged (snd (msgs_loop chat_name pid msgs n s)) = logged s /\
    forall r, In r new -> exists m, In m msgs /\ Row_of pid m r.
Proof.
  induction msgs as [|m msgs IH]; intros n s; simpl.
  - exists []. rewrite app_nil_r.
    split; [reflexivity|]. split; [reflexivity|]. intros r [].
  - destruct (negb (Str.contains (Str.lower pid) (Str.lower (body m)))).
    + destruct (IH n s) as (new & E & L & H). exists new.
      split; [exact E|]. split; [exact L|].
      intros r Hr. destruct (H r Hr) as (m' & Hm' & Hrow). eauto.
    + unfold bindM at 1, lift.
      destruct (extract_message_entries (body m) pid) as [es|] eqn:He; simpl.
      * unfold bindM.
        destruct (raws_loop_rows chat_name pid m es n s) as (new1 & E1 & L1 & H1).
        destruct (raws_loop chat_name pid m es n s) as [[n'|e] s1]; simpl in *.
        -- destruct (IH n' s1) as (new2 & E2 & L2 & H2).
           exists (new1 ++ new2). rewrite E2, E1, L2, L1, app_assoc.
           split; [reflexivity|]. split; [reflexivity|].
           intros r Hr. apply in_app_iff in Hr. destruct Hr as [Hr|Hr].
           ++ exists m. split; [auto|]. exists es. destruct (H1 r Hr). auto.
           ++ destruct (H2 r Hr) as (m' & Hm' & Hrow). eauto.
        -- exists new1. split; [exact E1|]. split; [exact L1|].
           intros r Hr. exists m. split; [auto|]. exists es.
           destruct (H1 r Hr). auto.
      * exists []. rewrite app_nil_r.
    split; [reflexivity|]. split; [reflexivity|]. intros r [].
Qed.

(** [process_chat_file] returns, whatever happens in its body, and each
    row it returns comes from an entry of a message of the transcript. *)
Lemma process_chat_file_rows chat_name file pid logger log :
  exists rs,
    fst (process_chat_file chat_name file pid logger log) = Ok rs /\
    forall r, In r rs ->
      exists content m,
        file = Ok content /\ In m (tokenize content) /\ Row_of pid m r.
Proof.
  unfold process_chat_file, process_chat_file_body, try_except, bindM, lift.
  destruct file as [content|e]; simpl.
  - destruct (msgs_loop_rows chat_name pid (tokenize content) 0
                (snd (call_logger logger
                        (Log_processing chat_name (length (tokenize content)))
                        (State [] log))))
      as (new & E & L & H).
    assert (Hr0 : rows (snd (call_logger logger
                        (Log_processing chat_name (length (tokenize content)))
                        (State [] log))) = []) by (destruct logger; reflexivity).
    rewrite Hr0 in E. simpl in E.
    destruct logger; simpl in *.
    + destruct (msgs_loop chat_name pid (tokenize content) 0 _) as [[n|e] s1];
        simpl in *; subst; eexists; (split; [reflexivity|]);
        intros r Hr; destruct (H r Hr) as (m & Hm & Hrow); eauto.
    + destruct (msgs_loop chat_name pid (tokenize content) 0 _) as [[n|e] s1];
        simpl in *; subst; eexists; (split; [reflexivity|]);
        intros r Hr; destruct (H r Hr) as (m & Hm & Hrow); eauto.
  - destruct logger; simpl; exists []; split; auto; intros r [].
Qed.

(** ** The tokenizer *)


Lemma add_lines_app a : forall ls b, a ++ add_lines b ls = add_lines (a ++ b) ls.
Proof.
  unfold add_lines. induction ls as [|y ls IH]; intros b; simpl.
  - reflexivity.
  - rewrite IH, <- app_assoc. reflexivity.
Qed.

Lemma join_nl_cons ls : forall l, Str.join_nl (l :: ls) = add_lines l ls.
Proof.
  induction ls as [|x ls IH]; intros l.
  - reflexivity.
  - change (Str.join_nl (l :: x :: ls)) with (l ++ [LF] ++ Str.join_nl (x :: ls)).
    rewrite IH, app_assoc, add_lines_app, <- app_assoc. reflexivity.
Qed.

Lemma tokenize_loop_preamble rest msgs : forall pre,
  Forall (fun l => is_header l = false) pre ->
  tokenize_loop (pre ++ rest) msgs None = tokenize_loop rest msgs None.
Proof.
  induction 1 as [|l pre Hl _ IH]; simpl; [reflexivity|].
  unfold is_header in Hl. destruct (match_ HEADER_RE l); [discriminate|]. exact IH.
Qed.

Lemma tokenize_loop_continuation rest msgs : forall conts c,
  Forall (fun l => is_header l = false) conts ->
  tokenize_loop (conts ++ rest) msgs (Some c) =
  tokenize_loop rest msgs
    (Some (Message (date c) (time c) (sender c) (add_lines (body c) conts))).
Proof.
  intros conts c H. revert c.
  induction H as [|l conts Hl _ IH]; intros c; simpl.
  - destruct c; reflexivity.
  - unfold is_header in Hl. destruct (match_ HEADER_RE l); [discriminate|].
    rewrite IH. reflexivity.
Qed.

Lemma tokenize_loop_blocks : forall blocks msgs curr,
  Forall Block blocks ->
  tokenize_loop (flat_map block_lines blocks) msgs curr =
  append_msg msgs curr ++ map block_message blocks.
Proof.
  induction blocks as [|[h conts] blocks IH]; intros msgs curr H; simpl.
  - rewrite app_nil_r. reflexivity.
  - inversion H as [|? ? [Hh Hc] Hbs]; subst. simpl in Hh, Hc.
    unfold block_message, header_field. simpl fst. simpl snd.
    unfold is_header in Hh.
    destruct (match_ HEADER_RE h) as [m|]; [|discriminate].
    rewrite tokenize_loop_continuation by assumption.
    rewrite IH by assumption. cbn [append_msg date time sender body map fst snd].
    rewrite join_nl_cons, <- app_assoc. reflexivity.
Qed.

(** ** Forward attachment: the loops and the specification *)

Lemma skipn_nth_cons (lines : list str) : forall j,
  j < length lines -> skipn j lines = nth j lines [] :: skipn (S j) lines.
Proof.
  induction lines as [|l lines IH]; intros j Hj; simpl in *; [lia|].
  destruct j as [|j]; [reflexivity|]. apply IH. lia.
Qed.

Lemma attach_following_inner_spec pid line lines : forall n j results,
  j + n <= length lines ->
  attach_following_inner pid line lines j n results =
  (kept <- yielding (scanned pid (firstn n (skipn j lines))) ;;
   Ok (results ++ map (combined line) kept)).
Proof.
  induction n as [|n IH]; intros j results Hj; simpl.
  - rewrite app_nil_r. reflexivity.
  - destruct (Nat.leb_spec (length lines) j) as [Hle|Hlt]; [lia|].
    rewrite (skipn_nth_cons lines Hlt).
    assert (IH' : forall r,
      attach_following_inner pid line lines (S j) n r =
      (kept <- yielding (scanned pid (firstn n (skipn (S j) lines))) ;;
       Ok (r ++ map (combined line) kept))) by (intros r; apply IH; lia).
    remember (skipn (S j) lines) as tl. remember (nth j lines []) as fl.
    cbn [firstn scanned].
    destruct (starts_other_item pid fl).
    + simpl. rewrite app_nil_r. reflexivity.
    + cbn [yielding]. unfold yields.
      destruct (nonempty (parse_year fl)).
      * rewrite IH'. simpl.
        destruct (yielding (scanned pid (firstn n tl))); simpl;
          [rewrite <- app_assoc|]; reflexivity.
      * destruct (parse_price fl) as [p|]; simpl; [|reflexivity].
        destruct (0 <? p)%Z; rewrite IH'; simpl;
        destruct (yielding (scanned pid (firstn n tl))); simpl;
          try rewrite <- app_assoc; reflexivity.
Qed.

Lemma skipn_length_app {A} (a b : list A) : skipn (length a) (a ++ b) = b.
Proof. induction a; simpl; auto. Qed.

Lemma firstn_min_length {A} (l : list A) n :
  firstn (Nat.min n (length l)) l = firstn n l.
Proof.
  destruct (Nat.le_ge_cases n (length l)) as [H|H].
  - rewrite Nat.min_l by assumption. reflexivity.
  - rewrite Nat.min_r by assumption.
    rewrite firstn_all, firstn_all2 by assumption. reflexivity.
Qed.

Local Opaque firstn.

Lemma attach_following_outer_spec pid : forall rest done results,
  attach_following_outer pid (done ++ rest) (length done) rest results =
  (later <- attach_spec pid rest ;; Ok (results ++ later)).
Proof.
  induction rest as [|line rest IH]; intros done results; simpl.
  - rewrite app_nil_r. reflexivity.
  - assert (Hstep : forall r,
      attach_following_outer pid (done ++ line :: rest) (S (length done)) rest r =
      (later <- attach_spec pid rest ;; Ok (r ++ later))).
    { intros r. specialize (IH (done ++ [line]) r).
      rewrite <- app_assoc, length_app in IH. simpl in IH.
      rewrite Nat.add_1_r in IH. exact IH. }
    destruct (has_pid pid line).
    + unfold attach_line, self_sufficient.
      destruct (parse_price line) as [p|]; simpl; [|reflexivity].
      destruct ((0 <? p)%Z || nonempty (parse_year line)).
      * rewrite Hstep. simpl. destruct (attach_spec pid rest); reflexivity.
      * rewrite attach_following_inner_spec.
        2:{ rewrite !length_app. cbn [length]. generalize (length done) (length rest). clear. intros a r. lia. }
        replace (Nat.min (length done + 6) (length (done ++ line :: rest))
                 - (length done + 1))
          with (Nat.min 5 (length rest)).
        2:{ rewrite !length_app. cbn [length].
            generalize (length done) (length rest). clear. intros a r. lia. }
        replace (skipn (length done + 1) (done ++ line :: rest)) with rest.
        2:{ change (done ++ line :: rest) with (done ++ [line] ++ rest).
            rewrite app_assoc.
            replace (length done + 1) with (length (done ++ [line]))
              by (rewrite length_app; reflexivity).
            rewrite skipn_length_app. reflexivity. }
        rewrite firstn_min_length.
        destruct (yielding (scanned pid (firstn 5 rest))) as [kept|]; simpl;
          [|reflexivity].
        rewrite Hstep. destruct (attach_spec pid rest); simpl;
          [rewrite app_assoc|]; reflexivity.
    + rewrite Hstep. simpl. destruct (attach_spec pid rest); reflexivity.
Qed.

Local Transparent firstn.

Lemma attach_following_spec body pid :
  attach_following body pid = attach_spec pid (stripped_lines body).
Proof.
  unfold attach_following.
  pose proof (attach_following_outer_spec pid (stripped_lines body) [] []) as H.
  simpl in H. rewrite H.
  destruct (attach_spec pid (stripped_lines body)); reflexivity.
Qed.

(** ** Ordered rules *)

Lemma first_some_at {X A} (f : X -> option A) d : forall xs i a,
  First_at f xs i a -> first_some f xs d = a.
Proof.
  induction xs as [|x xs IH]; intros i a [(y & Hy & Hf) Hbefore].
  - destruct i; discriminate.
  - destruct i as [|i]; simpl in *.
    + injection Hy as ->. rewrite Hf. reflexivity.
    + rewrite (Hbefore 0 x) by (auto; lia).
      apply (IH i). split; [eauto|].
      intros j z Hj Hz. apply (Hbefore (S j) z); [lia|exact Hz].
Qed.

Lemma first_some_none {X A} (f : X -> option A) d : forall xs,
  (forall x, In x xs -> f x = None) -> first_some f xs d = d.
Proof.
  induction xs as [|x xs IH]; intros H; simpl; [reflexivity|].
  rewrite (H x) by (left; reflexivity). apply IH. intros y Hy. apply H. right. exact Hy.
Qed.

Lemma first_some_cases {X A} (f : X -> option A) d : forall xs,
  (first_some f xs d = d /\ forall x, In x xs -> f x = None) \/
  exists i, First_at f xs i (first_some f xs d).
Proof.
  induction xs as [|x xs IH]; simpl.
  - left. split; [reflexivity|]. intros x [].
  - destruct (f x) as [a|] eqn:Hf.
    + right. exists 0. split; [exists x; auto|]. intros j y Hj. lia.
    + destruct IH as [[E H]|[i [(y & Hy & Hfy) Hbefore]]].
      * left. split; [exact E|]. intros y [<-|Hy]; auto.
      * right. exists (S i). split; [exists y; auto|].
        intros [|j] z Hj Hz; simpl in Hz.
        -- injection Hz as <-. exact Hf.
        -- apply (Hbefore j z); [lia|exact Hz].
Qed.

Lemma parse_price_first_some text :
  parse_price text =
  first_some (apply_rule (price_text text)) PRICE_RULES (Ok 0%Z).
Proof.
  unfold parse_price, price_text, PRICE_RULES, first_some, apply_rule, rule_re,
    rule_value.
  repeat match goal with
         | |- context [search ?r ?t] => destruct (search r t); [reflexivity|]
         end.
  reflexivity.
Qed.


Lemma parse_condition_first_some text :
  parse_condition text =
  first_some (apply_condition (Str.lower text)) CONDITIONS [].
Proof.
  unfold parse_condition, CONDITIONS, first_some, apply_condition, has_phrase,
    existsb, fst, snd.
  rewrite !orb_false_r.
  repeat match goal with
         | |- context [Str.contains ?w ?t] =>
             destruct (Str.contains w t); simpl; [reflexivity|]
         end.
  reflexivity.
Qed.

Lemma has_phrase_iff ws t : has_phrase ws t = true <-> Has_phrase ws t.
Proof.
  unfold has_phrase, Has_phrase. rewrite existsb_exists.
  split; intros (w & Hw & H); exists w; (split; [exact Hw|]);
    apply contains_iff; exact H.
Qed.

Lemma apply_condition_none t c :
  apply_condition t c = None <-> ~ Has_phrase (fst c) t.
Proof.
  unfold apply_condition. rewrite <- has_phrase_iff.
  destruct (has_phrase (fst c) t); split; intros; congruence.
Qed.

Lemma apply_condition_some t c :
  Has_phrase (fst c) t -> apply_condition t c = Some (txt (snd c)).
Proof.
  unfold apply_condition. intros H. apply has_phrase_iff in H. rewrite H. reflexivity.
Qed.

Lemma apply_rule_none {A} t (r : rule A) :
  apply_rule t r = None <-> search (rule_re r) t = None.
Proof.
  unfold apply_rule. destruct (search (rule_re r) t); split; intros; congruence.
Qed.

(** ** The header pattern *)

Lemma rep_none {A} greedy p s1 s2 lo hi prev
    (k : option ascii -> str -> option A) :
  rep greedy p lo hi prev (s1 ++ s2) k = None ->
  forallb p s1 = true -> lo <= length s1 -> within hi (length s1) ->
  k (prev_after prev s1) s2 = None.
Proof.
  intros Hnone Hall Hlo Hhi.
  destruct (k (prev_after prev s1) s2) as [a|] eqn:Hk; [|reflexivity].
  destruct (@rep_complete _ greedy p s1 s2 lo hi prev k a Hall Hlo Hhi Hk) as [a' Ha'].
  congruence.
Qed.

Lemma within_None n : within None n.
Proof. intros h [=]. Qed.

(** The greedy star takes the longest run after which the rest of the
    pattern matches: one more character of the set, and the rest fails. *)
Lemma star_greedy_max {A} p s : forall prev (k : option ascii -> str -> option A) a,
  rep true p 0 None prev s k = Some a ->
  exists s1 s2,
    s = s1 ++ s2 /\ forallb p s1 = true /\
    k (prev_after prev s1) s2 = Some a /\
    forall c s2', s2 = c :: s2' -> p c = true -> k (Some c) s2' = None.
Proof.
  induction s as [|c s IH]; intros prev k a H; simpl in H.
  - exists [], []. repeat split; auto. intros c s2' [=].
  - destruct (p c) eqn:Hp; simpl in H.
    + destruct (rep true p 0 None (Some c) s k) as [a'|] eqn:Hr.
      * injection H as <-. apply IH in Hr.
        destruct Hr as (s1 & s2 & -> & Hall & Hk & Hmax).
        exists (c :: s1), s2. simpl. rewrite Hp. repeat split; auto.
      * exists [], (c :: s). repeat split; auto.
        intros c' s2' [= <- <-] _.
        apply (@rep_none _ true p [] s 0 None (Some c) k Hr);
          [reflexivity|simpl; lia|apply within_None].
    + exists [], (c :: s). repeat split; auto.
      intros c' s2' [= <- <-] Hc. congruence.
Qed.

(** The first part of a concatenation matches, and the rest of the pattern
    runs on. *)
Lemma run_Cat_peel {A} r1 r2 prev s m
    (k : option ascii -> str -> captures -> option A) a :
  run (Cat r1 r2) prev s m k = Some a ->
  exists s1 s2 m1,
    s = s1 ++ s2 /\ Matches r1 prev s1 s2 m m1 /\
    run r2 (prev_after prev s1) s2 m1 k = Some a.
Proof. simpl. apply run_sound. Qed.

(** The star at the head of a concatenation, with its maximality. *)
Lemma run_star_peel {A} p r2 prev s m
    (k : option ascii -> str -> captures -> option A) a :
  run (Cat (star p) r2) prev s m k = Some a ->
  exists s1 s2,
    s = s1 ++ s2 /\ forallb p s1 = true /\
    run r2 (prev_after prev s1) s2 m k = Some a /\
    forall c s2', s2 = c :: s2' -> p c = true -> run r2 (Some c) s2' m k = None.
Proof. simpl. apply star_greedy_max. Qed.




Lemma HEADER_BODY_complete prev body tail m :
  forallb dot body = true -> at_end tail = true ->
  exists a, run HEADER_BODY prev (body ++ tail) m accept = Some a.
Proof.
  intros Hb Ht.
  assert (HM : Matches HEADER_BODY prev (body ++ []) tail m ((4, body) :: m)).
  { unfold HEADER_BODY. econstructor.
    - constructor. constructor; [exact Hb|lia|apply within_None].
    - constructor. exact Ht. }
  rewrite app_nil_r in HM.
  eapply run_complete; [exact HM|reflexivity].
Qed.

Lemma HEADER_SENDER_complete prev snd ws body tail m :
  snd <> [] -> forallb (none_of ":") snd = true -> forallb space ws = true ->
  forallb dot body = true -> at_end tail = true ->
  exists a,
    run HEADER_SENDER prev (snd ++ ":"%char :: ws ++ body ++ tail) m accept = Some a.
Proof.
  intros Hne Hs Hw Hb Ht.
  assert (HM : Matches HEADER_SENDER prev (snd ++ [":"%char] ++ ws ++ body ++ [])
                 tail m ((4, body) :: (3, snd) :: m)).
  { unfold HEADER_SENDER, HEADER_BODY. econstructor.
    - constructor. constructor; [exact Hs| |apply within_None].
      destruct snd; [congruence|simpl; lia].
    - econstructor.
      + constructor. reflexivity.
      + econstructor.
        * constructor; [exact Hw|lia|apply within_None].
        * econstructor.
          -- constructor. constructor; [exact Hb|lia|apply within_None].
          -- constructor. exact Ht. }
  rewrite app_nil_r in HM.
  replace (snd ++ ":"%char :: ws ++ body ++ tail)
    with ((snd ++ [":"%char] ++ ws ++ body) ++ tail)
    by (rewrite <- !app_assoc; reflexivity).
  eapply run_complete; [exact HM|reflexivity].
Qed.

Lemma Matches_time_shape prev t s2 m m' :
  Matches (cat [between 1 2 digit; chr ":"; times 2 digit;
                opt (cat [chr ":"; times 2 digit]); star space;
                times 2 (one_of "APMapm")]) prev t s2 m m' ->
  Time_shape t /\ m' = m.
Proof.
  cbn [cat]. unfold between, times, opt, star, chr. intros H.
  apply Matches_Cat_inv in H. destruct H as (hh & r1 & m1 & -> & Hhh & H).
  apply Matches_Rep_inv in Hhh. destruct Hhh as (Hhh & Hlo & Hhi & ->).
  apply Matches_Cat_inv in H. destruct H as (c1 & r2 & m2 & -> & Hc & H).
  apply Matches_Set_inv in Hc. destruct Hc as (c & -> & Hc & ->).
  apply Ascii.eqb_eq in Hc. subst c.
  apply Matches_Cat_inv in H. destruct H as (mm & r3 & m3 & -> & Hmm & H).
  apply Matches_Rep_inv in Hmm. destruct Hmm as (Hmm & Hlo2 & Hhi2 & ->).
  apply Matches_Cat_inv in H. destruct H as (ss & r4 & m4 & -> & Hss & H).
  apply Matches_Cat_inv in H. destruct H as (ws & ap & m5 & -> & Hws & Hap).
  apply Matches_Rep_inv in Hws. destruct Hws as (Hws & _ & _ & ->).
  apply Matches_Rep_inv in Hap. destruct Hap as (Hap & Hlo3 & Hhi3 & ->).
  assert (Hss' : (ss = [] \/ exists d, ss = ":"%char :: d /\
                    forallb digit d = true /\ length d = 2) /\ m4 = m).
  { apply Matches_Alt_inv in Hss. destruct Hss as [Hss|Hss].
    - apply Matches_Cat_inv in Hss. destruct Hss as (c2 & d & m6 & -> & Hc2 & Hd).
      apply Matches_Set_inv in Hc2. destruct Hc2 as (c & -> & Hc & ->).
      apply Ascii.eqb_eq in Hc. subst c.
      apply Matches_Rep_inv in Hd. destruct Hd as (Hd & Hlo4 & Hhi4 & ->).
      split; [|reflexivity]. right. exists d. repeat split; auto.
      specialize (Hhi4 2 eq_refl). lia.
    - apply Matches_Eps_inv in Hss. destruct Hss as [-> ->]. auto. }
  destruct Hss' as [Hss' ->]. split; [|reflexivity].
  pose proof (Hhi 2 eq_refl). pose proof (Hhi2 2 eq_refl).
  pose proof (Hhi3 2 eq_refl).
  exists hh, mm, ss, ws, ap. repeat split; auto; lia.
Qed.

(** What a header line is made of. *)
Lemma HEADER_RE_sound line h :
  match_ HEADER_RE line = Some h ->
  exists date ws1 time ws2 snd ws3 body tail,
    line = "["%char :: date ++ ","%char :: ws1 ++ time ++ "]"%char :: ws2 ++
           snd ++ ":"%char :: ws3 ++ body ++ tail /\
    h = [(4, body); (3, snd); (2, time); (1, date)] /\
    Date_shape date /\ forallb space ws1 = true /\ Time_shape time /\
    forallb space ws2 = true /\
    snd <> [] /\ forallb (none_of ":") snd = true /\
    (forall c s', snd = c :: s' -> space c = true -> s' = []) /\
    forallb space ws3 = true /\ forallb dot body = true /\
    (forall c s', body = c :: s' -> space c = false) /\
    at_end tail = true.
Proof.
  unfold match_, attempt, HEADER_RE. cbn [cat]. fold accept. intros H.
  apply run_Cat_peel in H. destruct H as (x0 & l0 & m0 & -> & HM & H).
  apply Matches_Bos_inv in HM. destruct HM as (-> & _ & ->).
  apply run_Cat_peel in H. destruct H as (x1 & l1 & m1 & E1 & HM & H).
  apply Matches_Set_inv in HM. destruct HM as (c & -> & Hc & ->).
  apply Ascii.eqb_eq in Hc. subst c.
  apply run_Cat_peel in H. destruct H as (date & l2 & m2 & -> & HM & H).
  apply Matches_Group_inv in HM. destruct HM as (m2' & HM & ->).
  apply Matches_Rep_inv in HM. destruct HM as (Hdate & Hdlen & _ & ->).
  apply run_Cat_peel in H. destruct H as (x3 & l3 & m3 & -> & HM & H).
  apply Matches_Set_inv in HM. destruct HM as (c & -> & Hc & ->).
  apply Ascii.eqb_eq in Hc. subst c.
  apply run_star_peel in H. destruct H as (ws1 & l4 & -> & Hws1 & H & _).
  apply run_Cat_peel in H. destruct H as (time & l5 & m5 & -> & HM & H).
  apply Matches_Group_inv in HM. destruct HM as (m5' & HM & ->).
  apply Matches_time_shape in HM. destruct HM as [Htime ->].
  apply run_Cat_peel in H. destruct H as (x6 & l6 & m6 & -> & HM & H).
  apply Matches_Set_inv in HM. destruct HM as (c & -> & Hc & ->).
  apply Ascii.eqb_eq in Hc. subst c.
  apply run_star_peel in H. destruct H as (ws2 & l7 & -> & Hws2 & H & Hmax2).
  apply run_Cat_peel in H. destruct H as (snd & l8 & m8 & -> & HM & H).
  apply Matches_Group_inv in HM. destruct HM as (m8' & HM & ->).
  apply Matches_Rep_inv in HM. destruct HM as (Hsnd & Hslen & _ & ->).
  apply run_Cat_peel in H. destruct H as (x9 & l9 & m9 & -> & HM & H).
  apply Matches_Set_inv in HM. destruct HM as (c & -> & Hc & ->).
  apply Ascii.eqb_eq in Hc. subst c.
  apply run_star_peel in H. destruct H as (ws3 & l10 & -> & Hws3 & H & Hmax3).
  apply run_Cat_peel in H. destruct H as (body & tail & m11 & -> & HM & H).
  apply Matches_Group_inv in HM. destruct HM as (m11' & HM & ->).
  apply Matches_Rep_inv in HM. destruct HM as (Hbody & _ & _ & ->).
  simpl in H. destruct (at_end tail) eqn:Htail; [|discriminate].
  unfold accept in H. injection H as <-.
  exists date, ws1, time, ws2, snd, ws3, body, tail.
  split; [simpl in E1 |- *; rewrite E1; reflexivity|].
  split; [reflexivity|].
  split; [split; [destruct date; [simpl in Hdlen; lia|discriminate]|exact Hdate]|].
  split; [exact Hws1|]. split; [exact Htime|]. split; [exact Hws2|].
  split; [destruct snd; [simpl in Hslen; lia|discriminate]|].
  split; [exact Hsnd|].
  split.
  { intros c s' -> Hc. destruct s' as [|d s']; [reflexivity|exfalso].
    simpl in Hsnd. apply andb_prop in Hsnd. destruct Hsnd as [_ Hs'].
    destruct (@HEADER_SENDER_complete (Some c) (d :: s') ws3 body tail
                [(2, time); (1, date)] ltac:(discriminate) Hs' Hws3 Hbody Htail)
      as [a Ha].
    assert (Hn : Some a = None)
      by (rewrite <- Ha;
          exact (Hmax2 c ((d :: s') ++ ":"%char :: ws3 ++ body ++ tail)
                   eq_refl Hc)).
    discriminate. }
  split; [exact Hws3|]. split; [exact Hbody|]. split; [|exact Htail].
  intros c s' -> . destruct (space c) eqn:Hc; [exfalso|reflexivity].
  simpl in Hbody. apply andb_prop in Hbody. destruct Hbody as [_ Hs'].
  destruct (@HEADER_BODY_complete (Some c) s' tail
              [(3, snd); (2, time); (1, date)] Hs' Htail) as [a Ha].
  assert (Hn : Some a = None)
    by (rewrite <- Ha; exact (Hmax3 c (s' ++ tail) eq_refl Hc)).
  discriminate.
Qed.

(** ** The fields of a header line *)

Lemma after_first_app c pre post :
  forallb (fun x => negb (Ascii.eqb x c)) pre = true ->
  after_first c (pre ++ c :: post) = post.
Proof.
  induction pre as [|x pre IH]; simpl.
  - rewrite Ascii.eqb_refl. reflexivity.
  - intros H. apply andb_prop in H. destruct H as [Hx H].
    apply negb_true_iff in Hx. rewrite Hx. apply IH. exact H.
Qed.

Lemma before_first_app c pre post :
  forallb (fun x => negb (Ascii.eqb x c)) pre = true ->
  before_first c (pre ++ c :: post) = pre.
Proof.
  induction pre as [|x pre IH]; simpl.
  - rewrite Ascii.eqb_refl. reflexivity.
  - intros H. apply andb_prop in H. destruct H as [Hx H].
    apply negb_true_iff in Hx. rewrite Hx. f_equal. apply IH. exact H.
Qed.

Lemma forallb_impl {A} (p q : A -> bool) (l : list A) :
  (forall x, p x = true -> q x = true) ->
  forallb p l = true -> forallb q l = true.
Proof.
  intros Hpq. induction l as [|x l IH]; simpl; [reflexivity|].
  intros H. apply andb_prop in H. destruct H as [Hx H].
  rewrite (Hpq x Hx), IH; auto.
Qed.

(** A character of a set is not [c] when [c] is not in the set. *)
Lemma not_in_set (p : ascii -> bool) c :
  p c = false -> forall x, p x = true -> negb (Ascii.eqb x c) = true.
Proof.
  intros Hc x Hx. apply negb_true_iff, Ascii.eqb_neq. intros ->. congruence.
Qed.

Lemma Time_shape_without c t :
  digit c = false -> space c = false -> one_of "APMapm" c = false ->
  Ascii.eqb ":" c = false ->
  Time_shape t -> forallb (fun x => negb (Ascii.eqb x c)) t = true.
Proof.
  intros Hd Hs Ha Hc
    (hh & mm & ss & ws & ap & -> & Hhh & _ & Hmm & _ & Hss & Hws & Hap & _).
  assert (Hcolon : negb (Ascii.eqb ":" c) = true) by (rewrite Hc; reflexivity).
  assert (Hdig : forall l, forallb digit l = true ->
                   forall x, In x l -> negb (Ascii.eqb x c) = true).
  { intros l Hl x Hx. apply (not_in_set digit c Hd).
    apply (proj1 (forallb_forall digit l) Hl x Hx). }
  apply forallb_forall. intros x Hx.
  apply in_app_iff in Hx. destruct Hx as [Hx|[<-|Hx]];
    [apply (Hdig hh Hhh x Hx)|exact Hcolon|].
  apply in_app_iff in Hx. destruct Hx as [Hx|Hx]; [apply (Hdig mm Hmm x Hx)|].
  apply in_app_iff in Hx. destruct Hx as [Hx|Hx].
  - destruct Hss as [->|(d & -> & Hd' & _)]; [destruct Hx|].
    destruct Hx as [<-|Hx]; [exact Hcolon|apply (Hdig d Hd' x Hx)].
  - apply in_app_iff in Hx. destruct Hx as [Hx|Hx].
    + apply (not_in_set space c Hs).
      apply (proj1 (forallb_forall space ws) Hws x Hx).
    + apply (not_in_set (one_of "APMapm") c Ha).
      apply (proj1 (forallb_forall (one_of "APMapm") ap) Hap x Hx).
Qed.

Lemma lstrip_app_space ws s :
  forallb space ws = true -> Str.lstrip (ws ++ s) = Str.lstrip s.
Proof.
  induction ws as [|c ws IH]; simpl; [reflexivity|].
  intros H. apply andb_prop in H. destruct H as [Hc H].
  unfold space in Hc. rewrite Hc. apply IH. exact H.
Qed.

Lemma lastn_1_app (s : str) c : lastn 1 (s ++ [c]) = [c].
Proof.
  unfold lastn. rewrite length_app. simpl.
  replace (length s + 1 - 1) with (length s) by lia.
  apply skipn_length_app.
Qed.

Lemma trim_sender_spec ws snd :
  forallb space ws = true -> snd <> [] ->
  (forall c s', snd = c :: s' -> space c = true -> s' = []) ->
  trim_sender (ws ++ snd) = snd.
Proof.
  intros Hws Hne Hmax. unfold trim_sender. rewrite lstrip_app_space by exact Hws.
  destruct snd as [|c s']; [congruence|].
  simpl. destruct (Char.is_space c) eqn:Hc; [|reflexivity].
  rewrite (Hmax c s' eq_refl Hc). simpl. apply lastn_1_app.
Qed.

Lemma at_end_cases tail : at_end tail = true -> tail = [] \/ tail = [LF].
Proof.
  destruct tail as [|c [|d tail]]; simpl; auto; [|discriminate].
  intros H. right. f_equal. unfold Char.has_code, Char.code in H.
  apply N.eqb_eq in H. rewrite <- (ascii_N_embedding c), H. reflexivity.
Qed.

(** ** The numbers the price rules read *)

Lemma Matches_groupless r prev s s2 m m' :
  Matches r prev s s2 m m' -> groupless r = true -> m' = m.
Proof.
  induction 1; simpl; intros Hg; try reflexivity; try discriminate.
  - apply andb_prop in Hg. destruct Hg as [H1 H2].
    rewrite (IHMatches2 H2). apply IHMatches1. exact H1.
  - apply andb_prop in Hg. destruct Hg as [H1 _]. auto.
  - apply andb_prop in Hg. destruct Hg as [_ H2]. auto.
Qed.

(** The group of a decimal rule is a decimal numeral. *)
Lemma decimal_rule_group rest t m :
  groupless rest = true ->
  search (Cat decimal rest) t = Some m -> Decimal (group 1 m).
Proof.
  intros Hg H. apply search_some_sound in H.
  destruct H as (pre & s1 & s2 & _ & H).
  apply Matches_Cat_inv in H. destruct H as (g & b & m1 & _ & Hd & Hrest).
  apply (Matches_groupless Hrest) in Hg. subst m.
  unfold decimal in Hd. cbn [cat] in Hd.
  apply Matches_Group_inv in Hd. destruct Hd as (m2 & Hd & ->).
  apply Matches_Cat_inv in Hd. destruct Hd as (ip & r1 & m3 & -> & Hip & Hd).
  apply Matches_Rep_inv in Hip. destruct Hip as (Hip & Hiplen & _ & ->).
  apply Matches_Cat_inv in Hd. destruct Hd as (c1 & fp & m4 & -> & Hc & Hfp).
  apply Matches_Set_inv in Hc. destruct Hc as (c & -> & Hc & ->).
  apply Ascii.eqb_eq in Hc. subst c.
  apply Matches_Rep_inv in Hfp. destruct Hfp as (Hfp & Hfplen & _ & _).
  simpl. exists ip, fp. repeat split; auto.
  - destruct ip; [simpl in Hiplen; lia|discriminate].
  - destruct fp; [simpl in Hfplen; lia|discriminate].
Qed.

Lemma before_dot_digits ip fp :
  forallb digit ip = true -> Float.before_dot (ip ++ "."%char :: fp) = ip.
Proof.
  induction ip as [|c ip IH]; simpl; [reflexivity|].
  intros H. apply andb_prop in H. destruct H as [Hc H].
  destruct (Ascii.eqb_spec c ".") as [->|_]; [discriminate|].
  rewrite IH by exact H. reflexivity.
Qed.

Lemma after_dot_digits ip fp :
  forallb digit ip = true -> Float.after_dot (ip ++ "."%char :: fp) = fp.
Proof.
  induction ip as [|c ip IH]; simpl; [reflexivity|].
  intros H. apply andb_prop in H. destruct H as [Hc H].
  destruct (Ascii.eqb_spec c ".") as [->|_]; [discriminate|].
  apply IH. exact H.
Qed.

(** On a decimal numeral, [float] is the binary64 number nearest to the
    numeral without its dot over the power of ten of its fraction. *)
Lemma of_decimal_numeral ip fp :
  forallb digit ip = true ->
  Float.of_decimal (ip ++ "."%char :: fp) =
  Float.of_ratio (Str.to_int (ip ++ fp)) (10 ^ Z.of_nat (length fp)).
Proof.
  intros H. unfold Float.of_decimal.
  rewrite before_dot_digits, after_dot_digits by exact H. reflexivity.
Qed.

(** [int] of a finite number is the number cut to an integer. *)
Lemma to_int_truncates (m e z : Z) :
  Float.to_int (Float.Finite m e) = Ok z ->
  ((0 <= e)%Z /\ z = (m * 2 ^ e)%Z) \/
  ((e < 0)%Z /\ (z * 2 ^ (- e) <= m < (z + 1) * 2 ^ (- e))%Z).
Proof.
  simpl. intros [= <-]. destruct (Z.leb_spec 0 e) as [He|He].
  - left. split; [exact He|reflexivity].
  - right. split; [exact He|].
    assert (Hpos : (0 < 2 ^ (- e))%Z) by (apply Z.pow_pos_nonneg; lia).
    pose proof (Z.mul_div_le m _ Hpos).
    pose proof (Z.mul_succ_div_gt m _ Hpos).
    lia.
Qed.

(** * The attribute extractors *)





(** C6.  The condition extractor scans the lower-cased text for the
    phrases of [CONDITIONS] in their order: the label of the first entry
    one of whose phrases is a part of the text is returned, and the empty
    string when there is none.  "like new full set" gives "Like New". *)
Theorem parse_condition_priority (text : str) :
  (forall i ws label,
      nth_error CONDITIONS i = Some (ws, label) ->
      Has_phrase ws (Str.lower text) ->
      (forall j ws' label', j < i ->
         nth_error CONDITIONS j = Some (ws', label') ->
         ~ Has_phrase ws' (Str.lower text)) ->
      parse_condition text = txt label) /\
  ((forall ws label, In (ws, label) CONDITIONS ->
      ~ Has_phrase ws (Str.lower text)) ->
   parse_condition text = []) /\
  parse_condition (txt "like new full set") = txt "Like New".
Proof.
  split; [|split].
  - intros i ws label Hi Hws Hbefore. rewrite parse_condition_first_some.
    apply first_some_at with (i := i). split.
    + exists (ws, label). split; [exact Hi|].
      apply (apply_condition_some (ws, label)). exact Hws.
    + intros j [ws' label'] Hj Hn. apply apply_condition_none.
      apply (Hbefore j ws' label' Hj Hn).
  - intros H. rewrite parse_condition_first_some. apply first_some_none.
    intros [ws label] Hin. apply apply_condition_none. apply (H ws label Hin).
  - vm_compute. reflexivity.
Qed.

Lemma parse_condition_priority_witness :
  parse_condition (txt "Brand NEW, fullset") = txt "Full Set".
Proof.
  apply (proj1 (parse_condition_priority (txt "Brand NEW, fullset")) 2
           ["full set"; "fullset"]%string "Full Set"%string eq_refl).
  - exists "fullset"%string. split; [right; left; reflexivity|].
    apply contains_iff. vm_compute. reflexivity.
  - intros [|[|j]] ws' label' Hj Hn; [| |lia]; injection Hn as <- <-;
      intros H; apply has_phrase_iff in H; vm_compute in H; discriminate.
Defined.

(** C8, as the code has it.  The price extractor returns [0] whenever no
    rule matches, and a result other than [0] always comes from a rule
    that matched; a rule that matched gives [0] when the number it
    captured is zero, so the result [0] does not tell that no rule
    matched. *)
Theorem parse_price_zero_sentinel (text : str) :
  ((forall r, In r PRICE_RULES -> search (rule_re r) (price_text text) = None) ->
   parse_price text = Ok 0%Z) /\
  (parse_price text <> Ok 0%Z ->
   exists i, First_at (apply_rule (price_text text)) PRICE_RULES i
               (parse_price text)).
Proof.
  rewrite parse_price_first_some. split.
  - intros H. apply first_some_none. intros r Hr. apply apply_rule_none, H, Hr.
  - intros Hne.
    destruct (first_some_cases (apply_rule (price_text text)) (Ok 0%Z) PRICE_RULES)
      as [[E _]|H]; [contradiction|exact H].
Qed.

Lemma parse_price_zero_sentinel_witness :
  exists i, First_at (apply_rule (price_text (txt "HKD 98,500")))
              PRICE_RULES i (Ok 98500%Z).
Proof.
  assert (E : parse_price (txt "HKD 98,500") = Ok 98500%Z)
    by (vm_compute; reflexivity).
  rewrite <- E.
  apply (proj2 (parse_price_zero_sentinel (txt "HKD 98,500"))).
  rewrite E. discriminate.
Defined.

(** C8, as stated, fails: on "0k" the integer-k rule matches and the
    result is [0]. *)
Lemma parse_price_zero_from_matched_rule :
  parse_price (txt "0k") = Ok 0%Z /\
  exists m, search PRICE_INT_K (price_text (txt "0k")) = Some m /\
            In (Rule PRICE_INT_K (fun g => Ok (Str.to_int g * 1000)%Z)) PRICE_RULES /\
            First_at (apply_rule (price_text (txt "0k"))) PRICE_RULES 2 (Ok 0%Z).
Proof.
  split; [vm_compute; reflexivity|].
  eexists. split; [vm_compute; reflexivity|]. split.
  - right. right. left. reflexivity.
  - split.
    + eexists. split; [reflexivity|]. vm_compute. reflexivity.
    + intros [|[|j]] x Hj Hx; [| |lia]; injection Hx as <-; vm_compute; reflexivity.
Qed.

(** * The candidate segment extractor *)


(** C10.  Every entry the segment extractor returns contains the
    identifier as a whole word, up to case, either itself or in the line
    that leads a "line // follow" entry; and the [Raw Line] of every row
    contains the identifier, up to case. *)
Theorem entries_contain_identifier (pid : str) :
  (forall body es e,
      extract_message_entries body pid = Ok es -> In e es -> Entry_of pid e) /\
  (forall chat_name file logger log,
      exists rs,
        fst (process_chat_file chat_name file pid logger log) = Ok rs /\
        forall r, In r rs -> Substring_i pid (Raw_Line r)).
Proof.
  split.
  - intros body es e. apply extract_message_entries_In.
  - intros chat_name file logger log.
    destruct (process_chat_file_rows chat_name file pid logger log) as (rs & E & H).
    exists rs. split; [exact E|]. intros r Hr.
    destruct (H r Hr) as (content & m & _ & _ & es & He & Hin & _).
    apply Entry_of_Substring_i. eapply extract_message_entries_In; eauto.
Qed.

Lemma entries_contain_identifier_witness :
  Entry_of (txt "126610ln") (txt "126610LN bnib // 2023 49000").
Proof.
  apply (proj1 (entries_contain_identifier (txt "126610ln"))
           (txt "126610LN bnib" ++ LF :: txt "2023 49000")
           [txt "126610LN bnib"; txt "126610LN bnib // 2023 49000"]).
  - vm_compute. reflexivity.
  - right. left. reflexivity.
Defined.

(** * Assembly *)

(** C7.  An entry that contains PHOTO, omitted or attached:, up to case, is
    passed over by the loop over the entries, and no row that
    [process_chat_file] returns has such a text as its [Raw Line]; so no
    row comes from an entry that contains "<PID> photo omitted". *)
Theorem noise_entries_discarded (chat_name pid : str) :
  (forall m raw raws n s,
      Noise raw ->
      raws_loop chat_name pid m (raw :: raws) n s =
      raws_loop chat_name pid m raws n s) /\
  (forall file logger log,
      exists rs,
        fst (process_chat_file chat_name file pid logger log) = Ok rs /\
        (forall r, In r rs -> ~ Noise (Raw_Line r)) /\
        (forall r pre post, In r rs ->
           Raw_Line r <> pre ++ pid ++ txt " photo omitted" ++ post)).
Proof.
  split.
  - intros m raw raws n s H. apply is_noise_iff in H. simpl. rewrite H. reflexivity.
  - intros file logger log.
    destruct (process_chat_file_rows chat_name file pid logger log) as (rs & E & H).
    exists rs. split; [exact E|].
    assert (Hn : forall r, In r rs -> ~ Noise (Raw_Line r)).
    { intros r Hr Hnoise. apply is_noise_iff in Hnoise.
      destruct (H r Hr) as (content & m & _ & _ & es & _ & _ & Hf). congruence. }
    split; [exact Hn|].
    intros r pre post Hr Heq. apply (Hn r Hr). right. left.
    exists (pre ++ pid ++ txt " photo "), (txt "omitted"), post.
    split; [|reflexivity]. rewrite Heq, <- !app_assoc. reflexivity.
Qed.

Lemma noise_entries_discarded_witness :
  raws_loop (txt "chat") (txt "126610LN")
    (Message (txt "1/2/23") (txt "9:16 PM") (txt "Bo")
       (txt "126610LN Photo Omitted"))
    [txt "126610LN Photo Omitted"] 0 (State [] []) =
  raws_loop (txt "chat") (txt "126610LN")
    (Message (txt "1/2/23") (txt "9:16 PM") (txt "Bo")
       (txt "126610LN Photo Omitted"))
    [] 0 (State [] []).
Proof.
  apply (proj1 (noise_entries_discarded (txt "chat") (txt "126610LN"))).
  left. exists (txt "126610LN "), (txt "Photo"), (txt " Omitted").
  split; reflexivity.
Defined.

(** * The message tokenizer *)

(** C3.  On a transcript whose lines are a preamble without header lines
    followed by N blocks, each a header line and its continuation lines,
    the tokenizer gives N messages, in order: the message of a block has
    the fields of its header line, and its body is the text after the
    header followed by the continuation lines, joined by line feeds.  The
    preamble is dropped and the last message is there. *)
Theorem tokenize_blocks (content : str) (preamble : list str)
    (blocks : list block) :
  Str.splitlines content = preamble ++ flat_map block_lines blocks ->
  Forall (fun l => is_header l = false) preamble ->
  Forall Block blocks ->
  tokenize content = map block_message blocks /\
  length (tokenize content) = length blocks.
Proof.
  intros Hlines Hpre Hblocks.
  assert (E : tokenize content = map block_message blocks).
  { unfold tokenize. rewrite Hlines, tokenize_loop_preamble by assumption.
    rewrite tokenize_loop_blocks by assumption. reflexivity. }
  split; [exact E|]. rewrite E. apply length_map.
Qed.

Lemma tokenize_blocks_witness :
  tokenize (txt "Messages are end-to-end encrypted" ++ LF ::
            txt "[1/2/23, 9:15:07 PM] Al: selling 126610LN" ++ LF ::
            txt "85y 250k" ++ LF ::
            txt "[1/2/23, 9:16 PM] Bo: ok") =
  [Message (txt "1/2/23") (txt "9:15:07 PM") (txt "Al")
     (txt "selling 126610LN" ++ LF :: txt "85y 250k");
   Message (txt "1/2/23") (txt "9:16 PM") (txt "Bo") (txt "ok")].
Proof.
  refine (proj1 (@tokenize_blocks _
           [txt "Messages are end-to-end encrypted"]
           [(txt "[1/2/23, 9:15:07 PM] Al: selling 126610LN", [txt "85y 250k"]);
            (txt "[1/2/23, 9:16 PM] Bo: ok", [])] _ _ _)).
  - vm_compute. reflexivity.
  - repeat constructor.
  - repeat constructor.
Defined.

(** * Failures *)

Lemma extraction_loop_returns pid : forall txt_files all_entries log,
  exists rs, fst (extraction_loop txt_files pid all_entries log) = Ok rs.
Proof.
  induction txt_files as [|f fs IH]; intros all_entries log; simpl.
  - eauto.
  - destruct (process_chat_file_rows (stem f) (contents f) pid true
                (log ++ [Log_file (name f)])) as (rs & E & _).
    destruct (process_chat_file (stem f) (contents f) pid true
                (log ++ [Log_file (name f)])) as [[entries|e] log'];
      simpl in E; [|discriminate].
    apply IH.
Qed.

(** C9.  When the transcript cannot be read, [process_chat_file] returns
    the empty list of rows and raises nothing; the logger, when there is
    one, receives the error and the traceback.  [process_chat_file] raises
    in no case, and the loop over the transcripts goes on with the next
    file and itself returns. *)
Theorem process_chat_file_read_failure (chat_name pid : str) (e : exn)
    (logger : bool) (log : list log_line) :
  process_chat_file chat_name (Raise e) pid logger log =
    (Ok [], log ++ (if logger then [Log_error e; Log_traceback e] else [])) /\
  (forall file,
      exists rs, fst (process_chat_file chat_name file pid logger log) = Ok rs) /\
  (forall file_name txt_files all_entries,
      extraction_loop (ChatFile file_name chat_name (Raise e) :: txt_files)
        pid all_entries log =
      extraction_loop txt_files pid all_entries
        (log ++ [Log_file file_name; Log_error e; Log_traceback e;
                 Log_matches 0])) /\
  (forall txt_files all_entries,
      exists rs, fst (extraction_loop txt_files pid all_entries log) = Ok rs).
Proof.
  split; [|split; [|split]].
  - destruct logger; unfold process_chat_file; simpl.
    + rewrite <- app_assoc. reflexivity.
    + rewrite app_nil_r. reflexivity.
  - intros file.
    destruct (process_chat_file_rows chat_name file pid logger log) as (rs & E & _).
    eauto.
  - intros file_name txt_files all_entries. simpl.
    unfold process_chat_file. simpl.
    rewrite app_nil_r, <- !app_assoc. reflexivity.
  - intros txt_files all_entries. apply extraction_loop_returns.
Qed.

(** C5, as the code has it.  A line is a header line only if it is made of
    an opening bracket, a non-empty run of digits and slashes, a comma,
    optional whitespace, a time of the shape [Time_shape] (whose last two
    letters are any two among A, P and M), a closing bracket, and then a
    text with a colon in it.  The sender is the text between the bracket
    and the first colon after it without the whitespace that leads it
    ([trim_sender]), and is not empty; the body start is the rest of the
    line after that colon without the whitespace that leads it (and
    without a line feed that ends the line), however many colons come
    later. *)
Theorem header_line_fields (line : str) (h : captures) :
  match_ HEADER_RE line = Some h ->
  (exists ws,
      forallb space ws = true /\
      line = "["%char :: group 1 h ++ ","%char :: ws ++ group 2 h ++
             "]"%char :: after_first "]" line) /\
  Date_shape (group 1 h) /\ Time_shape (group 2 h) /\
  after_first "]" line =
    between_bracket_colon line ++ ":"%char :: after_sender_colon line /\
  group 3 h = trim_sender (between_bracket_colon line) /\
  group 3 h <> [] /\
  (group 4 h = Str.lstrip (after_sender_colon line) \/
   group 4 h ++ [LF] = Str.lstrip (after_sender_colon line)).
Proof.
  intros H. apply HEADER_RE_sound in H.
  destruct H as (date & ws1 & time & ws2 & snd & ws3 & body & tail & -> & -> &
                 Hdate & Hws1 & Htime & Hws2 & Hne & Hsnd & Hmax & Hws3 &
                 Hbody & Hbmax & Htail).
  cbn [group Nat.eqb].
  assert (Hafter : after_first "]"
            ("["%char :: date ++ ","%char :: ws1 ++ time ++ "]"%char :: ws2 ++
             snd ++ ":"%char :: ws3 ++ body ++ tail) =
            ws2 ++ snd ++ ":"%char :: ws3 ++ body ++ tail).
  { replace ("["%char :: date ++ ","%char :: ws1 ++ time ++ "]"%char :: ws2 ++
             snd ++ ":"%char :: ws3 ++ body ++ tail)
      with (("["%char :: date ++ ","%char :: ws1 ++ time) ++ "]"%char :: ws2 ++
            snd ++ ":"%char :: ws3 ++ body ++ tail)
      by (simpl; rewrite <- !app_assoc; simpl; rewrite <- !app_assoc; reflexivity).
    apply after_first_app.
    cbn [forallb]. rewrite forallb_app. cbn [forallb]. rewrite forallb_app.
    rewrite (forallb_impl _ _ _ (not_in_set digit_or_slash "]" eq_refl)
               (proj2 Hdate)).
    rewrite (forallb_impl _ _ _ (not_in_set space "]" eq_refl) Hws1).
    rewrite (@Time_shape_without "]" time eq_refl eq_refl eq_refl eq_refl Htime).
    reflexivity. }
  unfold between_bracket_colon, after_sender_colon. rewrite Hafter.
  assert (Hnocolon : forallb (fun x => negb (Ascii.eqb x ":")) (ws2 ++ snd) = true).
  { rewrite forallb_app.
    rewrite (forallb_impl _ _ _ (not_in_set space ":" eq_refl) Hws2).
    rewrite (forallb_impl (none_of ":") (fun x => negb (Ascii.eqb x ":")) snd);
      [reflexivity| |exact Hsnd].
    intros x Hx. unfold none_of, one_of in Hx. simpl in Hx.
    rewrite orb_false_r in Hx. exact Hx. }
  replace (ws2 ++ snd ++ ":"%char :: ws3 ++ body ++ tail)
    with ((ws2 ++ snd) ++ ":"%char :: ws3 ++ body ++ tail)
    by (rewrite <- app_assoc; reflexivity).
  rewrite before_first_app, after_first_app by exact Hnocolon.
  split; [exists ws1; split; [exact Hws1|reflexivity]|].
  split; [exact Hdate|]. split; [exact Htime|]. split; [reflexivity|].
  split; [symmetry; apply trim_sender_spec; assumption|].
  split; [exact Hne|].
  rewrite lstrip_app_space by exact Hws3.
  destruct (at_end_cases tail Htail) as [->| ->].
  - left. rewrite app_nil_r. destruct body as [|c s']; [reflexivity|].
    simpl. unfold space in Hbmax. rewrite (Hbmax c s' eq_refl). reflexivity.
  - destruct body as [|c s']; [left; reflexivity|right].
    simpl. unfold space in Hbmax. rewrite (Hbmax c s' eq_refl). reflexivity.
Qed.

Lemma header_line_fields_witness :
  exists h,
    match_ HEADER_RE (txt "[12/02/2023, 10:15:07 pm] Al Ko: note: back at 12:30") = Some h /\
    group 3 h = txt "Al Ko" /\
    (group 4 h = txt "note: back at 12:30" \/
     group 4 h ++ [LF] = txt "note: back at 12:30").
Proof.
  eexists. split; [vm_compute; reflexivity|].
  destruct (@header_line_fields
              (txt "[12/02/2023, 10:15:07 pm] Al Ko: note: back at 12:30") _
              eq_refl) as (_ & _ & _ & _ & Hs & _ & Hb).
  split; [exact Hs|exact Hb].
Defined.

(** C5, as stated, fails: on this line the pattern takes "9:15 MP" for a
    time, the sender is "Al" although the text strictly between the bracket
    and the colon is " Al", and the body start is "hi" although the rest of
    the line after the colon is " hi". *)
Lemma header_sender_not_exact :
  exists h,
    match_ HEADER_RE (txt "[1/2/23, 9:15 MP] Al: hi") = Some h /\
    group 2 h = txt "9:15 MP" /\ ends_am_pm (group 2 h) = false /\
    group 3 h = txt "Al" /\
    between_bracket_colon (txt "[1/2/23, 9:15 MP] Al: hi") = txt " Al" /\
    group 3 h <> between_bracket_colon (txt "[1/2/23, 9:15 MP] Al: hi") /\
    group 4 h = txt "hi" /\
    after_sender_colon (txt "[1/2/23, 9:15 MP] Al: hi") = txt " hi" /\
    group 4 h <> after_sender_colon (txt "[1/2/23, 9:15 MP] Al: hi").
Proof.
  eexists. split; [vm_compute; reflexivity|].
  repeat split; try (vm_compute; reflexivity); vm_compute; discriminate.
Qed.

(** * Further properties of the segment extractor *)

Lemma split_segments_spec (body pid e : str) :
  In e (split_segments body pid) <->
  exists line piece,
    In line (Str.splitlines body) /\ In piece (Str.split (txt "//") line) /\
    e = Str.strip piece /\ Word_i pid e.
Proof.
  unfold split_segments. rewrite in_flat_map. split.
  - intros (line & Hline & H). apply filter_In in H. destruct H as [H Hpid].
    apply in_map_iff in H. destruct H as (piece & <- & Hpiece).
    exists line, piece. repeat split; auto. apply has_pid_iff. exact Hpid.
  - intros (line & piece & Hline & Hpiece & -> & Hw).
    exists line. split; [exact Hline|]. apply filter_In. split.
    + apply in_map. exact Hpiece.
    + apply has_pid_iff. exact Hw.
Qed.

(** X1.  Intra-line segmentation keeps exactly the trimmed pieces, between
    double slashes, of the lines of the body that contain the identifier
    as a whole word, up to case. *)
Theorem split_segments_iff (body pid e : str) :
  In e (split_segments body pid) <->
  exists line piece,
    In line (Str.splitlines body) /\ In piece (Str.split (txt "//") line) /\
    e = Str.strip piece /\ Word_i pid e.
Proof. apply split_segments_spec. Qed.

Lemma scanned_In pid f : forall window,
  In f (scanned pid window) -> In f window /\ starts_other_item pid f = false.
Proof.
  induction window as [|l w IH]; simpl; [intros []|].
  destruct (starts_other_item pid l) eqn:Hl; [intros []|].
  intros [<-|H]; [auto|]. destruct (IH H). auto.
Qed.

Lemma yielding_In f : forall ls kept,
  yielding ls = Ok kept -> In f kept -> In f ls /\ yields f = Ok true.
Proof.
  induction ls as [|l ls IH]; simpl; intros kept H Hin.
  - injection H as <-. destruct Hin.
  - destruct (yields l) as [b|] eqn:Hl; simpl in H; [|discriminate].
    destruct (yielding ls) as [kept'|]; simpl in H; [|discriminate].
    injection H as <-. destruct b.
    + destruct Hin as [<-|Hin]; [auto|]. destruct (IH kept' eq_refl Hin). auto.
    + destruct (IH kept' eq_refl Hin). auto.
Qed.

Lemma attach_spec_In pid e : forall lines rs,
  attach_spec pid lines = Ok rs -> In e rs ->
  exists before line following f,
    lines = before ++ line :: following /\ In f (firstn 5 following) /\
    has_pid pid line = true /\ self_sufficient line = Ok false /\
    starts_other_item pid f = false /\ yields f = Ok true /\
    e = combined line f.
Proof.
  induction lines as [|line following IH]; cbn [attach_spec]; intros rs H Hin.
  - injection H as <-. destruct Hin.
  - destruct (attach_spec pid following) as [later|] eqn:Hlater.
    2:{ destruct (has_pid pid line); [|discriminate].
        destruct (attach_line pid line following); discriminate. }
    assert (Hlater_in : In e later ->
      exists before line0 following0 f,
        line :: following = before ++ line0 :: following0 /\
        In f (firstn 5 following0) /\ has_pid pid line0 = true /\
        self_sufficient line0 = Ok false /\ starts_other_item pid f = false /\
        yields f = Ok true /\ e = combined line0 f).
    { intros Hl. destruct (IH later eq_refl Hl)
        as (before & l0 & f0 & f & -> & H1).
      exists (line :: before), l0, f0, f. split; [reflexivity|exact H1]. }
    destruct (has_pid pid line) eqn:Hpid.
    + unfold attach_line in H.
      destruct (self_sufficient line) as [b|] eqn:Hself; cbn [bind app] in H; [|discriminate].
      destruct b; cbn [bind app] in H.
      * injection H as <-. auto.
      * destruct (yielding (scanned pid (firstn 5 following))) as [kept|] eqn:Hk;
          cbn [bind app] in H; [|discriminate].
        injection H as <-. apply in_app_iff in Hin. destruct Hin as [Hin|Hin]; [|auto].
        apply in_map_iff in Hin. destruct Hin as (f & <- & Hf).
        destruct (yielding_In _ _ Hk Hf) as [Hsc Hy].
        destruct (scanned_In _ _ _ Hsc) as [Hw Hstop].
        exists [], line, following, f. repeat split; auto.
    + cbn [bind app] in H. injection H as <-. auto.
Qed.

(** X2.  Every entry forward attachment returns joins a line that contains
    the identifier as a whole word and yields neither price nor year by
    itself to one of the five non-empty lines that follow it; the line
    joined yields a year or a price and does not start another item.
    Nothing is attached from further away. *)
Theorem attach_following_entries (body pid : str) (rs : list str) (e : str) :
  attach_following body pid = Ok rs -> In e rs ->
  exists before line following f,
    stripped_lines body = before ++ line :: following /\
    In f (firstn 5 following) /\
    Word_i pid line /\ self_sufficient line = Ok false /\
    starts_other_item pid f = false /\ yields f = Ok true /\
    e = combined line f.
Proof.
  rewrite attach_following_spec. intros H Hin.
  destruct (attach_spec_In _ _ _ H Hin)
    as (before & line & following & f & E & Hf & Hp & Hs & Hst & Hy & ->).
  exists before, line, following, f. repeat split; auto.
  apply has_pid_iff. exact Hp.
Qed.

Lemma attach_following_entries_witness :
  exists before line following f,
    stripped_lines (txt "126610LN bnib" ++ LF :: txt "2023 49000") =
      before ++ line :: following /\
    In f (firstn 5 following) /\
    Word_i (txt "126610ln") line /\ self_sufficient line = Ok false /\
    starts_other_item (txt "126610ln") f = false /\ yields f = Ok true /\
    txt "126610LN bnib // 2023 49000" = combined line f.
Proof.
  apply (@attach_following_entries
           (txt "126610LN bnib" ++ LF :: txt "2023 49000") (txt "126610ln")
           [txt "126610LN bnib // 2023 49000"]).
  - vm_compute. reflexivity.
  - left. reflexivity.
Defined.

(** ** Deduplication *)

Lemma Str_eqb_eq a b : Str.eqb a b = true <-> a = b.
Proof.
  unfold Str.eqb. destruct (list_eq_dec ascii_dec a b); split; congruence.
Qed.

Lemma mem_In e seen : mem e seen = true <-> In e seen.
Proof.
  unfold mem. rewrite existsb_exists. split.
  - intros (x & Hx & H). apply Str_eqb_eq in H. subst x. exact Hx.
  - intros H. exists e. split; [exact H|]. apply Str_eqb_eq. reflexivity.
Qed.

Lemma filter_filter_comm {A} (p q : A -> bool) l :
  filter p (filter q l) = filter q (filter p l).
Proof.
  induction l as [|x l IH]; simpl; [reflexivity|].
  destruct (p x) eqn:Hp, (q x) eqn:Hq; simpl; rewrite ?Hp, ?Hq, IH; reflexivity.
Qed.

Lemma filter_absorb {A} (p q : A -> bool) l :
  (forall x, p x = true -> q x = true) -> filter p (filter q l) = filter p l.
Proof.
  intros H. induction l as [|x l IH]; simpl; [reflexivity|].
  destruct (q x) eqn:Hq; simpl.
  - rewrite IH. reflexivity.
  - destruct (p x) eqn:Hp; [rewrite (H x Hp) in Hq; discriminate|exact IH].
Qed.

Lemma first_occurrences_filter p :
  (forall x y, Str.eqb y x = true -> p y = p x) ->
  forall l, first_occurrences (filter p l) = filter p (first_occurrences l).
Proof.
  intros Hp. induction l as [|x l IH]; simpl; [reflexivity|].
  destruct (p x) eqn:Hx; simpl; rewrite ?Hx, IH.
  - f_equal. apply filter_filter_comm.
  - symmetry. apply filter_absorb.
    intros y Hy. apply negb_true_iff. destruct (Str.eqb y x) eqn:E; [|reflexivity].
    apply Str_eqb_eq in E. congruence.
Qed.

Lemma filter_not_mem_cons e seen : forall l,
  filter (fun x => negb (mem x (e :: seen))) l =
  filter (fun x => negb (mem x seen)) (filter (fun y => negb (Str.eqb y e)) l).
Proof.
  induction l as [|a l IH]; [reflexivity|].
  cbn [filter]. change (mem a (e :: seen)) with (Str.eqb a e || mem a seen).
  destruct (Str.eqb a e); cbn [negb orb]; [exact IH|].
  cbn [filter]. destruct (mem a seen); cbn [negb]; rewrite IH; reflexivity.
Qed.

Lemma dedup_loop_first_occurrences : forall entries seen final,
  dedup_loop entries seen final =
  final ++ first_occurrences (filter (fun e => negb (mem e seen)) entries).
Proof.
  induction entries as [|e entries IH]; intros seen final; simpl.
  - rewrite app_nil_r. reflexivity.
  - destruct (mem e seen) eqn:Hm; simpl.
    + apply IH.
    + rewrite IH, <- app_assoc. simpl. f_equal. f_equal.
      rewrite <- first_occurrences_filter.
      2:{ intros x y E. apply Str_eqb_eq in E. subst y. reflexivity. }
      f_equal. rewrite filter_filter_comm. apply filter_not_mem_cons.
Qed.

Lemma first_occurrences_In e : forall l, In e (first_occurrences l) <-> In e l.
Proof.
  induction l as [|x l IH]; simpl; [tauto|].
  rewrite filter_In, IH. split.
  - intros [H|[H _]]; auto.
  - intros [H|H]; [auto|].
    destruct (list_eq_dec ascii_dec x e) as [E|E]; [auto|].
    right. split; [exact H|]. apply negb_true_iff.
    destruct (Str.eqb e x) eqn:Heq; [|reflexivity].
    apply Str_eqb_eq in Heq. congruence.
Qed.

Lemma first_occurrences_NoDup : forall l, NoDup (first_occurrences l).
Proof.
  induction l as [|x l IH]; simpl; constructor.
  - rewrite filter_In. intros [_ H]. apply negb_true_iff in H.
    assert (Str.eqb x x = true) by (apply Str_eqb_eq; reflexivity). congruence.
  - apply NoDup_filter. exact IH.
Qed.

(** X3.  The segment extractor returns the intra-line segments followed by
    the attached entries, each entry once, where it first occurs: no entry
    is repeated, none is lost, and the order of first occurrence is
    kept. *)
Theorem extract_message_entries_dedup (body pid : str) (es : list str) :
  extract_message_entries body pid = Ok es ->
  exists following,
    attach_following body pid = Ok following /\
    es = first_occurrences (split_segments body pid ++ following) /\
    NoDup es /\
    forall e, In e es <-> In e (split_segments body pid) \/ In e following.
Proof.
  unfold extract_message_entries. intros H.
  destruct (attach_following body pid) as [following|]; simpl in H; [|discriminate].
  injection H as <-. exists following. split; [reflexivity|].
  rewrite dedup_loop_first_occurrences.
  assert (E : filter (fun e => negb (mem e []))
                (split_segments body pid ++ following) =
              split_segments body pid ++ following).
  { generalize (split_segments body pid ++ following). intros l.
    induction l as [|x l IH]; [reflexivity|].
    cbn [filter]. change (mem x []) with false. cbn [negb]. f_equal. exact IH. }
  rewrite E. cbn [app]. split; [reflexivity|].
  split; [apply first_occurrences_NoDup|].
  intros e. rewrite first_occurrences_In, in_app_iff. reflexivity.
Qed.

Lemma extract_message_entries_dedup_witness :
  exists following,
    attach_following (txt "126610LN // x 126610ln // 126610LN") (txt "126610LN")
      = Ok following /\
    [txt "126610LN"; txt "x 126610ln"] =
      first_occurrences
        (split_segments (txt "126610LN // x 126610ln // 126610LN")
           (txt "126610LN") ++ following) /\
    NoDup [txt "126610LN"; txt "x 126610ln"] /\
    forall e, In e [txt "126610LN"; txt "x 126610ln"] <->
      In e (split_segments (txt "126610LN // x 126610ln // 126610LN")
              (txt "126610LN")) \/ In e following.
Proof.
  apply (@extract_message_entries_dedup
           (txt "126610LN // x 126610ln // 126610LN") (txt "126610LN")).
  vm_compute. reflexivity.
Defined.

(** * Further properties of the tokenizer *)

Lemma append_msg_length msgs curr :
  length (append_msg msgs curr) =
  length msgs + (match curr with Some _ => 1 | None => 0 end).
Proof. destruct curr; simpl; [rewrite length_app; reflexivity|lia]. Qed.

Lemma tokenize_loop_length : forall lines msgs curr,
  length (tokenize_loop lines msgs curr) =
  length (append_msg msgs curr) + length (filter is_header lines).
Proof.
  induction lines as [|line lines IH]; intros msgs curr; simpl.
  - lia.
  - unfold is_header at 1. destruct (match_ HEADER_RE line); simpl.
    + rewrite IH, !append_msg_length. simpl. lia.
    + rewrite IH, !append_msg_length. destruct curr; simpl; lia.
Qed.

(** X4.  On every transcript the tokenizer gives as many messages as the
    transcript has header lines. *)
Theorem tokenize_length (content : str) :
  length (tokenize content) =
  length (filter is_header (Str.splitlines content)).
Proof. unfold tokenize. rewrite tokenize_loop_length. reflexivity. Qed.


Lemma add_lines_snoc b ls l : add_lines b (ls ++ [l]) = add_lines b ls ++ LF :: l.
Proof. unfold add_lines. rewrite fold_left_app. reflexivity. Qed.

Lemma add_lines_prefix b ls : add_lines b ls = b ++ add_lines [] ls.
Proof. rewrite add_lines_app, app_nil_r. reflexivity. Qed.

Lemma tokenize_loop_opened all : forall lines msgs curr,
  incl lines all ->
  Forall (Opened_by all) msgs ->
  (forall c, curr = Some c -> Opened_by all c) ->
  Forall (Opened_by all) (tokenize_loop lines msgs curr).
Proof.
  assert (Happ : forall msgs curr,
    Forall (Opened_by all) msgs ->
    (forall c, curr = Some c -> Opened_by all c) ->
    Forall (Opened_by all) (append_msg msgs curr)).
  { intros msgs [c|] Hm Hc; simpl; [|exact Hm].
    apply Forall_app. split; [exact Hm|]. constructor; [apply Hc; reflexivity|constructor]. }
  induction lines as [|line lines IH]; intros msgs curr Hincl Hm Hc; simpl.
  - apply Happ; assumption.
  - assert (Hin : In line all) by (apply Hincl; left; reflexivity).
    assert (Hincl' : incl lines all)
      by (intros x Hx; apply Hincl; right; exact Hx).
    destruct (match_ HEADER_RE line) as [h|] eqn:Hh.
    + apply IH; [exact Hincl'|apply Happ; assumption|].
      intros c [= <-]. exists line, h, [].
      repeat split; auto. intros x [].
    + apply IH; [exact Hincl'|exact Hm|].
      destruct curr as [c|]; [|discriminate].
      intros c' [= <-].
      destruct (Hc c eq_refl) as (l0 & h0 & conts & Hl0 & Hconts & Hh0 & ->).
      exists l0, h0, (conts ++ [line]). cbn [date time sender body].
      rewrite add_lines_snoc. repeat split; auto.
      intros x Hx. apply in_app_iff in Hx. destruct Hx as [Hx|[<-|[]]]; auto.
Qed.

(** X5.  Every message of the tokenizer was opened by a header line of the
    transcript: its sender is not empty and has no colon, its date is a
    run of digits and slashes, its time has the shape the header pattern
    asks for, and its body starts with the text that follows the sender's
    colon in that line. *)
Theorem tokenize_message_fields (content : str) (m : message) :
  In m (tokenize content) ->
  sender m <> [] /\ forallb (none_of ":") (sender m) = true /\
  Date_shape (date m) /\ Time_shape (time m) /\
  exists line rest,
    In line (Str.splitlines content) /\ is_header line = true /\
    body m = header_field 4 line ++ rest.
Proof.
  intros Hin.
  assert (H : Forall (Opened_by (Str.splitlines content)) (tokenize content)).
  { apply tokenize_loop_opened; [apply incl_refl|constructor|discriminate]. }
  rewrite Forall_forall in H.
  destruct (H m Hin) as (line & h & conts & Hline & _ & Hh & ->).
  cbn [date time sender body].
  destruct (HEADER_RE_sound _ Hh)
    as (d & ws1 & t & ws2 & snd & ws3 & b & tail & _ & E & Hd & _ & Ht & _ &
        Hne & Hsnd & _).
  subst h. cbn [group Nat.eqb] in *.
  repeat split; try assumption; try apply Hd.
  exists line, (add_lines [] conts). split; [exact Hline|].
  unfold is_header, header_field. rewrite Hh. cbn [group Nat.eqb found].
  split; [reflexivity|apply add_lines_prefix].
Qed.

Lemma tokenize_message_fields_witness :
  sender (Message (txt "1/2/23") (txt "9:16 PM") (txt "Bo") (txt "ok")) <> [] /\
  forallb (none_of ":")
    (sender (Message (txt "1/2/23") (txt "9:16 PM") (txt "Bo") (txt "ok"))) = true /\
  Date_shape (date (Message (txt "1/2/23") (txt "9:16 PM") (txt "Bo") (txt "ok"))) /\
  Time_shape (time (Message (txt "1/2/23") (txt "9:16 PM") (txt "Bo") (txt "ok"))) /\
  exists line rest,
    In line (Str.splitlines (txt "[1/2/23, 9:16 PM] Bo: ok")) /\
    is_header line = true /\
    body (Message (txt "1/2/23") (txt "9:16 PM") (txt "Bo") (txt "ok")) =
      header_field 4 line ++ rest.
Proof.
  apply (@tokenize_message_fields (txt "[1/2/23, 9:16 PM] Bo: ok")).
  vm_compute. left. reflexivity.
Defined.

(** * Further properties of the assembly *)

Lemma state_eta s : s = State (rows s) (logged s).
Proof. destruct s; reflexivity. Qed.

(** The loop over the entries appends rows that do not depend on the state
    it starts from, and counts them. *)
Lemma raws_loop_pure chat_name pid m : forall raws n,
  exists res new,
    (forall s, raws_loop chat_name pid m raws n s =
               (res, State (rows s ++ new) (logged s))) /\
    (forall r, In r new ->
       Row_fields chat_name pid m r /\ In (Raw_Line r) raws /\
       is_noise (Raw_Line r) = false) /\
    (forall n', res = Ok n' -> n' = n + length new).
Proof.
  induction raws as [|raw raws IH]; intros n.
  - exists (Ok n), []. split; [|split].
    + intros s. simpl. unfold ret. rewrite app_nil_r, <- state_eta. reflexivity.
    + intros r [].
    + intros n' [= <-]. simpl. lia.
  - simpl. destruct (is_noise raw) eqn:Hn.
    + destruct (IH n) as (res & new & Hrun & Hnew & Hcount).
      exists res, new. split; [exact Hrun|]. split; [|exact Hcount].
      intros r Hr. destruct (Hnew r Hr) as (H1 & H2 & H3). auto.
    + destruct (parse_price raw) as [p|e] eqn:Hp.
      * destruct (IH (S n)) as (res & new & Hrun & Hnew & Hcount).
        eexists res, (_ :: new). split; [|split].
        -- intros s. unfold bindM, lift, append_row. rewrite Hrun. simpl.
           rewrite <- app_assoc. reflexivity.
        -- intros r [<-|Hr].
           ++ simpl. unfold Row_fields. simpl. repeat split; auto.
           ++ destruct (Hnew r Hr) as (H1 & H2 & H3). auto.
        -- intros n' Hn'. rewrite (Hcount n' Hn'). simpl. lia.
      * exists (Raise e), []. split; [|split].
        -- intros s. unfold bindM, lift. rewrite app_nil_r, <- state_eta. reflexivity.
        -- intros r [].
        -- discriminate.
Qed.

Lemma msgs_loop_pure chat_name pid : forall msgs n,
  exists res new,
    (forall s, msgs_loop chat_name pid msgs n s =
               (res, State (rows s ++ new) (logged s))) /\
    (forall r, In r new ->
       exists m, In m msgs /\
         Str.contains (Str.lower pid) (Str.lower (body m)) = true /\
         Row_fields chat_name pid m r /\ Row_of pid m r) /\
    (forall n', res = Ok n' -> n' = n + length new).
Proof.
  induction msgs as [|m msgs IH]; intros n.
  - exists (Ok n), []. split; [|split].
    + intros s. simpl. unfold ret. rewrite app_nil_r, <- state_eta. reflexivity.
    + intros r [].
    + intros n' [= <-]. simpl. lia.
  - simpl. destruct (Str.contains (Str.lower pid) (Str.lower (body m))) eqn:Hc; simpl.
    + destruct (extract_message_entries (body m) pid) as [es|e] eqn:He.
      * destruct (raws_loop_pure chat_name pid m es n)
          as (res1 & new1 & Hrun1 & Hnew1 & Hcount1).
        assert (Hnew1' : forall r, In r new1 ->
          exists m0, In m0 (m :: msgs) /\
            Str.contains (Str.lower pid) (Str.lower (body m0)) = true /\
            Row_fields chat_name pid m0 r /\ Row_of pid m0 r).
        { intros r Hr. destruct (Hnew1 r Hr) as (H1 & H2 & H3).
          exists m. split; [left; reflexivity|]. split; [exact Hc|].
          split; [exact H1|]. exists es. auto. }
        destruct res1 as [n1|e].
        -- destruct (IH n1) as (res & new2 & Hrun2 & Hnew2 & Hcount2).
           exists res, (new1 ++ new2). split; [|split].
           ++ intros s. unfold bindM, lift. rewrite Hrun1, Hrun2. simpl.
              rewrite app_assoc. reflexivity.
           ++ intros r Hr. apply in_app_iff in Hr. destruct Hr as [Hr|Hr]; [auto|].
              destruct (Hnew2 r Hr) as (m0 & Hm0 & H). exists m0. split; [right; exact Hm0|exact H].
           ++ intros n' Hn'. rewrite (Hcount2 n' Hn'), (Hcount1 n1 eq_refl), length_app. lia.
        -- exists (Raise e), new1. split; [|split].
           ++ intros s. unfold bindM, lift. rewrite Hrun1. reflexivity.
           ++ exact Hnew1'.
           ++ discriminate.
      * exists (Raise e), []. split; [|split].
        -- intros s. unfold bindM, lift. rewrite app_nil_r, <- state_eta. reflexivity.
        -- intros r [].
        -- discriminate.
    + destruct (IH n) as (res & new & Hrun & Hnew & Hcount).
      exists res, new. split; [exact Hrun|]. split; [|exact Hcount].
      intros r Hr. destruct (Hnew r Hr) as (m0 & Hm0 & H).
      exists m0. split; [right; exact Hm0|exact H].
Qed.

(** What [process_chat_file] returns and logs on a transcript that was
    read. *)
Lemma process_chat_file_read chat_name content pid logger log :
  exists res rs,
    process_chat_file chat_name (Ok content) pid logger log =
      (Ok rs,
       log ++
       (if logger then
          Log_processing chat_name (length (tokenize content)) ::
          match res with
          | Ok n => [Log_found n chat_name]
          | Raise e => [Log_error e; Log_traceback e]
          end
        else [])) /\
    (forall r, In r rs ->
       exists m, In m (tokenize content) /\
         Str.contains (Str.lower pid) (Str.lower (body m)) = true /\
         Row_fields chat_name pid m r /\ Row_of pid m r) /\
    (forall n, res = Ok n -> n = length rs).
Proof.
  destruct (msgs_loop_pure chat_name pid (tokenize content) 0)
    as (res & new & Hrun & Hnew & Hcount).
  exists res, new. split; [|split; [exact Hnew|exact Hcount]].
  unfold process_chat_file, process_chat_file_body, try_except, bindM, lift,
    call_logger.
  destruct logger; rewrite Hrun; destruct res as [n|e]; simpl;
    rewrite <- ?app_assoc, ?app_nil_r; reflexivity.
Qed.

(** X6.  Every row [process_chat_file] returns is consistent with its
    [Raw Line]: the year, variant, condition, price and currency are what
    the extractors give on that text, the identifier is in upper case, the
    remark is empty, the chat is the name of the file, and date, time and
    sender are those of a message of the transcript whose body contains
    the identifier up to case. *)
Theorem process_chat_file_row_fields (chat_name : str) (file : res str)
    (pid : str) (logger : bool) (log : list log_line) :
  exists rs,
    fst (process_chat_file chat_name file pid logger log) = Ok rs /\
    forall r, In r rs ->
      exists content m,
        file = Ok content /\ In m (tokenize content) /\
        Str.contains (Str.lower pid) (Str.lower (body m)) = true /\
        Row_fields chat_name pid m r.
Proof.
  destruct file as [content|e].
  - destruct (process_chat_file_read chat_name content pid logger log)
      as (res & rs & E & Hrows & _).
    exists rs. rewrite E. split; [reflexivity|].
    intros r Hr. destruct (Hrows r Hr) as (m & Hm & Hc & Hf & _).
    exists content, m. auto.
  - exists []. split; [|intros r []].
    unfold process_chat_file. destruct logger; reflexivity.
Qed.

(** X7.  With a logger, a transcript that was read is logged as the number
    of its messages followed either by the number of rows returned, or by
    the error and the traceback when an extractor raised; in both cases the
    rows appended so far are returned.  Without a logger nothing is
    logged. *)
Theorem process_chat_file_log (chat_name content pid : str)
    (log : list log_line) :
  (exists rs,
      process_chat_file chat_name (Ok content) pid true log =
        (Ok rs, log ++ [Log_processing chat_name (length (tokenize content));
                        Log_found (length rs) chat_name]) \/
      exists e,
        process_chat_file chat_name (Ok content) pid true log =
          (Ok rs, log ++ [Log_processing chat_name (length (tokenize content));
                          Log_error e; Log_traceback e])) /\
  (forall file, snd (process_chat_file chat_name file pid false log) = log).
Proof.
  split.
  - destruct (process_chat_file_read chat_name content pid true log)
      as (res & rs & E & _ & Hcount).
    exists rs. destruct res as [n|e].
    + left. rewrite E, (Hcount n eq_refl). reflexivity.
    + right. exists e. exact E.
  - intros [c|e].
    + destruct (process_chat_file_read chat_name c pid false log)
        as (res & rs & E & _). rewrite E. simpl. apply app_nil_r.
    + reflexivity.
Qed.

Lemma process_chat_file_rows_independent chat_name file pid logger log
    logger' log' :
  fst (process_chat_file chat_name file pid logger log) =
  fst (process_chat_file chat_name file pid logger' log').
Proof.
  destruct file as [content|e].
  - destruct (msgs_loop_pure chat_name pid (tokenize content) 0)
      as (res & new & Hrun & _).
    unfold process_chat_file, process_chat_file_body, try_except, bindM, lift,
      call_logger.
    destruct logger, logger'; rewrite !Hrun; destruct res; reflexivity.
  - unfold process_chat_file. destruct logger, logger'; reflexivity.
Qed.

Lemma extraction_loop_rows pid : forall txt_files all_entries log,
  fst (extraction_loop txt_files pid all_entries log) =
  Ok (all_entries ++ flat_map (file_rows pid) txt_files).
Proof.
  induction txt_files as [|f fs IH]; intros all_entries log; simpl.
  - rewrite app_nil_r. reflexivity.
  - unfold file_rows at 1.
    rewrite (process_chat_file_rows_independent (stem f) (contents f) pid
               true [] true (log ++ [Log_file (name f)])).
    destruct (process_chat_file_rows (stem f) (contents f) pid true
                (log ++ [Log_file (name f)])) as (rs & E & _).
    destruct (process_chat_file (stem f) (contents f) pid true
                (log ++ [Log_file (name f)])) as [[entries|e] log'];
      simpl in E; [|discriminate].
    simpl. rewrite IH, app_assoc. reflexivity.
Qed.

(** X8.  The rows of a transcript depend neither on the logger nor on what
    was logged before, and the loop over the transcripts returns the rows
    of the files one after the other, in the order of the files: the rows
    of two lists of files are those of the first list followed by those of
    the second. *)
Theorem extraction_loop_concatenates (pid : str) :
  (forall chat_name file logger log logger' log',
      fst (process_chat_file chat_name file pid logger log) =
      fst (process_chat_file chat_name file pid logger' log')) /\
  (forall txt_files all_entries log,
      fst (extraction_loop txt_files pid all_entries log) =
      Ok (all_entries ++ flat_map (file_rows pid) txt_files)) /\
  (forall files1 files2 log log1 log2,
      exists rows1 rows2,
        fst (extraction_loop files1 pid [] log1) = Ok rows1 /\
        fst (extraction_loop files2 pid [] log2) = Ok rows2 /\
        fst (extraction_loop (files1 ++ files2) pid [] log) =
          Ok (rows1 ++ rows2)).
Proof.
  split; [|split].
  - intros. apply process_chat_file_rows_independent.
  - apply extraction_loop_rows.
  - intros files1 files2 log log1 log2.
    exists (flat_map (file_rows pid) files1), (flat_map (file_rows pid) files2).
    rewrite !extraction_loop_rows, flat_map_app. auto.
Qed.

(** * Further properties of the attribute extractors *)

Lemma lower_is_2 x : Char.lower x = "2"%char -> x = "2"%char.
Proof.
  destruct x as [[] [] [] [] [] [] [] []]; vm_compute; intros H;
    solve [reflexivity | discriminate H].
Qed.

Lemma lower_is_0 x : Char.lower x = "0"%char -> x = "0"%char.
Proof.
  destruct x as [[] [] [] [] [] [] [] []]; vm_compute; intros H;
    solve [reflexivity | discriminate H].
Qed.

Lemma two_of p (s : str) :
  forallb p s = true -> 2 <= length s -> length s <= 2 ->
  exists a b, s = [a; b] /\ p a = true /\ p b = true.
Proof.
  destruct s as [|a [|b [|c s]]]; simpl; intros H H1 H2; try lia.
  apply andb_prop in H. destruct H as [Ha H].
  apply andb_prop in H. destruct H as [Hb _]. eauto.
Qed.

Lemma Matches_year20 prev s s2 m m' :
  Matches year20 prev s s2 m m' ->
  exists a b, s = ["2"; "0"; a; b]%char /\ digit a = true /\ digit b = true /\
              m' = (1, s) :: m.
Proof.
  unfold year20. cbv [cat lit map txt list_ascii_of_string times chr]. intros H.
  apply Matches_Group_inv in H. destruct H as (m1 & H & ->).
  apply Matches_Cat_inv in H. destruct H as (x & y & m2 & -> & Hx & Hy).
  apply Matches_Cat_inv in Hx. destruct Hx as (x1 & x2 & m3 & -> & H1 & H2).
  apply Matches_Set_inv in H1. destruct H1 as (c1 & -> & Hc1 & ->).
  apply Matches_Set_inv in H2. destruct H2 as (c2 & -> & Hc2 & ->).
  apply Ascii.eqb_eq in Hc1, Hc2. subst c1 c2.
  apply Matches_Rep_inv in Hy. destruct Hy as (Hd & Hlo & Hhi & ->).
  destruct (two_of _ _ Hd Hlo (Hhi 2 eq_refl)) as (a & b & -> & Ha & Hb).
  exists a, b. auto.
Qed.

Lemma Matches_year20_i prev s s2 m m' :
  Matches year20_i prev s s2 m m' ->
  exists a b, s = ["2"; "0"; a; b]%char /\ digit a = true /\ digit b = true /\
              m' = (1, s) :: m.
Proof.
  unfold year20_i. cbv [cat lit_i map txt list_ascii_of_string times chr_i].
  intros H.
  apply Matches_Group_inv in H. destruct H as (m1 & H & ->).
  apply Matches_Cat_inv in H. destruct H as (x & y & m2 & -> & Hx & Hy).
  apply Matches_Cat_inv in Hx. destruct Hx as (x1 & x2 & m3 & -> & H1 & H2).
  apply Matches_Set_inv in H1. destruct H1 as (c1 & -> & Hc1 & ->).
  apply Matches_Set_inv in H2. destruct H2 as (c2 & -> & Hc2 & ->).
  apply eqb_nocase_iff in Hc1, Hc2.
  symmetry in Hc1, Hc2. apply lower_is_2 in Hc1. apply lower_is_0 in Hc2.
  subst c1 c2.
  apply Matches_Rep_inv in Hy. destruct Hy as (Hd & Hlo & Hhi & ->).
  destruct (two_of _ _ Hd Hlo (Hhi 2 eq_refl)) as (a & b & -> & Ha & Hb).
  exists a, b. auto.
Qed.

Lemma digit_value c :
  digit c = true -> (0 <= Z.of_N (Char.code c - 48) <= 9)%Z.
Proof.
  unfold digit, Char.is_digit, Char.in_range. intros H.
  apply andb_prop in H. destruct H as [H1 H2].
  apply N.leb_le in H1, H2. lia.
Qed.

Lemma digit_char_digit q : (0 <= q <= 9)%Z -> digit (digit_char q) = true.
Proof.
  intros H.
  assert (E : (q = 0 \/ q = 1 \/ q = 2 \/ q = 3 \/ q = 4 \/ q = 5 \/ q = 6 \/
              q = 7 \/ q = 8 \/ q = 9)%Z) by lia.
  repeat (destruct E as [->|E]; [reflexivity|]). subst q. reflexivity.
Qed.

(** The year of a run of one or two digits. *)
Lemma century_shape g :
  forallb digit g = true -> 1 <= length g <= 2 -> Year_shape (century g).
Proof.
  intros Hd Hlen. right.
  assert (Hv : (0 <= Str.to_int g < 100)%Z).
  { destruct g as [|a [|b [|c g]]]; simpl in Hlen; try lia; simpl in Hd.
    - rewrite andb_true_r in Hd. pose proof (digit_value a Hd).
      unfold Str.to_int. cbn [Str.int_go]. lia.
    - apply andb_prop in Hd. destruct Hd as [Ha Hb]. rewrite andb_true_r in Hb.
      pose proof (digit_value a Ha). pose proof (digit_value b Hb).
      unfold Str.to_int. cbn [Str.int_go]. lia. }
  unfold century, format_02d.
  exists (digit_char (Str.to_int g / 10)), (digit_char (Str.to_int g mod 10)).
  split; [apply digit_char_digit|split; [apply digit_char_digit|]].
  - assert (0 <= Str.to_int g / 10 < 10)%Z
      by (split; [apply Z.div_pos; lia|apply Z.div_lt_upper_bound; lia]). lia.
  - pose proof (Z.mod_pos_bound (Str.to_int g) 10 ltac:(lia)). lia.
  - destruct (Str.to_int g <? 50)%Z; [left|right]; reflexivity.
Qed.

(** X9.  The year extractor returns the empty string or four digits that
    start with 20 or with 19: a row never holds another kind of year. *)
Theorem parse_year_shape (text : str) : Year_shape (parse_year text).
Proof.
  unfold parse_year.
  destruct (search YEAR_BARE text) as [m|] eqn:H1.
  { apply search_some_sound in H1. destruct H1 as (pre & s1 & s2 & _ & H).
    unfold YEAR_BARE in H. cbn [cat] in H.
    apply Matches_Cat_inv in H. destruct H as (x & y & m1 & -> & Hx & H).
    apply Matches_Bound_inv in Hx. destruct Hx as (-> & _ & ->).
    apply Matches_Cat_inv in H. destruct H as (g & z & m2 & -> & Hg & Hz).
    apply Matches_Bound_inv in Hz. destruct Hz as (-> & _ & ->).
    apply Matches_year20 in Hg. destruct Hg as (a & b & -> & Ha & Hb & ->).
    right. exists a, b. simpl. auto. }
  destruct (search YEAR_SLASH text) as [m|] eqn:H2.
  { apply search_some_sound in H2. destruct H2 as (pre & s1 & s2 & _ & H).
    unfold YEAR_SLASH in H. cbn [cat] in H.
    apply Matches_Cat_inv in H. destruct H as (g & y & m1 & -> & Hg & H).
    apply Matches_groupless in H; [|reflexivity]. subst m1.
    apply Matches_year20 in Hg. destruct Hg as (a & b & -> & Ha & Hb & ->).
    right. exists a, b. simpl. auto. }
  destruct (search YEAR_SHORT text) as [m|] eqn:H3.
  { apply search_some_sound in H3. destruct H3 as (pre & s1 & s2 & _ & H).
    unfold YEAR_SHORT in H. cbn [cat] in H.
    apply Matches_Cat_inv in H. destruct H as (x & y & m1 & -> & Hx & H).
    apply Matches_Bound_inv in Hx. destruct Hx as (-> & _ & ->).
    apply Matches_Cat_inv in H. destruct H as (g & z & m2 & -> & Hg & Hz).
    apply Matches_groupless in Hz; [|reflexivity]. subst m2.
    apply Matches_Group_inv in Hg. destruct Hg as (m3 & Hg & ->).
    apply Matches_Rep_inv in Hg. destruct Hg as (Hd & Hlo & Hhi & ->).
    simpl group. apply (century_shape g Hd).
    split; [exact Hlo|apply (Hhi 2 eq_refl)]. }
  destruct (search YEAR_WORD text) as [m|] eqn:H4.
  { apply search_some_sound in H4. destruct H4 as (pre & s1 & s2 & _ & H).
    unfold YEAR_WORD in H. cbn [cat] in H.
    apply Matches_Cat_inv in H. destruct H as (g & y & m1 & -> & Hg & H).
    apply Matches_groupless in H; [|reflexivity]. subst m1.
    apply Matches_year20_i in Hg. destruct Hg as (a & b & -> & Ha & Hb & ->).
    right. exists a, b. simpl. auto. }
  left. reflexivity.
Qed.

(** ** Prices *)

Lemma int_go_nonneg s : forall acc, (0 <= acc)%Z -> (0 <= Str.int_go acc s)%Z.
Proof.
  induction s as [|c s IH]; intros acc H; cbn [Str.int_go]; [exact H|].
  apply IH. pose proof (N2Z.is_nonneg (Char.code c - 48)). lia.
Qed.

Lemma to_int_nonneg s : (0 <= Str.to_int s)%Z.
Proof. apply int_go_nonneg. lia. Qed.

Lemma round_div_nonneg n d : (0 <= n)%Z -> (0 < d)%Z -> (0 <= Float.round_div n d)%Z.
Proof.
  intros Hn Hd. unfold Float.round_div.
  assert (0 <= n / d)%Z by (apply Z.div_pos; lia).
  destruct (2 * (n mod d) ?= d)%Z; [destruct (Z.even (n / d))| |]; lia.
Qed.

Lemma of_ratio_nonneg n d m e :
  (0 <= n)%Z -> (0 < d)%Z -> Float.of_ratio n d = Float.Finite m e -> (0 <= m)%Z.
Proof.
  intros Hn Hd. unfold Float.of_ratio.
  destruct (n =? 0)%Z; [intros [= <- <-]; lia|].
  set (x := Z.max (Float.ilog2 n d - 52) (-1074)).
  assert (Hr : (0 <= (if (0 <=? x)%Z then Float.round_div n (d * 2 ^ x)
                      else Float.round_div (n * 2 ^ (- x)) d))%Z).
  { destruct (Z.leb_spec 0 x).
    - apply round_div_nonneg; [lia|]. apply Z.mul_pos_pos; [lia|].
      apply Z.pow_pos_nonneg; lia.
    - apply round_div_nonneg; [|lia]. apply Z.mul_nonneg_nonneg; [lia|].
      apply Z.pow_nonneg. lia. }
  cbv zeta.
  destruct ((if (0 <=? x)%Z then Float.round_div n (d * 2 ^ x)
             else Float.round_div (n * 2 ^ (- x)) d) =? 2 ^ 53)%Z;
    match goal with |- context [if ?b then Float.Infinity else _] => destruct b end;
    intros [= <- <-]; lia.
Qed.

Lemma int_float_times_nonneg g k z :
  (0 <= k)%Z -> int_float_times g k = Ok z -> (0 <= z)%Z.
Proof.
  intros Hk. unfold int_float_times, Float.of_decimal.
  destruct (Float.of_ratio (Str.to_int (Float.before_dot g ++ Float.after_dot g))
              (10 ^ Z.of_nat (length (Float.after_dot g)))) as [m e|] eqn:E;
    [|discriminate].
  apply of_ratio_nonneg in E;
    [|apply to_int_nonneg|apply Z.pow_pos_nonneg; lia].
  unfold Float.mul_int.
  destruct (Z.leb_spec 0 e) as [He|He].
  - destruct (Float.of_ratio (m * k * 2 ^ e) 1) as [m' e'|] eqn:E'; [|discriminate].
    apply of_ratio_nonneg in E'; [|
      apply Z.mul_nonneg_nonneg; [nia|apply Z.pow_nonneg; lia]|lia].
    simpl. intros [= <-].
    destruct (Z.leb_spec 0 e'); [apply Z.mul_nonneg_nonneg; [lia|apply Z.pow_nonneg; lia]|].
    apply Z.div_pos; [lia|]. apply Z.pow_pos_nonneg; lia.
  - destruct (Float.of_ratio (m * k) (2 ^ (- e))) as [m' e'|] eqn:E'; [|discriminate].
    apply of_ratio_nonneg in E'; [|nia|apply Z.pow_pos_nonneg; lia].
    simpl. intros [= <-].
    destruct (Z.leb_spec 0 e'); [apply Z.mul_nonneg_nonneg; [lia|apply Z.pow_nonneg; lia]|].
    apply Z.div_pos; [lia|]. apply Z.pow_pos_nonneg; lia.
Qed.

(** X10.  A price the extractor returns is never negative. *)
Theorem parse_price_nonneg (text : str) (z : Z) :
  parse_price text = Ok z -> (0 <= z)%Z.
Proof.
  unfold parse_price.
  repeat match goal with
         | |- context [search ?r ?t] => destruct (search r t)
         end;
    first
      [ apply int_float_times_nonneg; lia
      | intros [= <-];
        first [ lia
              | apply to_int_nonneg
              | apply Z.mul_nonneg_nonneg; [apply to_int_nonneg|lia] ] ].
Qed.

Lemma parse_price_nonneg_witness :
  parse_price (txt "usd 12.5k") = Ok 12500%Z /\ (0 <= 12500)%Z.
Proof.
  split; [vm_compute; reflexivity|].
  apply (@parse_price_nonneg (txt "usd 12.5k")). vm_compute. reflexivity.
Defined.

Lemma Matches_digit_group g lo hi prev s s2 m m' :
  Matches (Group 1 (Rep g lo hi digit)) prev s s2 m m' -> 1 <= lo ->
  Digits s /\ m' = (1, s) :: m.
Proof.
  intros H Hlo. apply Matches_Group_inv in H. destruct H as (m1 & H & ->).
  apply Matches_Rep_inv in H. destruct H as (Hd & Hlen & _ & ->).
  split; [|reflexivity]. split; [|exact Hd].
  destruct s; [simpl in Hlen; lia|discriminate].
Qed.

Lemma digits_then_rule_group g lo hi rest t m :
  groupless rest = true -> 1 <= lo ->
  search (Cat (Group 1 (Rep g lo hi digit)) rest) t = Some m ->
  Digits (group 1 m).
Proof.
  intros Hg Hlo H. apply search_some_sound in H.
  destruct H as (pre & s1 & s2 & _ & H).
  apply Matches_Cat_inv in H. destruct H as (x & y & m1 & -> & Hx & Hy).
  apply (Matches_groupless Hy) in Hg. subst m.
  apply Matches_digit_group in Hx; [|exact Hlo]. destruct Hx as [Hd ->].
  exact Hd.
Qed.

(** X11.  Whenever a price rule matches, the text it hands to [float] is a
    decimal numeral (digits, a dot, digits) and the text it hands to [int]
    is a non-empty run of digits: the conversions of [parse_price] cannot
    fail on the text they are given. *)
Theorem parse_price_groups_convert (t : str) (m : captures) :
  (search PRICE_DECIMAL_K t = Some m \/ search PRICE_DECIMAL_M t = Some m \/
   search PRICE_DECIMAL_MILL t = Some m -> Decimal (group 1 m)) /\
  (search PRICE_INT_K t = Some m \/ search PRICE_INT_M t = Some m \/
   search PRICE_CODE_SEP t = Some m \/ search PRICE_CODE t = Some m \/
   search PRICE_BARE t = Some m -> Digits (group 1 m)).
Proof.
  split.
  - intros [H|[H|H]];
      (eapply decimal_rule_group; [|exact H]; reflexivity).
  - intros [H|[H|[H|[H|H]]]].
    + eapply digits_then_rule_group; [| |exact H]; [reflexivity|lia].
    + eapply digits_then_rule_group; [| |exact H]; [reflexivity|lia].
    + apply search_some_sound in H. destruct H as (pre & s1 & s2 & _ & H).
      unfold PRICE_CODE_SEP in H. cbn [cat] in H.
      apply Matches_Cat_inv in H. destruct H as (x & y & m1 & -> & Hx & H).
      apply Matches_groupless in Hx; [|reflexivity]. subst m1.
      apply Matches_Cat_inv in H. destruct H as (x1 & y1 & m2 & -> & Hx1 & H).
      apply Matches_groupless in Hx1; [|reflexivity]. subst m2.
      apply Matches_Cat_inv in H. destruct H as (x2 & y2 & m3 & -> & Hx2 & H).
      apply Matches_groupless in Hx2; [|reflexivity]. subst m3.
      apply Matches_digit_group in H; [|lia]. destruct H as [Hd ->]. exact Hd.
    + apply search_some_sound in H. destruct H as (pre & s1 & s2 & _ & H).
      unfold PRICE_CODE in H. cbn [cat] in H.
      apply Matches_Cat_inv in H. destruct H as (x & y & m1 & -> & Hx & H).
      apply Matches_groupless in Hx; [|reflexivity]. subst m1.
      apply Matches_digit_group in H; [|lia]. destruct H as [Hd ->]. exact Hd.
    + apply search_some_sound in H. destruct H as (pre & s1 & s2 & _ & H).
      unfold PRICE_BARE in H. cbn [cat] in H.
      apply Matches_Cat_inv in H. destruct H as (x & y & m1 & -> & Hx & H).
      apply Matches_groupless in Hx; [|reflexivity]. subst m1.
      apply Matches_Cat_inv in H. destruct H as (x1 & y1 & m2 & -> & Hx1 & H).
      apply Matches_groupless in H; [|reflexivity]. subst m2.
      apply Matches_digit_group in Hx1; [|lia]. destruct Hx1 as [Hd ->]. exact Hd.
Qed.

(** ** Currency *)

Lemma lower_idempotent_char c : Char.lower (Char.lower c) = Char.lower c.
Proof.
  destruct c as [[] [] [] [] [] [] [] []]; vm_compute; reflexivity.
Qed.

Lemma lower_idempotent s : Str.lower (Str.lower s) = Str.lower s.
Proof.
  unfold Str.lower. rewrite map_map. apply map_ext. apply lower_idempotent_char.
Qed.

(** A lower-case text is in the lower-cased [t] exactly when it is in [t]
    up to case. *)
Lemma contains_lower_iff w t :
  Str.lower w = w ->
  (Str.contains w (Str.lower t) = true <-> Substring_i w t).
Proof.
  intros Hw. rewrite contains_iff. unfold Substring, Substring_i, Str.lower in *.
  split.
  - intros (pre & post & H).
    apply map_eq_app in H. destruct H as (t1 & t23 & -> & H1 & H).
    apply map_eq_app in H. destruct H as (t2 & t3 & -> & H2 & H3).
    exists t1, t2, t3. split; [reflexivity|]. rewrite H2, Hw. reflexivity.
  - intros (pre & mid & post & -> & H). rewrite Hw in H.
    exists (map Char.lower pre), (map Char.lower post).
    rewrite !map_app, H. reflexivity.
Qed.

(** X12.  The currency extractor does not depend on case, returns one of
    the six codes, gives USDT to every text that contains usdt up to case,
    and returns the default HKD only for a text without usd, eur, chf, gbp,
    dollar sign or pound sign. *)
Theorem parse_currency_cases (text : str) :
  parse_currency (Str.lower text) = parse_currency text /\
  In (parse_currency text) (map txt CURRENCY_CODES) /\
  (Substring_i (txt "usdt") text -> parse_currency text = txt "USDT") /\
  (parse_currency text = txt "HKD" ->
   ~ Substring_i (txt "usd") text /\ ~ Substring (txt "$") text /\
   ~ Substring_i (txt "eur") text /\ ~ Substring_i (txt "chf") text /\
   ~ Substring_i (txt "gbp") text /\ ~ Substring ["163"%char] text).
Proof.
  assert (Hdollar : Str.contains (txt "$") (Str.lower text) = true <->
                    Substring (txt "$") text).
  { rewrite (@contains_lower_iff (txt "$") text eq_refl). split.
    - intros (pre & mid & post & -> & H).
      destruct mid as [|c [|d mid]]; try discriminate.
      injection H as H. exists pre, post.
      replace c with "$"%char; [reflexivity|].
      revert H. clear. destruct c as [[] [] [] [] [] [] [] []]; vm_compute;
        intros H; solve [reflexivity | discriminate H].
    - intros (pre & post & ->). exists pre, (txt "$"), post. auto. }
  assert (Hpound : Str.contains ["163"%char] (Str.lower text) = true <->
                   Substring ["163"%char] text).
  { rewrite (@contains_lower_iff ["163"%char] text eq_refl). split.
    - intros (pre & mid & post & -> & H).
      destruct mid as [|c [|d mid]]; try discriminate.
      injection H as H. exists pre, post.
      replace c with "163"%char; [reflexivity|].
      revert H. clear. destruct c as [[] [] [] [] [] [] [] []]; vm_compute;
        intros H; solve [reflexivity | discriminate H].
    - intros (pre & post & ->). exists pre, ["163"%char], post. auto. }
  pose proof (@contains_lower_iff (txt "usdt") text eq_refl) as Husdt.
  pose proof (@contains_lower_iff (txt "usd") text eq_refl) as Husd.
  pose proof (@contains_lower_iff (txt "eur") text eq_refl) as Heur.
  pose proof (@contains_lower_iff (txt "chf") text eq_refl) as Hchf.
  pose proof (@contains_lower_iff (txt "gbp") text eq_refl) as Hgbp.
  unfold parse_currency. rewrite lower_idempotent.
  split; [reflexivity|].
  destruct (Str.contains (txt "usdt") (Str.lower text)) eqn:E1.
  { split; [left; reflexivity|]. split; [reflexivity|]. discriminate. }
  split.
  { repeat match goal with
           | |- context [if ?b then _ else _] => destruct b
           end; simpl; tauto. }
  split; [intros H; apply Husdt in H; discriminate|].
  destruct (Str.contains (txt "usd") (Str.lower text)) eqn:E2; [discriminate|].
  destruct (Str.contains (txt "$") (Str.lower text)) eqn:E3; [discriminate|].
  destruct (Str.contains (txt "eur") (Str.lower text)) eqn:E4; [discriminate|].
  destruct (Str.contains (txt "chf") (Str.lower text)) eqn:E5; [discriminate|].
  destruct (Str.contains (txt "gbp") (Str.lower text)) eqn:E6; [discriminate|].
  destruct (Str.contains ["163"%char] (Str.lower text)) eqn:E7; [discriminate|].
  intros _. simpl in *.
  repeat split; intros H;
    first [apply Husd in H | apply Hdollar in H | apply Heur in H
          | apply Hchf in H | apply Hgbp in H | apply Hpound in H];
    discriminate.
Qed.

(** ** Variant *)

Lemma parse_variant_loop_empty t : forall vs,
  (forall v, In v vs -> v <> EmptyString) ->
  (parse_variant_loop vs t = [] <->
   forall v, In v vs -> ~ Occurs (WORD_RE v) t).
Proof.
  induction vs as [|v vs IH]; intros Hne; simpl.
  - split; [intros _ v []|reflexivity].
  - assert (Hne' : forall v0, In v0 vs -> v0 <> EmptyString)
      by (intros v0 H0; apply Hne; right; exact H0).
    destruct (found (search (WORD_RE v) t)) eqn:Hf.
    + split.
      * destruct (String.eqb v "GRAY"); [discriminate|].
        destruct v as [|a v]; [|discriminate].
        intros _. exfalso. apply (Hne EmptyString); [left|]; reflexivity.
      * intros H. exfalso. apply (H v); [left; reflexivity|].
        apply found_search_iff. exact Hf.
    + rewrite (IH Hne'). split.
      * intros H v0 [<-|H0]; [|apply H; exact H0].
        intros Ho. apply found_search_iff in Ho. congruence.
      * intros H v0 H0. apply H. right. exact H0.
Qed.

(** X13.  The variant extractor returns the empty string or one of eleven
    labels, never GRAY, and returns the empty string exactly when no word
    of its vocabulary stands as a whole word in the upper-cased text. *)
Theorem parse_variant_cases (text : str) :
  In (parse_variant text) ([] :: map txt VARIANT_LABELS) /\
  parse_variant text <> txt "GRAY" /\
  (parse_variant text = [] <->
   forall v, In v VARIANTS -> ~ Occurs (WORD_RE v) (Str.upper text)).
Proof.
  split; [|split].
  - unfold parse_variant, VARIANTS, parse_variant_loop.
    repeat match goal with
           | |- context [found ?b] => destruct (found b)
           end; simpl; tauto.
  - unfold parse_variant, VARIANTS, parse_variant_loop.
    repeat match goal with
           | |- context [found ?b] => destruct (found b)
           end; simpl; discriminate.
  - apply parse_variant_loop_empty.
    intros v Hv. unfold VARIANTS in Hv. simpl in Hv.
    repeat (destruct Hv as [<-|Hv]; [discriminate|]). destruct Hv.
Qed.

(** * The lines of a message body *)

Lemma splitlines_go_one_line l : forall cur,
  one_line l = true ->
  Str.splitlines_go cur l =
  match rev cur ++ l with [] => [] | _ :: _ => [rev cur ++ l] end.
Proof.
  induction l as [|c l IH]; intros cur H; simpl.
  - rewrite app_nil_r. destruct cur as [|x cur]; [reflexivity|].
    simpl. destruct (rev cur ++ [x]) eqn:E; [|reflexivity].
    destruct (rev cur); discriminate.
  - simpl in H. apply andb_prop in H. destruct H as [Hc H].
    apply negb_true_iff in Hc. rewrite Hc, IH by exact H.
    simpl. rewrite <- app_assoc. reflexivity.
Qed.

Lemma splitlines_go_line_feed l rest : forall cur,
  one_line l = true ->
  Str.splitlines_go cur (l ++ LF :: rest) =
  (rev cur ++ l) :: Str.splitlines_go [] rest.
Proof.
  induction l as [|c l IH]; intros cur H; simpl.
  - rewrite app_nil_r. destruct rest; reflexivity.
  - simpl in H. apply andb_prop in H. destruct H as [Hc H].
    apply negb_true_iff in Hc. rewrite Hc, IH by exact H.
    simpl. rewrite <- app_assoc. reflexivity.
Qed.

(** The non-blank lines of lines joined by line feeds are the non-blank
    lines among them. *)
Lemma stripped_lines_join_nl : forall ls,
  Forall (fun l => one_line l = true) ls ->
  stripped_lines (Str.join_nl ls) = nonblank ls.
Proof.
  unfold stripped_lines, nonblank, Str.splitlines.
  induction 1 as [|l ls Hl Hls IH]; [reflexivity|].
  destruct ls as [|l' ls'].
  - simpl Str.join_nl. rewrite splitlines_go_one_line by exact Hl.
    simpl. destruct l as [|c l]; [reflexivity|]. reflexivity.
  - change (Str.join_nl (l :: l' :: ls'))
      with (l ++ LF :: Str.join_nl (l' :: ls')).
    rewrite splitlines_go_line_feed by exact Hl.
    cbn [rev app filter map].
    destruct (nonempty (Str.strip l)); cbn [map]; rewrite IH; reflexivity.
Qed.

Lemma splitlines_go_lines_one_line l : forall n s cur,
  length s <= n -> one_line (rev cur) = true ->
  In l (Str.splitlines_go cur s) -> one_line l = true.
Proof.
  induction n as [|n IH]; intros s cur Hn Hcur.
  - destruct s; [|simpl in Hn; lia]. simpl.
    destruct cur; [intros []|]. intros [<-|[]]. exact Hcur.
  - destruct s as [|c s]; simpl.
    + destruct cur; [intros []|]. intros [<-|[]]. exact Hcur.
    + simpl in Hn. destruct (Char.is_linebreak c) eqn:Hc.
      * intros [<-|H]; [exact Hcur|].
        destruct s as [|d s']; [destruct H|].
        destruct (Char.has_code 13 c && Char.has_code 10 d).
        -- apply IH in H; [exact H|simpl in Hn; lia|reflexivity].
        -- apply IH in H; [exact H|lia|reflexivity].
      * intros H. apply IH in H; [exact H|lia|].
        simpl. unfold one_line in *. rewrite forallb_app, Hcur. simpl.
        rewrite Hc. reflexivity.
Qed.

Lemma splitlines_one_line l s : In l (Str.splitlines s) -> one_line l = true.
Proof.
  apply (@splitlines_go_lines_one_line l (length s) s []); [lia|reflexivity].
Qed.

(** X15.  The body of every message of the tokenizer is read back by the
    segment extractor as the lines the tokenizer put into it: the
    non-empty trimmed lines that forward attachment scans are the
    non-blank ones among the text after the header and the continuation
    lines, which are lines of the transcript. *)
Theorem message_body_lines (content : str) (m : message) :
  In m (tokenize content) ->
  exists line h conts,
    In line (Str.splitlines content) /\ incl conts (Str.splitlines content) /\
    match_ HEADER_RE line = Some h /\
    body m = Str.join_nl (group 4 h :: conts) /\
    stripped_lines (body m) = nonblank (group 4 h :: conts).
Proof.
  intros Hin.
  assert (H : Forall (Opened_by (Str.splitlines content)) (tokenize content)).
  { apply tokenize_loop_opened; [apply incl_refl|constructor|discriminate]. }
  rewrite Forall_forall in H.
  destruct (H m Hin) as (line & h & conts & Hline & Hconts & Hh & ->).
  exists line, h, conts. cbn [body].
  rewrite <- join_nl_cons.
  repeat split; try assumption.
  apply stripped_lines_join_nl. constructor.
  - destruct (HEADER_RE_sound _ Hh)
      as (d & ws1 & t & ws2 & snd & ws3 & b & tail & E & Eh & _).
    subst h. cbn [group Nat.eqb].
    apply splitlines_one_line in Hline. rewrite E in Hline.
    unfold one_line in *.
    repeat (rewrite ?forallb_app in Hline; cbn [forallb] in Hline).
    repeat match goal with
           | H : _ && _ = true |- _ => apply andb_prop in H; destruct H
           end.
    assumption.
  - apply Forall_forall. intros x Hx. apply (@splitlines_one_line x content).
    apply Hconts. exact Hx.
Qed.

Lemma message_body_lines_witness :
  exists line h conts,
    In line (Str.splitlines (txt "[1/2/23, 9:16 PM] Bo: 126610LN" ++ LF ::
                             txt "  " ++ LF :: txt " 85y ")) /\
    incl conts (Str.splitlines (txt "[1/2/23, 9:16 PM] Bo: 126610LN" ++ LF ::
                                txt "  " ++ LF :: txt " 85y ")) /\
    match_ HEADER_RE line = Some h /\
    txt "126610LN" ++ LF :: txt "  " ++ LF :: txt " 85y " =
      Str.join_nl (group 4 h :: conts) /\
    stripped_lines (txt "126610LN" ++ LF :: txt "  " ++ LF :: txt " 85y ") =
      nonblank (group 4 h :: conts).
Proof.
  apply (@message_body_lines
           (txt "[1/2/23, 9:16 PM] Bo: 126610LN" ++ LF :: txt "  " ++ LF ::
            txt " 85y ")
           (Message (txt "1/2/23") (txt "9:16 PM") (txt "Bo")
              (txt "126610LN" ++ LF :: txt "  " ++ LF :: txt " 85y "))).
  vm_compute. left. reflexivity.
Defined.

(** * Header lines: from the fields to the line and back *)

Lemma first_split c (x y x' y' : str) :
  forallb (fun a => negb (Ascii.eqb a c)) x = true ->
  forallb (fun a => negb (Ascii.eqb a c)) x' = true ->
  x ++ c :: y = x' ++ c :: y' -> x = x' /\ y = y'.
Proof.
  intros Hx Hx' E. split.
  - rewrite <- (before_first_app c x y Hx), E. apply before_first_app. exact Hx'.
  - rewrite <- (after_first_app c x y Hx), E. apply after_first_app. exact Hx'.
Qed.

Lemma lstrip_fixed s :
  (forall c s', s = c :: s' -> space c = false) -> Str.lstrip s = s.
Proof.
  destruct s as [|c s]; [reflexivity|]. intros H. simpl.
  unfold space in H. rewrite (H c s eq_refl). reflexivity.
Qed.

Lemma Time_shape_head t :
  Time_shape t -> forall c s', t = c :: s' -> space c = false.
Proof.
  intros (hh & mm & ss & ws & ap & -> & Hhh & [Hlen _] & _) c s' E.
  destruct hh as [|a hh]; [simpl in Hlen; lia|].
  simpl in E. injection E as <- _. simpl in Hhh.
  apply andb_prop in Hhh. destruct Hhh as [Ha _].
  destruct (space a) eqn:Hs; [|reflexivity].
  revert Ha Hs. clear. destruct a as [[] [] [] [] [] [] [] []]; vm_compute;
    intros; congruence.
Qed.

Lemma Time_shape_Matches t prev s2 m :
  Time_shape t ->
  Matches (cat [between 1 2 digit; chr ":"; times 2 digit;
                opt (cat [chr ":"; times 2 digit]); star space;
                times 2 (one_of "APMapm")]) prev t s2 m m.
Proof.
  intros (hh & mm & ss & ws & ap & -> & Hhh & [Hh1 Hh2] & Hmm & Hmlen & Hss &
          Hws & Hap & Haplen).
  cbn [cat]. unfold between, times, opt, star, chr.
  change (hh ++ ":"%char :: mm ++ ss ++ ws ++ ap)
    with (hh ++ [":"%char] ++ mm ++ ss ++ ws ++ ap).
  eapply M_Cat; [constructor; [exact Hhh|exact Hh1|intros h [= <-]; exact Hh2]|].
  eapply M_Cat; [constructor; reflexivity|].
  eapply M_Cat; [constructor; [exact Hmm|lia|intros h [= <-]; lia]|].
  eapply M_Cat.
  - destruct Hss as [->|(dd & -> & Hdd & Hdlen)].
    + apply M_AltR. constructor.
    + apply M_AltL. change (":"%char :: dd) with ([":"%char] ++ dd).
      eapply M_Cat; [constructor; reflexivity|].
      constructor; [exact Hdd|lia|intros h [= <-]; lia].
  - eapply M_Cat; [constructor; [exact Hws|lia|intros h [=]]|].
    rewrite <- (app_nil_r ap) at 1.
    replace (ap ++ []) with ap by (symmetry; apply app_nil_r).
    constructor; [exact Hap|lia|intros h [= <-]; lia].
Qed.

(** A line made of well-formed fields is a header line. *)
Lemma HEADER_RE_complete d t s b ws1 ws2 ws3 :
  Date_shape d -> Time_shape t ->
  forallb space ws1 = true -> forallb space ws2 = true ->
  forallb space ws3 = true ->
  s <> [] -> forallb (none_of ":") s = true -> forallb dot b = true ->
  exists h,
    match_ HEADER_RE
      ("["%char :: d ++ ","%char :: ws1 ++ t ++ "]"%char :: ws2 ++ s ++
       ":"%char :: ws3 ++ b) = Some h.
Proof.
  intros [Hdne Hd] Ht Hws1 Hws2 Hws3 Hsne Hs Hb.
  assert (HM : exists m,
    Matches HEADER_RE None
      ([] ++ ["["%char] ++ d ++ [","%char] ++ ws1 ++ t ++ ["]"%char] ++ ws2 ++
       s ++ [":"%char] ++ ws3 ++ b ++ []) [] [] m).
  { eexists. unfold HEADER_RE. cbn [cat].
    eapply M_Cat; [constructor|].
    eapply M_Cat; [constructor; reflexivity|].
    eapply M_Cat.
    { constructor. constructor; [exact Hd| |intros h [=]].
      destruct d; [congruence|simpl; lia]. }
    eapply M_Cat; [constructor; reflexivity|].
    eapply M_Cat; [constructor; [exact Hws1|lia|intros h [=]]|].
    eapply M_Cat; [constructor; apply Time_shape_Matches; exact Ht|].
    eapply M_Cat; [constructor; reflexivity|].
    eapply M_Cat; [constructor; [exact Hws2|lia|intros h [=]]|].
    eapply M_Cat.
    { constructor. constructor; [exact Hs| |intros h [=]].
      destruct s; [congruence|simpl; lia]. }
    eapply M_Cat; [constructor; reflexivity|].
    eapply M_Cat; [constructor; [exact Hws3|lia|intros h [=]]|].
    eapply M_Cat.
    { constructor. constructor; [exact Hb|lia|intros h [=]]. }
    constructor. reflexivity. }
  destruct HM as [m HM]. apply attempt_complete in HM.
  destruct HM as [h Hh]. exists h. unfold match_. rewrite <- Hh.
  f_equal. simpl. rewrite ?app_nil_r. reflexivity.
Qed.

Lemma none_of_colon_free s :
  forallb (none_of ":") s = true ->
  forallb (fun a => negb (Ascii.eqb a ":")) s = true.
Proof.
  apply forallb_impl. intros x Hx. unfold none_of, one_of in Hx. simpl in Hx.
  rewrite orb_false_r in Hx. exact Hx.
Qed.

(** X16.  Reading back a header line: a line written as an opening
    bracket, a date, a comma, a time, a closing bracket, a sender, a colon
    and a body start, with any whitespace after the comma, the bracket and
    the colon, is a header line, and the pattern captures exactly that
    date, time, sender and body start.  The date and the time have the
    shapes of the pattern; the sender is not empty, has no colon and does
    not start with whitespace; the body start has no line feed and does
    not start with whitespace. *)
Theorem header_round_trip (d t s b ws1 ws2 ws3 : str) :
  Date_shape d -> Time_shape t ->
  forallb space ws1 = true -> forallb space ws2 = true ->
  forallb space ws3 = true ->
  s <> [] -> forallb (none_of ":") s = true ->
  (forall c s', s = c :: s' -> space c = false) ->
  forallb dot b = true ->
  (forall c b', b = c :: b' -> space c = false) ->
  match_ HEADER_RE
    ("["%char :: d ++ ","%char :: ws1 ++ t ++ "]"%char :: ws2 ++ s ++
     ":"%char :: ws3 ++ b) =
  Some [(4, b); (3, s); (2, t); (1, d)].
Proof.
  intros Hd Ht Hws1 Hws2 Hws3 Hsne Hs Hshead Hb Hbhead.
  destruct (@HEADER_RE_complete d t s b ws1 ws2 ws3 Hd Ht Hws1 Hws2 Hws3 Hsne
              Hs Hb) as [h Hh].
  rewrite Hh. f_equal.
  destruct (HEADER_RE_sound _ Hh)
    as (d' & ws1' & t' & ws2' & s' & ws3' & b' & tail & E & -> & Hd' & Hws1' &
        Ht' & Hws2' & Hsne' & Hs' & Hsmax' & Hws3' & Hb' & Hbmax' & Htail).
  injection E as E.
  (* the date ends at the first comma *)
  apply first_split in E;
    [|apply (forallb_impl _ _ _ (not_in_set digit_or_slash "," eq_refl) (proj2 Hd))
     |apply (forallb_impl _ _ _ (not_in_set digit_or_slash "," eq_refl) (proj2 Hd'))].
  destruct E as [<- E].
  (* the time ends at the first closing bracket *)
  assert (Hbr : forall w u, forallb space w = true -> Time_shape u ->
            forallb (fun a => negb (Ascii.eqb a "]")) (w ++ u) = true).
  { intros w u Hw Hu. rewrite forallb_app.
    rewrite (forallb_impl _ _ _ (not_in_set space "]" eq_refl) Hw).
    apply (@Time_shape_without "]" u eq_refl eq_refl eq_refl eq_refl Hu). }
  rewrite (app_assoc ws1 t), (app_assoc ws1' t') in E.
  apply first_split in E; [|apply Hbr; assumption|apply Hbr; assumption].
  destruct E as [Et E].
  assert (t' = t).
  { rewrite <- (lstrip_fixed (Time_shape_head Ht)),
            <- (lstrip_fixed (Time_shape_head Ht')).
    rewrite <- (lstrip_app_space ws1 t Hws1), <- (lstrip_app_space ws1' t' Hws1').
    rewrite Et. reflexivity. }
  subst t'.
  (* the sender ends at the first colon *)
  assert (Hcol : forall w u, forallb space w = true ->
            forallb (none_of ":") u = true ->
            forallb (fun a => negb (Ascii.eqb a ":")) (w ++ u) = true).
  { intros w u Hw Hu. rewrite forallb_app.
    rewrite (forallb_impl _ _ _ (not_in_set space ":" eq_refl) Hw).
    apply none_of_colon_free. exact Hu. }
  rewrite (app_assoc ws2 s), (app_assoc ws2' s') in E.
  apply first_split in E; [|apply Hcol; assumption|apply Hcol; assumption].
  destruct E as [Es E].
  assert (s' = s).
  { rewrite <- (@trim_sender_spec ws2' s' Hws2' Hsne' Hsmax').
    rewrite <- (@trim_sender_spec ws2 s Hws2 Hsne).
    - rewrite Es. reflexivity.
    - intros c s0 E0 Hc. rewrite (Hshead c s0 E0) in Hc. discriminate. }
  subst s'.
  (* the body start is what is left, without the whitespace that leads it *)
  assert (b' = b).
  { assert (El : Str.lstrip (ws3 ++ b) = Str.lstrip (ws3' ++ b' ++ tail))
      by (rewrite E; reflexivity).
    rewrite !lstrip_app_space in El by assumption.
    rewrite (lstrip_fixed Hbhead) in El.
    destruct (at_end_cases tail Htail) as [->| ->].
    - rewrite app_nil_r in El. rewrite (lstrip_fixed Hbmax') in El. auto.
    - destruct b' as [|c b'].
      + symmetry. exact El.
      + exfalso. simpl in El. unfold space in Hbmax'.
        rewrite (Hbmax' c b' eq_refl) in El.
        subst b. simpl in Hb. rewrite forallb_app in Hb.
        apply andb_prop in Hb. destruct Hb as [_ Hb].
        apply andb_prop in Hb. destruct Hb as [_ Hb].
        simpl in Hb. discriminate. }
  subst b'. reflexivity.
Qed.

Lemma header_round_trip_witness :
  match_ HEADER_RE (txt "[12/02/2023, 10:15:07 pm] Al Ko: note: at 12:30") =
  Some [(4, txt "note: at 12:30"); (3, txt "Al Ko");
        (2, txt "10:15:07 pm"); (1, txt "12/02/2023")].
Proof.
  apply (@header_round_trip (txt "12/02/2023") (txt "10:15:07 pm")
           (txt "Al Ko") (txt "note: at 12:30") (txt " ") (txt " ") (txt " ")).
  - split; [discriminate|reflexivity].
  - exists (txt "10"), (txt "15"), (txt ":07"), (txt " "), (txt "pm").
    repeat split; try reflexivity; simpl; try lia.
    right. exists (txt "07"). repeat split; reflexivity.
  - reflexivity.
  - reflexivity.
  - reflexivity.
  - discriminate.
  - reflexivity.
  - intros c s' [= <- _]. reflexivity.
  - reflexivity.
  - intros c b' [= <- _]. reflexivity.
Defined.

(** * A rule that never decides, and the name of the output file *)

(** A pattern without anchors matches a text whatever stands around it. *)
Lemma Matches_anchor_free r prev s s2 m m' :
  Matches r prev s s2 m m' -> anchor_free r = true ->
  forall prev' s2', Matches r prev' s s2' m m'.
Proof.
  induction 1; simpl; intros Ha prev' s2'; try discriminate;
    try (apply andb_prop in Ha; destruct Ha as [Ha1 Ha2]).
  - constructor.
  - constructor. assumption.
  - econstructor; [apply IHMatches1|apply IHMatches2]; assumption.
  - apply M_AltL. apply IHMatches. assumption.
  - apply M_AltR. apply IHMatches. assumption.
  - constructor; assumption.
  - constructor. apply IHMatches. assumption.
Qed.

Lemma decimal_mill_occurs_m t :
  Occurs PRICE_DECIMAL_MILL t -> Occurs PRICE_DECIMAL_M t.
Proof.
  intros (pre & s1 & s2 & m & -> & H).
  unfold PRICE_DECIMAL_MILL in H. cbn [cat] in H.
  apply Matches_Cat_inv in H. destruct H as (g & r1 & m1 & -> & Hg & H).
  apply Matches_Cat_inv in H. destruct H as (ws & r2 & m2 & -> & Hws & H).
  unfold lit in H. cbv [txt list_ascii_of_string map cat] in H.
  apply Matches_Cat_inv in H. destruct H as (c1 & r3 & m3 & -> & Hc1 & H).
  apply Matches_Set_inv in Hc1. destruct Hc1 as (c & -> & Hc & ->).
  apply Matches_Rep_inv in Hws. destruct Hws as (Hws & _ & _ & ->).
  exists pre, (g ++ ws ++ [c]), (r3 ++ s2), m1.
  split; [rewrite <- !app_assoc; reflexivity|].
  unfold PRICE_DECIMAL_M. cbn [cat].
  econstructor.
  - apply (Matches_anchor_free Hg). reflexivity.
  - econstructor.
    + constructor; [exact Hws|lia|intros h [=]].
    + constructor. exact Hc.
Qed.

(** X17.  The decimal-mill rule of the price extractor never decides the
    result: a text in which its pattern matches is a text in which the
    pattern of the decimal-m rule, tried before it, matches too. *)
Theorem decimal_mill_rule_never_first (text : str) :
  (search PRICE_DECIMAL_MILL (price_text text) <> None ->
   search PRICE_DECIMAL_M (price_text text) <> None) /\
  (forall v, ~ First_at (apply_rule (price_text text)) PRICE_RULES 4 v).
Proof.
  assert (H : search PRICE_DECIMAL_MILL (price_text text) <> None ->
              search PRICE_DECIMAL_M (price_text text) <> None).
  { intros Hm Hn. apply search_none_iff in Hn. apply Hn.
    apply decimal_mill_occurs_m.
    destruct (search PRICE_DECIMAL_MILL (price_text text)) eqn:E; [|congruence].
    apply found_search_iff. rewrite E. reflexivity. }
  split; [exact H|].
  intros v [(r & Hr & Hv) Hbefore]. simpl in Hr. injection Hr as <-.
  specialize (Hbefore 1 _ ltac:(lia) eq_refl).
  apply apply_rule_none in Hbefore. simpl in Hbefore.
  apply H; [|exact Hbefore].
  unfold apply_rule in Hv. simpl in Hv.
  destruct (search PRICE_DECIMAL_MILL (price_text text)); congruence.
Qed.

Lemma replace_char_length old new s : length (replace_char old new s) = length s.
Proof. apply length_map. Qed.

(** X18.  The identifier that goes into the name of the output file has
    neither slash nor backslash, has the length of the identifier, and is
    the identifier itself when that has no such character. *)
Theorem safe_pid_no_separator (pid : str) :
  forallb (fun c => negb (is_separator c)) (safe_pid pid) = true /\
  length (safe_pid pid) = length pid /\
  (forallb (fun c => negb (is_separator c)) pid = true -> safe_pid pid = pid).
Proof.
  unfold safe_pid, replace_char. rewrite map_map. split; [|split].
  - rewrite forallb_forall. intros c Hc. apply in_map_iff in Hc.
    destruct Hc as (x & <- & _). cbv beta.
    destruct (Ascii.eqb x "/") eqn:E1; [reflexivity|].
    destruct (Ascii.eqb x "092") eqn:E2; [reflexivity|].
    unfold is_separator. rewrite E1, E2. reflexivity.
  - apply length_map.
  - intros H. rewrite <- (map_id pid) at 2. apply map_ext_in.
    intros x Hx. rewrite forallb_forall in H. specialize (H x Hx).
    unfold is_separator in H. apply negb_true_iff, orb_false_iff in H.
    destruct H as [H1 H2]. rewrite H1, H2. reflexivity.
Qed.

(** * The order of the rows *)

Lemma raws_loop_ok chat_name pid m : forall raws n s n' s',
  raws_loop chat_name pid m raws n s = (Ok n', s') ->
  rows s' = rows s ++ flat_map (entry_rows chat_name pid m) raws.
Proof.
  induction raws as [|raw raws IH]; intros n s n' s' H; simpl in H.
  - injection H as _ <-. simpl. rewrite app_nil_r. reflexivity.
  - cbn [flat_map]. unfold entry_rows at 1.
    destruct (is_noise raw); [apply (IH _ _ _ _ H)|].
    unfold bindM, lift in H. destruct (parse_price raw) as [p|e]; [|discriminate].
    simpl in H. apply IH in H. rewrite H. simpl. rewrite <- app_assoc.
    reflexivity.
Qed.

Lemma msgs_loop_ok chat_name pid : forall msgs n s n' s',
  msgs_loop chat_name pid msgs n s = (Ok n', s') ->
  rows s' = rows s ++ flat_map (message_rows chat_name pid) msgs.
Proof.
  induction msgs as [|m msgs IH]; intros n s n' s' H; simpl in H.
  - injection H as _ <-. simpl. rewrite app_nil_r. reflexivity.
  - cbn [flat_map]. unfold message_rows at 1.
    destruct (Str.contains (Str.lower pid) (Str.lower (body m))); simpl in H.
    + unfold bindM at 1, lift in H.
      destruct (extract_message_entries (body m) pid) as [es|e]; [|discriminate].
      unfold bindM in H.
      destruct (raws_loop chat_name pid m es n s) as [[n1|e] s1] eqn:E1;
        [|discriminate].
      apply raws_loop_ok in E1. apply IH in H. rewrite H, E1, app_assoc.
      reflexivity.
    + apply IH in H. exact H.
Qed.

(** X19.  When a transcript is processed to the end (the logger receives
    the count of rows, no error), the rows returned are those of its
    messages in the order of the transcript, and within a message those of
    its entries that are not noise, in the order the segment extractor
    gives them. *)
Theorem process_chat_file_rows_in_order (chat_name content pid : str)
    (log : list log_line) (rs : list row) (n : nat) :
  process_chat_file chat_name (Ok content) pid true log =
    (Ok rs, log ++ [Log_processing chat_name (length (tokenize content));
                    Log_found n chat_name]) ->
  rs = flat_map (message_rows chat_name pid) (tokenize content).
Proof.
  unfold process_chat_file, process_chat_file_body, try_except, bindM, lift,
    call_logger.
  cbn [rows logged].
  destruct (msgs_loop chat_name pid (tokenize content) 0 _) as [[n1|e] s1] eqn:E.
  - apply msgs_loop_ok in E. simpl in E. simpl. intros [= <- _]. exact E.
  - simpl. intros [= _ H]. exfalso.
    assert (Hl := msgs_loop_pure chat_name pid (tokenize content) 0).
    destruct Hl as (res & new & Hrun & _). rewrite Hrun in E.
    injection E as _ <-. simpl in H.
    rewrite <- !app_assoc in H. apply app_inv_head in H. discriminate.
Qed.

Lemma process_chat_file_rows_in_order_witness :
  [Row (txt "chat") (txt "1/2/23") (txt "9:15 PM") (txt "Al") (txt "126610LN")
       (txt "2021") [] (txt "Full Set") 14500 (txt "USD")
       (txt "126610LN 2021 usd 14500 full set") []] =
  flat_map (message_rows (txt "chat") (txt "126610ln"))
    (tokenize (txt "[1/2/23, 9:15 PM] Al: 126610LN photo omitted // 126610LN 2021 usd 14500 full set")).
Proof.
  apply (@process_chat_file_rows_in_order (txt "chat")
           (txt "[1/2/23, 9:15 PM] Al: 126610LN photo omitted // 126610LN 2021 usd 14500 full set")
           (txt "126610ln") [] _ 1).
  vm_compute. reflexivity.
Defined.

(** * Forward attachment, line by line *)

Lemma map_filter_comm (A B : Type) (f : A -> B) (p : B -> bool) : forall l,
  map f (filter (fun x => p (f x)) l) = filter p (map f l).
Proof.
  induction l as [|x l IH]; simpl; [reflexivity|].
  destruct (p (f x)); simpl; rewrite IH; reflexivity.
Qed.

Lemma stripped_lines_filter_map body :
  stripped_lines body = filter nonempty (map Str.strip (Str.splitlines body)).
Proof. unfold stripped_lines. apply map_filter_comm. Qed.

Lemma parse_price_Ok_nonneg text z : parse_price text = Ok z -> (0 <= z)%Z.
Proof.
  unfold parse_price.
  repeat match goal with
         | |- context [search ?r ?t] => destruct (search r t)
         end;
    first
      [ apply int_float_times_nonneg; lia
      | intros [= <-];
        first [ lia
              | apply to_int_nonneg
              | apply Z.mul_nonneg_nonneg; [apply to_int_nonneg|lia] ] ].
Qed.

Lemma nonempty_false (l : str) : nonempty l = false <-> l = [].
Proof. destruct l; simpl; split; congruence. Qed.

Lemma nonempty_true (l : str) : nonempty l = true <-> l <> [].
Proof. destruct l; simpl; split; congruence. Qed.

Lemma yields_iff f : yields f = Ok true <-> Yields f.
Proof.
  unfold yields, Yields. destruct (nonempty (parse_year f)) eqn:Hy.
  - apply nonempty_true in Hy. tauto.
  - apply nonempty_false in Hy. rewrite Hy.
    destruct (parse_price f) as [p|x] eqn:Hp; cbn [bind].
    + pose proof (parse_price_Ok_nonneg _ Hp) as Hnn. split.
      * intros [= H]. apply Z.ltb_lt in H. right. exists p. split; [reflexivity|lia].
      * intros [H|(q & [= <-] & Hq)]; [congruence|].
        f_equal. apply Z.ltb_lt. lia.
    + split; [discriminate|]. intros [H|(q & H & _)]; congruence.
Qed.

Lemma self_sufficient_iff line :
  self_sufficient line = Ok false <->
  parse_price line = Ok 0%Z /\ parse_year line = [].
Proof.
  unfold self_sufficient.
  destruct (parse_price line) as [p|x] eqn:Hp; cbn [bind].
  - pose proof (parse_price_Ok_nonneg _ Hp) as Hnn. split.
    + intros [= H]. apply orb_false_iff in H. destruct H as [H1 H2].
      apply Z.ltb_ge in H1. apply nonempty_false in H2.
      split; [f_equal; lia|exact H2].
    + intros [[= ->] ->]. reflexivity.
  - split; [discriminate|]. intros [H _]. discriminate.
Qed.

Lemma starts_other_item_iff pid l :
  starts_other_item pid l = true <-> Starts_other_item pid l.
Proof.
  unfold starts_other_item, Starts_other_item.
  rewrite andb_true_iff, negb_true_iff, found_search_iff.
  rewrite <- has_pid_iff. destruct (has_pid pid l); intuition congruence.
Qed.

Lemma starts_other_item_false_iff pid l :
  starts_other_item pid l = false <-> ~ Starts_other_item pid l.
Proof.
  rewrite <- starts_other_item_iff.
  destruct (starts_other_item pid l); intuition congruence.
Qed.

Lemma scanned_nth pid f : forall window,
  In f (scanned pid window) <->
  exists j, nth_error window j = Some f /\
            forall k l, k <= j -> nth_error window k = Some l ->
                        starts_other_item pid l = false.
Proof.
  induction window as [|l w IH]; cbn [scanned].
  - split; [intros []|]. intros (j & H & _). destruct j; discriminate.
  - destruct (starts_other_item pid l) eqn:Hl.
    + split; [intros []|]. intros (j & _ & H).
      specialize (H 0 l (Nat.le_0_l j) eq_refl). congruence.
    + split.
      * intros [<-|H].
        -- exists 0. split; [reflexivity|]. intros k l' Hk.
           assert (k = 0) as -> by lia. intros [= <-]. exact Hl.
        -- apply IH in H. destruct H as (j & Hj & Hall).
           exists (S j). split; [exact Hj|]. intros [|k] l' Hk.
           ++ intros [= <-]. exact Hl.
           ++ apply Hall. lia.
      * intros ([|j] & Hj & Hall).
        -- left. injection Hj as ->. reflexivity.
        -- right. apply IH. exists j. split; [exact Hj|].
           intros k l' Hk. apply (Hall (S k)). lia.
Qed.

Lemma nth_error_firstn_iff (A : Type) (x : A) : forall n l j,
  nth_error (firstn n l) j = Some x <-> j < n /\ nth_error l j = Some x.
Proof.
  induction n as [|n IH]; intros l j.
  - simpl. split; [destruct j; discriminate|]. intros [H _]. lia.
  - destruct l as [|y l].
    + simpl. split; [destruct j; discriminate|]. intros [_ H]. destruct j; discriminate.
    + destruct j as [|j]; cbn [firstn nth_error].
      * split; [intros H; split; [lia|exact H]|tauto].
      * rewrite IH. split; intros [H1 H2]; split; try lia; exact H2.
Qed.

Lemma scanned_window pid f following :
  In f (scanned pid (firstn 5 following)) <->
  exists j, j < 5 /\ nth_error following j = Some f /\
            forall k l, k <= j -> nth_error following k = Some l ->
                        ~ Starts_other_item pid l.
Proof.
  rewrite scanned_nth. split.
  - intros (j & Hj & Hall). apply nth_error_firstn_iff in Hj.
    destruct Hj as [Hlt Hj]. exists j. repeat split; auto.
    intros k l Hk Hl. apply starts_other_item_false_iff.
    apply (Hall k l Hk). apply nth_error_firstn_iff. split; [lia|exact Hl].
  - intros (j & Hlt & Hj & Hall). exists j. split.
    + apply nth_error_firstn_iff. auto.
    + intros k l Hk Hl. apply nth_error_firstn_iff in Hl.
      apply starts_other_item_false_iff. apply (Hall k l Hk). tauto.
Qed.

Lemma yielding_keeps f : forall ls kept,
  yielding ls = Ok kept -> In f ls -> yields f = Ok true -> In f kept.
Proof.
  induction ls as [|l ls IH]; simpl; intros kept H Hin Hy; [destruct Hin|].
  destruct (yields l) as [b|] eqn:Hl; simpl in H; [|discriminate].
  destruct (yielding ls) as [kept'|]; simpl in H; [|discriminate].
  injection H as <-. destruct Hin as [->|Hin].
  - rewrite Hy in Hl. injection Hl as <-. left. reflexivity.
  - specialize (IH kept' eq_refl Hin Hy). destruct b; [right|]; exact IH.
Qed.

Lemma attach_spec_scanned pid e : forall lines rs,
  attach_spec pid lines = Ok rs -> In e rs ->
  exists before line following f,
    lines = before ++ line :: following /\
    has_pid pid line = true /\ self_sufficient line = Ok false /\
    In f (scanned pid (firstn 5 following)) /\ yields f = Ok true /\
    e = combined line f.
Proof.
  induction lines as [|line following IH]; cbn [attach_spec]; intros rs H Hin.
  - injection H as <-. destruct Hin.
  - destruct (attach_spec pid following) as [later|] eqn:Hlater.
    2:{ destruct (has_pid pid line); [|discriminate].
        destruct (attach_line pid line following); discriminate. }
    assert (Hlater_in : In e later ->
      exists before line0 following0 f,
        line :: following = before ++ line0 :: following0 /\
        has_pid pid line0 = true /\ self_sufficient line0 = Ok false /\
        In f (scanned pid (firstn 5 following0)) /\ yields f = Ok true /\
        e = combined line0 f).
    { intros Hl. destruct (IH later eq_refl Hl)
        as (before & l0 & f0 & f & -> & H1).
      exists (line :: before), l0, f0, f. split; [reflexivity|exact H1]. }
    destruct (has_pid pid line) eqn:Hpid.
    + unfold attach_line in H.
      destruct (self_sufficient line) as [b|] eqn:Hself; cbn [bind app] in H; [|discriminate].
      destruct b; cbn [bind app] in H.
      * injection H as <-. auto.
      * destruct (yielding (scanned pid (firstn 5 following))) as [kept|] eqn:Hk;
          cbn [bind app] in H; [|discriminate].
        injection H as <-. apply in_app_iff in Hin. destruct Hin as [Hin|Hin]; [|auto].
        apply in_map_iff in Hin. destruct Hin as (f & <- & Hf).
        destruct (yielding_In _ _ Hk Hf) as [Hsc Hy].
        exists [], line, following, f. repeat split; auto.
    + cbn [bind app] in H. injection H as <-. auto.
Qed.

Lemma attach_spec_emits pid line following f : forall before rs,
  attach_spec pid (before ++ line :: following) = Ok rs ->
  has_pid pid line = true -> self_sufficient line = Ok false ->
  In f (scanned pid (firstn 5 following)) -> yields f = Ok true ->
  In (combined line f) rs.
Proof.
  induction before as [|l before IH]; cbn [app attach_spec]; intros rs H Hpid Hself Hsc Hy.
  - rewrite Hpid in H. unfold attach_line in H. rewrite Hself in H. cbn [bind] in H.
    destruct (yielding (scanned pid (firstn 5 following))) as [kept|] eqn:Hk;
      cbn [bind] in H; [|discriminate].
    destruct (attach_spec pid following) as [later|]; cbn [bind] in H; [|discriminate].
    injection H as <-. apply in_app_iff. left. apply in_map.
    eapply yielding_keeps; eauto.
  - destruct (attach_spec pid (before ++ line :: following)) as [later|] eqn:Hlater.
    + specialize (IH later eq_refl Hpid Hself Hsc Hy).
      destruct (if has_pid pid l then attach_line pid l (before ++ line :: following) else Ok [])
        as [here|]; cbn [bind] in H; [|discriminate].
      injection H as <-. apply in_app_iff. right. exact IH.
    + destruct (if has_pid pid l then attach_line pid l (before ++ line :: following) else Ok [])
        as [here|]; cbn [bind] in H; discriminate.
Qed.

(** C2.  Forward attachment works on the trimmed lines of the body that
    are not empty, and is [attach_spec] on them.  When it returns, its
    entries are exactly the texts "line // follow", the two joined by a
    double slash between single spaces, where the line contains the
    identifier as a whole word, up to case, and alone yields neither a
    non-zero price nor a year, and the follow line is one of the five lines
    after it, at most, yields a year or a non-zero price, and neither it
    nor a line between the two has the shape of a reference code without
    containing the identifier.  When the second of three lines stops the
    scan, nothing is attached, as for the body of the specification's
    example; a line is attached across blank lines; of six lines that
    follow, five are attached; a line before the one that stops the scan is
    attached and the lines from it on are not; a line with a reference code
    that contains the identifier does not stop the scan; a line that yields
    a year by itself attaches nothing. *)
Theorem attach_following_forward_attachment (body pid : str) :
  stripped_lines body =
    filter nonempty (map Str.strip (Str.splitlines body)) /\
  attach_following body pid = attach_spec pid (stripped_lines body) /\
  (forall rs e,
      attach_following body pid = Ok rs ->
      (In e rs <->
       exists before line following j f,
         filter nonempty (map Str.strip (Str.splitlines body)) =
           before ++ line :: following /\
         Word_i pid line /\
         parse_price line = Ok 0%Z /\ parse_year line = [] /\
         j < 5 /\ nth_error following j = Some f /\
         (forall k l, k <= j -> nth_error following k = Some l ->
                      ~ Starts_other_item pid l) /\
         Yields f /\
         e = line ++ txt " // " ++ f)) /\
  (forall l1 l2 l3 rs,
      filter nonempty (map Str.strip (Str.splitlines body)) = [l1; l2; l3] ->
      Starts_other_item pid l2 ->
      attach_following body pid = Ok rs ->
      rs = []) /\
  attach_following
    (txt "Line A 126610LN interested" ++ LF ::
     txt "116500LN/XYZ other item" ++ LF :: txt "2023 49000")
    (txt "126610LN") = Ok [] /\
  attach_following
    (txt " 126610LN bnib " ++ LF :: LF :: txt "   " ++ LF ::
     txt "  2023 49000 ")
    (txt "126610ln") = Ok [txt "126610LN bnib // 2023 49000"] /\
  attach_following
    (txt "126610LN" ++ LF :: txt "2019" ++ LF :: txt "2020" ++ LF ::
     txt "2021" ++ LF :: txt "2022" ++ LF :: txt "2023" ++ LF :: txt "2024")
    (txt "126610LN") =
    Ok [txt "126610LN // 2019"; txt "126610LN // 2020";
        txt "126610LN // 2021"; txt "126610LN // 2022";
        txt "126610LN // 2023"] /\
  attach_following
    (txt "126610LN bnib" ++ LF :: txt "2021 card" ++ LF ::
     txt "116500LN/78590 steel" ++ LF :: txt "2023 49000")
    (txt "126610LN") = Ok [txt "126610LN bnib // 2021 card"] /\
  attach_following
    (txt "126610LN bnib" ++ LF :: txt "126610LN/78590 2022" ++ LF ::
     txt "2023")
    (txt "126610LN") =
    Ok [txt "126610LN bnib // 126610LN/78590 2022";
        txt "126610LN bnib // 2023"] /\
  attach_following
    (txt "126610LN 2022" ++ LF :: txt "2023 49000") (txt "126610LN") = Ok [].
Proof.
  split; [apply stripped_lines_filter_map|].
  split; [apply attach_following_spec|].
  split.
  { intros rs e. rewrite attach_following_spec. intros H. split.
    - intros Hin.
      destruct (@attach_spec_scanned _ _ _ _ H Hin)
        as (before & line & following & f & Hl & Hpid & Hself & Hsc & Hy & ->).
      apply scanned_window in Hsc. destruct Hsc as (j & Hj & Hf & Hall).
      apply self_sufficient_iff in Hself. destruct Hself as [Hp Hyr].
      exists before, line, following, j, f.
      rewrite <- stripped_lines_filter_map.
      split; [exact Hl|]. split; [apply has_pid_iff, Hpid|].
      split; [exact Hp|]. split; [exact Hyr|]. split; [exact Hj|].
      split; [exact Hf|]. split; [exact Hall|].
      split; [apply yields_iff, Hy|reflexivity].
    - intros (before & line & following & j & f & Hl & Hpid & Hp & Hyr & Hj &
              Hf & Hall & Hy & ->).
      rewrite <- stripped_lines_filter_map in Hl. rewrite Hl in H.
      eapply attach_spec_emits; [exact H|..].
      + apply has_pid_iff, Hpid.
      + apply self_sufficient_iff. split; assumption.
      + apply scanned_window. exists j. repeat split; assumption.
      + apply yields_iff, Hy. }
  split; [|repeat split; vm_compute; reflexivity].
  intros l1 l2 l3 rs Hlines Hstop.
  rewrite attach_following_spec, stripped_lines_filter_map, Hlines.
  apply starts_other_item_iff in Hstop.
  assert (Hpid2 : has_pid pid l2 = false).
  { unfold starts_other_item in Hstop. apply andb_prop in Hstop.
    destruct Hstop as [_ H]. apply negb_true_iff in H. exact H. }
  cbn [attach_spec]. rewrite Hpid2.
  unfold attach_line, self_sufficient. cbn [firstn scanned]. rewrite Hstop.
  cbn [yielding bind map app].
  destruct (has_pid pid l1), (has_pid pid l3);
    repeat match goal with
           | |- context [parse_price ?l] => destruct (parse_price l); cbn [bind]
           | |- context [if ?b then _ else _] => destruct b; cbn [bind app map]
           end;
    intros [= <-] || discriminate; reflexivity.
Qed.

Lemma attach_following_forward_attachment_witness :
  attach_following
    (txt "126610LN bnib" ++ LF :: txt "full set" ++ LF :: txt "hkd 95k")
    (txt "126610ln") = Ok [txt "126610LN bnib // hkd 95k"] /\
  In (txt "126610LN bnib // hkd 95k") [txt "126610LN bnib // hkd 95k"].
Proof.
  split; [vm_compute; reflexivity|].
  refine (proj2 (proj1 (proj2 (proj2 (attach_following_forward_attachment
            (txt "126610LN bnib" ++ LF :: txt "full set" ++ LF ::
             txt "hkd 95k") (txt "126610ln"))))
            [txt "126610LN bnib // hkd 95k"] (txt "126610LN bnib // hkd 95k")
            _) _); [vm_compute; reflexivity|].
  exists [], (txt "126610LN bnib"), [txt "full set"; txt "hkd 95k"], 1,
    (txt "hkd 95k").
  split; [vm_compute; reflexivity|].
  split; [apply has_pid_iff; vm_compute; reflexivity|].
  split; [vm_compute; reflexivity|]. split; [vm_compute; reflexivity|].
  split; [lia|]. split; [reflexivity|]. split.
  - intros [|[|k]] l Hk; [| |lia]; intros [= <-];
      apply starts_other_item_false_iff; vm_compute; reflexivity.
  - split; [|reflexivity]. right. exists 95000%Z.
    split; [vm_compute; reflexivity|discriminate].
Defined.
